(** * Verification of [setup_project.py]

    A shallow embedding of the project-template initializer: the prompt
    loops that collect the project metadata, the derivation of the module
    and class identifiers, the e-mail validity check (with the address
    parser of the Python standard library it calls), the literal
    placeholder substitution in names and file contents, and the
    filesystem steps that materialize the project.

    Conventions.
    - A Python [str] is a [string]; its characters are 8-bit code points.
    - A directory tree is a [node]; a directory keeps its entries in the
      order a directory scan returns them.
    - Code that raises or calls [sys.exit] is run in a small monad whose
      results are [Ok], [Exit] or [Raise]. *)

From Stdlib Require Import String Ascii List Bool Arith Lia Permutation.
Set Warnings "-register-all".
Import ListNotations.
Local Open Scope list_scope.
Local Open Scope string_scope.
Local Open Scope nat_scope.

(** ** Characters *)

Module Chars.

Definition code (c : ascii) : nat := nat_of_ascii c.

Definition in_range (lo hi : nat) (c : ascii) : bool :=
  (lo <=? code c) && (code c <=? hi).

(** [a-z], [A-Z], [0-9] *)
Definition is_lower (c : ascii) : bool := in_range 97 122 c.
Definition is_upper (c : ascii) : bool := in_range 65 90 c.
Definition is_digit (c : ascii) : bool := in_range 48 57 c.

(** The character class [[a-zA-Z0-9]]. *)
Definition is_alnum (c : ascii) : bool := is_lower c || is_upper c || is_digit c.

(** The character class [[a-z0-9]]. *)
Definition is_lower_alnum (c : ascii) : bool := is_lower c || is_digit c.

(** Membership of a character in a literal set, Python's [c in "..."]. *)
Fixpoint mem (c : ascii) (set : string) : bool :=
  match set with
  | EmptyString => false
  | String d set' => Ascii.eqb c d || mem c set'
  end.

(** [str.isspace] on a single character: the ASCII white space, the four
    separators 0x1c-0x1f, NEL and the no-break space. *)
Definition is_space (c : ascii) : bool :=
  in_range 9 13 c || in_range 28 32 c || (code c =? 133) || (code c =? 160).

(** [str.lower] and [str.upper] on one character.  Only the ASCII letters
    have a case here; the strings this program lowers and capitalizes hold
    no other letters. *)
Definition lower (c : ascii) : ascii :=
  if is_upper c then ascii_of_nat (code c + 32) else c.

Definition upper (c : ascii) : ascii :=
  if is_lower c then ascii_of_nat (code c - 32) else c.

Definition underscore : ascii := "_"%char.

End Chars.

(** ** The string methods the script uses *)

Module Str.

Import Chars.

Fixpoint map (f : ascii -> ascii) (s : string) : string :=
  match s with
  | EmptyString => EmptyString
  | String c s' => String (f c) (map f s')
  end.

Fixpoint forallb (p : ascii -> bool) (s : string) : bool :=
  match s with
  | EmptyString => true
  | String c s' => p c && forallb p s'
  end.

(** [s.lower()] *)
Definition lower (s : string) : string := map Chars.lower s.

(** [s.capitalize()]: first character upper-cased, the rest lower-cased. *)
Definition capitalize (s : string) : string :=
  match s with
  | EmptyString => EmptyString
  | String c s' => String (Chars.upper c) (lower s')
  end.

(** [s.lstrip(chars)] for a predicate on the stripped characters. *)
Fixpoint lstrip (p : ascii -> bool) (s : string) : string :=
  match s with
  | EmptyString => EmptyString
  | String c s' => if p c then lstrip p s' else s
  end.

(** [s.rstrip(chars)] *)
Fixpoint rstrip (p : ascii -> bool) (s : string) : string :=
  match s with
  | EmptyString => EmptyString
  | String c s' =>
      match rstrip p s' with
      | EmptyString => if p c then EmptyString else String c EmptyString
      | r => String c r
      end
  end.

(** [s.strip()] strips white space; [s.strip("_")] strips underscores. *)
Definition strip_with (p : ascii -> bool) (s : string) : string :=
  rstrip p (lstrip p s).

Definition strip (s : string) : string := strip_with is_space s.

(** [s.split(sep)] for a one-character separator: never an empty list. *)
Fixpoint split (sep : ascii) (s : string) : list string :=
  match s with
  | EmptyString => [EmptyString]
  | String c s' =>
      if Ascii.eqb c sep then EmptyString :: split sep s'
      else match split sep s' with
           | [] => [String c EmptyString]
           | w :: ws => String c w :: ws
           end
  end.

(** ["".join(words)] *)
Fixpoint join (words : list string) : string :=
  match words with
  | [] => EmptyString
  | w :: ws => w ++ join ws
  end.

(** [c in s] for a character. *)
Definition has_char (c : ascii) (s : string) : bool := Chars.mem c s.

(** The last character of a string, if any. *)
Fixpoint last (s : string) : option ascii :=
  match s with
  | EmptyString => None
  | String c EmptyString => Some c
  | String _ s' => last s'
  end.

Definition first (s : string) : option ascii :=
  match s with
  | EmptyString => None
  | String c _ => Some c
  end.

(** [s[:-1]] *)
Fixpoint drop_last (s : string) : string :=
  match s with
  | EmptyString => EmptyString
  | String _ EmptyString => EmptyString
  | String c s' => String c (drop_last s')
  end.

(** [s.startswith(p)] *)
Fixpoint starts_with (p s : string) : bool :=
  match p with
  | EmptyString => true
  | String a p' =>
      match s with
      | EmptyString => false
      | String b s' => Ascii.eqb a b && starts_with p' s'
      end
  end.

(** Two equal neighbours [c c] somewhere in [s]. *)
Fixpoint has_double (c : ascii) (s : string) : bool :=
  match s with
  | EmptyString => false
  | String a s' =>
      match s' with
      | EmptyString => false
      | String b _ => (Ascii.eqb a c && Ascii.eqb b c) || has_double c s'
      end
  end.

End Str.

(** ** Regular expressions

    The script only asks whether [re.match] finds a match of a pattern
    anchored by [^] and [$]; that is membership of the subject in the
    pattern's language, decided here with Brzozowski derivatives. *)

Module Re.

Inductive regex : Type :=
| Void : regex
| Eps : regex
| Class (p : ascii -> bool) : regex
| Cat (r1 r2 : regex) : regex
| Alt (r1 r2 : regex) : regex
| Star (r : regex) : regex.

(** [r+] and [r{2,}] *)
Definition Plus (r : regex) : regex := Cat r (Star r).
Definition AtLeast2 (r : regex) : regex := Cat r (Cat r (Star r)).
Definition Lit (c : ascii) : regex := Class (Ascii.eqb c).

Fixpoint nullable (r : regex) : bool :=
  match r with
  | Void => false
  | Eps => true
  | Class _ => false
  | Cat r1 r2 => nullable r1 && nullable r2
  | Alt r1 r2 => nullable r1 || nullable r2
  | Star _ => true
  end.

Fixpoint deriv (c : ascii) (r : regex) : regex :=
  match r with
  | Void => Void
  | Eps => Void
  | Class p => if p c then Eps else Void
  | Cat r1 r2 =>
      if nullable r1 then Alt (Cat (deriv c r1) r2) (deriv c r2)
      else Cat (deriv c r1) r2
  | Alt r1 r2 => Alt (deriv c r1) (deriv c r2)
  | Star r1 => Cat (deriv c r1) (Star r1)
  end.

Fixpoint full_match (r : regex) (s : string) : bool :=
  match s with
  | EmptyString => nullable r
  | String c s' => full_match (deriv c r) s'
  end.

(** [bool(re.match("^r$", s))]: [$] matches at the end of the subject and
    also just before a newline that ends it. *)
Definition newline : ascii := ascii_of_nat 10.

Definition match_anchored (r : regex) (s : string) : bool :=
  full_match r s ||
  match Str.last s with
  | Some c => Ascii.eqb c newline && full_match r (Str.drop_last s)
  | None => false
  end.

End Re.

(** ** Input Collector: the project-name grammar (lines 86-88) *)

Module Ident.

Import Chars Re.

(** [[a-zA-Z0-9._-]] *)
Definition is_name_char (c : ascii) : bool := is_alnum c || Chars.mem c "._-".

(** [^[a-zA-Z0-9][a-zA-Z0-9._-]*[a-zA-Z0-9]$|^[a-zA-Z0-9]$] *)
Definition project_name_pattern : regex :=
  Alt (Cat (Class is_alnum) (Cat (Star (Class is_name_char)) (Class is_alnum)))
      (Class is_alnum).

(** [re.match(pattern, project_name)] as a truth value. *)
Definition valid_project_name (project_name : string) : bool :=
  match_anchored project_name_pattern project_name.

(** ** Identifier Deriver (lines 102-103 and 131-133) *)

(** [re.sub(r"[^a-zA-Z0-9]", "_", s)] *)
Definition sub_non_alnum (s : string) : string :=
  Str.map (fun c => if is_alnum c then c else underscore) s.

(** [re.sub(r"_+", "_", s)]: every maximal run of underscores becomes one
    underscore (each underscore followed by an underscore is dropped). *)
Fixpoint sub_underscores (s : string) : string :=
  match s with
  | EmptyString => EmptyString
  | String c s' =>
      match s' with
      | String d _ =>
          if Ascii.eqb c underscore && Ascii.eqb d underscore
          then sub_underscores s'
          else String c (sub_underscores s')
      | EmptyString => String c EmptyString
      end
  end.

(** [[
    module_name = re.sub(r"[^a-zA-Z0-9]", "_", project_name).lower()
    module_name = re.sub(r"_+", "_", module_name).strip("_")
    ]] *)
Definition module_name_of (project_name : string) : string :=
  let module_name := Str.lower (sub_non_alnum project_name) in
  Str.strip_with (Ascii.eqb underscore) (sub_underscores module_name).

(** ["".join(word.capitalize() for word in module_name.split("_"))] *)
Definition class_derivation (module_name : string) : string :=
  Str.join (List.map Str.capitalize (Str.split underscore module_name)).

(** [[
    main_class = "".join(...)
    if not main_class:
        main_class = "MainClass"
    ]] *)
Definition main_class_of (module_name : string) : string :=
  let main_class := class_derivation module_name in
  if String.eqb main_class "" then "MainClass" else main_class.

(** The shape of a module identifier: its characters, its underscores. *)
Definition is_module_char (c : ascii) : bool :=
  is_lower_alnum c || Ascii.eqb c underscore.

Definition only_lower_alnum_or_underscore (s : string) : Prop :=
  Str.forallb is_module_char s = true.

Definition single_underscores (s : string) : Prop :=
  Str.has_double underscore s = false.

Definition no_leading_underscore (s : string) : Prop :=
  Str.first s <> Some underscore.

Definition no_trailing_underscore (s : string) : Prop :=
  Str.last s <> Some underscore.

End Ident.

(** ** The address parser called by the e-mail check

    [is_valid_email] calls [email.utils.parseaddr] of the Python standard
    library.  The parser is embedded from [email/_parseaddr.py] (class
    [AddrlistClass]) and [email/utils.py] (the strict wrapper): a cursor
    [pos] over the header [field] and the list of comments met so far.
    The [while self.pos < len(self.field)] loops run on a counter. *)

Module Parseaddr.

Import Chars.

Record pstate : Type := { pos : nat; commentlist : list string }.

Inductive perror : Type :=
| IndexError    (* field[pos] past the end *)
| TypeError     (* an operation applied to None *)
| LoopBound.    (* a loop counter ran out *)

Definition P (A : Type) : Type := pstate -> (A * pstate) + perror.

Definition ret {A} (a : A) : P A := fun st => inl (a, st).
Definition fail {A} (e : perror) : P A := fun _ => inr e.
Definition bind {A B} (m : P A) (k : A -> P B) : P B :=
  fun st => match m st with
            | inl (a, st') => k a st'
            | inr e => inr e
            end.

Declare Scope parse_scope.
Delimit Scope parse_scope with parse.
Notation "x <- m ;; k" := (bind m (fun x => k))
  (at level 61, m at next level, right associativity) : parse_scope.
Notation "m ;; k" := (bind m (fun _ => k))
  (at level 61, right associativity) : parse_scope.
Local Open Scope parse_scope.

Definition dquote : ascii := ascii_of_nat 34.
Definition backslash : ascii := ascii_of_nat 92.
Definition tab : ascii := ascii_of_nat 9.
Definition cr : ascii := ascii_of_nat 13.
Definition lf : ascii := ascii_of_nat 10.

Definition str1 (c : ascii) : string := String c EmptyString.

(** [l.append(x)] *)
Definition push {A} (l : list A) (x : A) : list A := List.app l [x].

(** [self.specials], the characters ( ) < > @ , : ; . [ ] and the double
    quote, and the sets built from it. *)
Definition specials : string := "()<>@,:;." ++ str1 dquote ++ "[]".
Definition LWS : string := String " " (str1 tab).
Definition CR : string := String cr (str1 lf).
Definition FWS : string := LWS ++ CR.
Definition atomends : string := specials ++ LWS ++ CR.
(** [self.atomends.replace('.', '')] *)
Definition phraseends : string := "()<>@,:;" ++ str1 dquote ++ "[]" ++ LWS ++ CR.

(** [SPACE.join(words)] *)
Fixpoint space_join (words : list string) : string :=
  match words with
  | [] => ""
  | [w] => w
  | w :: ws => w ++ " " ++ space_join ws
  end.

(** [quote]: backslashes, then double quotes, become quoted pairs. *)
Fixpoint escape_char (x : ascii) (s : string) : string :=
  match s with
  | EmptyString => EmptyString
  | String c s' =>
      if Ascii.eqb c x then String backslash (String c (escape_char x s'))
      else String c (escape_char x s')
  end.

Definition quote (s : string) : string :=
  escape_char dquote (escape_char backslash s).

(** [not s.strip()] *)
Definition blank (s : string) : bool := String.eqb (Str.strip s) "".

Section Parser.

Variable field : string.

Definition get_pos : P nat := fun st => inl (pos st, st).
Definition set_pos (n : nat) : P unit :=
  fun st => inl (tt, {| pos := n; commentlist := commentlist st |}).
Definition advance : P unit :=
  fun st => inl (tt, {| pos := S (pos st); commentlist := commentlist st |}).
Definition get_comments : P (list string) := fun st => inl (commentlist st, st).
Definition set_comments (l : list string) : P unit :=
  fun st => inl (tt, {| pos := pos st; commentlist := l |}).
Definition add_comment (s : string) : P unit :=
  fun st => inl (tt, {| pos := pos st; commentlist := push (commentlist st) s |}).

(** The character under the cursor, [None] when [pos >= len(field)]. *)
Definition peek : P (option ascii) := fun st => inl (String.get (pos st) field, st).

(** [self.field[self.pos]] *)
Definition index : P ascii :=
  fun st => match String.get (pos st) field with
            | Some c => inl (c, st)
            | None => inr IndexError
            end.

(** [getatom(atomends)] *)
Fixpoint getatom_loop (n : nat) (ends : string) (atomlist : string) : P string :=
  match n with
  | 0 => fail LoopBound
  | S n' =>
      oc <- peek ;;
      match oc with
      | None => ret atomlist
      | Some c =>
          if mem c ends then ret atomlist
          else advance ;; getatom_loop n' ends (atomlist ++ str1 c)
      end
  end.

Definition getatom (n : nat) (ends : string) : P string := getatom_loop n ends "".

(** [getdelimited(beginchar, endchars, allowcomments)]; a nested comment
    is read by [getcomment], that is by [getdelimited] itself. *)
Fixpoint getdelimited (n : nat) (beginchar : ascii) (endchars : string)
    (allowcomments : bool) : P string :=
  match n with
  | 0 => fail LoopBound
  | S n' =>
      c0 <- index ;;
      if negb (Ascii.eqb c0 beginchar) then ret ""
      else
        advance ;;
        (fix loop (k : nat) (quoted : bool) (slist : string) : P string :=
           match k with
           | 0 => fail LoopBound
           | S k' =>
               oc <- peek ;;
               match oc with
               | None => ret slist
               | Some c =>
                   if quoted then advance ;; loop k' false (slist ++ str1 c)
                   else if mem c endchars then advance ;; ret slist
                   else if allowcomments && Ascii.eqb c "("
                   then s <- getdelimited n' "(" (String ")" (str1 cr)) true ;;
                        loop k' quoted (slist ++ s)
                   else if Ascii.eqb c backslash then advance ;; loop k' true slist
                   else advance ;; loop k' false (slist ++ str1 c)
               end
           end) n false ""
  end.

Definition getquote (n : nat) : P string :=
  getdelimited n dquote (String dquote (str1 cr)) false.

Definition getcomment (n : nat) : P string :=
  getdelimited n "(" (String ")" (str1 cr)) true.

Definition getdomainliteral (n : nat) : P string :=
  s <- getdelimited n "[" (String "]" (str1 cr)) false ;;
  ret ("[" ++ s ++ "]").

(** [gotonext]: skip white space and collect comments; returns the white
    space skipped, line ends excluded. *)
Fixpoint gotonext_loop (n fuel : nat) (wslist : string) : P string :=
  match n with
  | 0 => fail LoopBound
  | S n' =>
      oc <- peek ;;
      match oc with
      | None => ret wslist
      | Some c =>
          if mem c (LWS ++ String lf (str1 cr)) then
            advance ;;
            gotonext_loop n' fuel
              (if mem c (String lf (str1 cr)) then wslist else wslist ++ str1 c)
          else if Ascii.eqb c "(" then
            s <- getcomment fuel ;; add_comment s ;; gotonext_loop n' fuel wslist
          else ret wslist
      end
  end.

Definition gotonext (n : nat) : P string := gotonext_loop n n "".

(** [getphraselist] *)
Fixpoint getphraselist_loop (n fuel : nat) (plist : list string) : P (list string) :=
  match n with
  | 0 => fail LoopBound
  | S n' =>
      oc <- peek ;;
      match oc with
      | None => ret plist
      | Some c =>
          if mem c FWS then advance ;; getphraselist_loop n' fuel plist
          else if Ascii.eqb c dquote then
            s <- getquote fuel ;; getphraselist_loop n' fuel (push plist s)
          else if Ascii.eqb c "(" then
            s <- getcomment fuel ;; add_comment s ;; getphraselist_loop n' fuel plist
          else if mem c phraseends then ret plist
          else s <- getatom fuel phraseends ;; getphraselist_loop n' fuel (push plist s)
      end
  end.

Definition getphraselist (n : nat) : P (list string) := getphraselist_loop n n [].

(** [getdomain] *)
Fixpoint getdomain_loop (n fuel : nat) (sdlist : string) : P string :=
  match n with
  | 0 => fail LoopBound
  | S n' =>
      oc <- peek ;;
      match oc with
      | None => ret sdlist
      | Some c =>
          if mem c LWS then advance ;; getdomain_loop n' fuel sdlist
          else if Ascii.eqb c "(" then
            s <- getcomment fuel ;; add_comment s ;; getdomain_loop n' fuel sdlist
          else if Ascii.eqb c "[" then
            s <- getdomainliteral fuel ;; getdomain_loop n' fuel (sdlist ++ s)
          else if Ascii.eqb c "." then advance ;; getdomain_loop n' fuel (sdlist ++ ".")
          else if Ascii.eqb c "@" then ret ""
          else if mem c atomends then ret sdlist
          else s <- getatom fuel atomends ;; getdomain_loop n' fuel (sdlist ++ s)
      end
  end.

Definition getdomain (n : nat) : P string := getdomain_loop n n "".

(** [aslist.pop()] when the last element is blank. *)
Definition pop_blank (aslist : list string) : list string :=
  match List.rev aslist with
  | w :: rest => if blank w then List.rev rest else aslist
  | [] => aslist
  end.

(** [getaddrspec] *)
Fixpoint getaddrspec_loop (n fuel : nat) (aslist : list string) : P (list string) :=
  match n with
  | 0 => fail LoopBound
  | S n' =>
      oc <- peek ;;
      match oc with
      | None => ret aslist
      | Some c =>
          if Ascii.eqb c "." then
            advance ;; _ <- gotonext fuel ;;
            getaddrspec_loop n' fuel (push (pop_blank aslist) ".")
          else if Ascii.eqb c dquote then
            q <- getquote fuel ;;
            ws <- gotonext fuel ;;
            let aslist1 := push aslist (str1 dquote ++ quote q ++ str1 dquote) in
            getaddrspec_loop n' fuel
              (if String.eqb ws "" then aslist1 else push aslist1 ws)
          else if mem c atomends then ret (pop_blank aslist)
          else
            a <- getatom fuel atomends ;;
            ws <- gotonext fuel ;;
            let aslist1 := push aslist a in
            getaddrspec_loop n' fuel
              (if String.eqb ws "" then aslist1 else push aslist1 ws)
      end
  end.

Definition getaddrspec (n : nat) : P string :=
  _ <- gotonext n ;;
  aslist <- getaddrspec_loop n n [] ;;
  oc <- peek ;;
  match oc with
  | Some "@"%char =>
      advance ;;
      _ <- gotonext n ;;
      domain <- getdomain n ;;
      if String.eqb domain "" then ret ""
      else ret (Str.join aslist ++ "@" ++ domain)
  | _ => ret (Str.join aslist)
  end.

(** [getrouteaddr]; [None] is Python's bare [return]. *)
Fixpoint getrouteaddr_loop (n fuel : nat) (expectroute : bool) : P string :=
  match n with
  | 0 => fail LoopBound
  | S n' =>
      oc <- peek ;;
      match oc with
      | None => ret ""
      | Some c =>
          if expectroute then
            _ <- getdomain fuel ;; _ <- gotonext fuel ;;
            getrouteaddr_loop n' fuel false
          else if Ascii.eqb c ">" then advance ;; ret ""
          else if Ascii.eqb c "@" then
            advance ;; _ <- gotonext fuel ;; getrouteaddr_loop n' fuel true
          else if Ascii.eqb c ":" then
            advance ;; _ <- gotonext fuel ;; getrouteaddr_loop n' fuel false
          else
            adlist <- getaddrspec fuel ;; advance ;; ret adlist
      end
  end.

Definition getrouteaddr (n : nat) : P (option string) :=
  c <- index ;;
  if negb (Ascii.eqb c "<") then ret None
  else
    advance ;;
    _ <- gotonext n ;;
    adlist <- getrouteaddr_loop n n false ;;
    ret (Some adlist).

(** [getaddress].  [oldcl] is the very list object [self.commentlist]
    still names when it is assigned back, so only [pos] is restored.  A
    route address of [None] would reach ['[' in v[1]] in the caller, which
    raises [TypeError]. *)
Fixpoint getaddress (n : nat) : P (list (string * string)) :=
  match n with
  | 0 => fail LoopBound
  | S n' =>
      set_comments [] ;;
      _ <- gotonext n' ;;
      oldpos <- get_pos ;;
      plist <- getphraselist n' ;;
      _ <- gotonext n' ;;
      oc <- peek ;;
      returnlist <-
        match oc with
        | None =>
            cl <- get_comments ;;
            match plist with
            | p :: _ => ret [(space_join cl, p)]
            | [] => ret []
            end
        | Some c =>
            if mem c ".@" then
              set_pos oldpos ;;
              addrspec <- getaddrspec n' ;;
              cl <- get_comments ;;
              ret [(space_join cl, addrspec)]
            else if Ascii.eqb c ":" then
              advance ;;
              (fix group (k : nat) (acc : list (string * string))
                 : P (list (string * string)) :=
                 match k with
                 | 0 => fail LoopBound
                 | S k' =>
                     oc1 <- peek ;;
                     match oc1 with
                     | None => ret acc
                     | Some _ =>
                         _ <- gotonext n' ;;
                         oc2 <- peek ;;
                         match oc2 with
                         | Some ";"%char => advance ;; ret acc
                         | _ => ad <- getaddress n' ;; group k' (acc ++ ad)%list
                         end
                     end
                 end) n' []
            else if Ascii.eqb c "<" then
              routeaddr <- getrouteaddr n' ;;
              cl <- get_comments ;;
              match routeaddr with
              | None => fail TypeError
              | Some ra =>
                  match cl with
                  | [] => ret [(space_join plist, ra)]
                  | _ => ret [(space_join plist ++ " (" ++ space_join cl ++ ")", ra)]
                  end
              end
            else
              match plist with
              | p :: _ => cl <- get_comments ;; ret [(space_join cl, p)]
              | [] => (if mem c specials then advance else ret tt) ;; ret []
              end
        end ;;
      _ <- gotonext n' ;;
      oc3 <- peek ;;
      match oc3 with
      | Some ","%char => advance ;; ret returnlist
      | _ => ret returnlist
      end
  end.

(** [getaddrlist] *)
Fixpoint getaddrlist_loop (n fuel : nat) (result : list (string * string))
    : P (list (string * string)) :=
  match n with
  | 0 => fail LoopBound
  | S n' =>
      oc <- peek ;;
      match oc with
      | None => ret result
      | Some _ =>
          ad <- getaddress fuel ;;
          match ad with
          | [] => getaddrlist_loop n' fuel (push result ("", ""))
          | _ => getaddrlist_loop n' fuel (result ++ ad)%list
          end
      end
  end.

End Parser.

(** Every loop moves the cursor by at least one character per round, so
    a counter above the field's length is never exhausted. *)
Definition loop_bound (field : string) : nat := 2 * String.length field + 4.

(** [AddressList(field).addresslist] *)
Definition addresslist (field : string) : list (string * string) + perror :=
  if String.eqb field "" then inl []
  else
    match getaddrlist_loop field (loop_bound field) (loop_bound field) []
            {| pos := 0; commentlist := [] |} with
    | inl (l, _) => inl l
    | inr e => inr e
    end.

End Parseaddr.

(** ** [email.utils.parseaddr], strict mode *)

Module EmailUtils.

Import Chars Parseaddr.

(** [_iter_escaped_chars]: the characters of [addr] with their index, a
    backslash glued to the character it escapes. *)
Fixpoint iter_escaped_chars_from (pos : nat) (escape : bool) (addr : string)
    : list (nat * string) :=
  match addr with
  | EmptyString => if escape then [(pos - 1, str1 backslash)] else []
  | String ch rest =>
      if escape then
        (pos, String backslash (str1 ch)) :: iter_escaped_chars_from (S pos) false rest
      else if Ascii.eqb ch backslash then iter_escaped_chars_from (S pos) true rest
      else (pos, str1 ch) :: iter_escaped_chars_from (S pos) false rest
  end.

Definition iter_escaped_chars (addr : string) : list (nat * string) :=
  iter_escaped_chars_from 0 false addr.

(** [addr[i:j]] and [addr[i:]] *)
Definition slice (addr : string) (i j : nat) : string := String.substring i (j - i) addr.
Definition slice_from (addr : string) (i : nat) : string :=
  String.substring i (String.length addr - i) addr.

(** [_strip_quoted_realnames] *)
Fixpoint strip_quoted_loop (addr : string) (items : list (nat * string))
    (start : nat) (open_pos : option nat) (result : string) : nat * string :=
  match items with
  | [] => (start, result)
  | (pos, ch) :: items' =>
      if String.eqb ch (str1 dquote) then
        match open_pos with
        | None => strip_quoted_loop addr items' start (Some pos) result
        | Some o =>
            strip_quoted_loop addr items' (S pos) None
              (if start =? o then result else result ++ slice addr start o)
        end
      else strip_quoted_loop addr items' start open_pos result
  end.

Definition strip_quoted_realnames (addr : string) : string :=
  if negb (Str.has_char dquote addr) then addr
  else
    let '(start, result) :=
      strip_quoted_loop addr (iter_escaped_chars addr) 0 None "" in
    if start <? String.length addr then result ++ slice_from addr start else result.

(** [_check_parenthesis] *)
Fixpoint check_parenthesis_loop (items : list (nat * string)) (opens : nat) : bool :=
  match items with
  | [] => opens =? 0
  | (_, ch) :: items' =>
      if String.eqb ch "(" then check_parenthesis_loop items' (S opens)
      else if String.eqb ch ")" then
        match opens with
        | 0 => false
        | S o => check_parenthesis_loop items' o
        end
      else check_parenthesis_loop items' opens
  end.

Definition check_parenthesis (addr : string) : bool :=
  check_parenthesis_loop (iter_escaped_chars (strip_quoted_realnames addr)) 0.

(** [_pre_parse_validation([addr])[0]] *)
Definition pre_parse_validation (v : string) : string :=
  if check_parenthesis v then v else "('', '')".

(** [_post_parse_validation] *)
Definition post_parse_validation (l : list (string * string)) : list (string * string) :=
  List.map (fun v => if Str.has_char "[" (snd v) then ("", "") else v) l.

(** [parseaddr(addr)] for a [str] argument. *)
Definition parseaddr (addr : string) : (string * string) + perror :=
  match addresslist (pre_parse_validation addr) with
  | inr e => inr e
  | inl l =>
      match post_parse_validation l with
      | [a] => inl a
      | _ => inl ("", "")
      end
  end.

End EmailUtils.

(** ** The e-mail validity check (lines 16-34) *)

Module Email.

Import Chars Re.

(** [[a-zA-Z0-9._%+-]], [[a-zA-Z0-9.-]] and [[a-zA-Z]] *)
Definition is_local_char (c : ascii) : bool := is_alnum c || Chars.mem c "._%+-".
Definition is_domain_char (c : ascii) : bool := is_alnum c || Chars.mem c ".-".
Definition is_letter (c : ascii) : bool := is_lower c || is_upper c.

(** [^[a-zA-Z0-9._%+-]+@[a-zA-Z0-9.-]+\.[a-zA-Z]{2,}$] *)
Definition email_pattern : regex :=
  Cat (Plus (Class is_local_char))
      (Cat (Lit "@")
           (Cat (Plus (Class is_domain_char))
                (Cat (Lit ".") (AtLeast2 (Class is_letter))))).

Section Check.

(** The address-parsing routine, [email.utils.parseaddr]. *)
Variable parseaddr : string -> (string * string) + Parseaddr.perror.

(** [is_valid_email]; an exception of the parser is not caught. *)
Definition is_valid_email (email : string) : bool + Parseaddr.perror :=
  if String.eqb email "" || negb (Str.has_char "@" email) then inl false
  else
    match parseaddr email with
    | inr e => inr e
    | inl (parsed_name, parsed_email) =>
        if String.eqb parsed_email "" || negb (Str.has_char "@" parsed_email)
        then inl false
        else inl (match_anchored email_pattern parsed_email)
    end.

End Check.

End Email.

(** ** Literal substitution and the Replacement Table *)

Module Subst.

(** [s.replace(old, new)]: the occurrences of [old] are found from the
    left, without overlap.  [skip] counts the characters of a matched
    occurrence still to pass over. *)
Fixpoint replace_from (old new : string) (skip : nat) (s : string) : string :=
  match s with
  | EmptyString => EmptyString
  | String c s' =>
      match skip with
      | S k => replace_from old new k s'
      | 0 =>
          if Str.starts_with old s
          then new ++ replace_from old new (String.length old - 1) s'
          else String c (replace_from old new 0 s')
      end
  end.

(** With an empty [old], Python puts [new] before every character and at
    the end. *)
Fixpoint intersperse (new : string) (s : string) : string :=
  match s with
  | EmptyString => new
  | String c s' => new ++ String c (intersperse new s')
  end.

Definition replace (old new : string) (s : string) : string :=
  if String.eqb old "" then intersperse new s else replace_from old new 0 s.

(** A [dict] of placeholder tokens, in insertion order. *)
Definition table : Type := list (string * string).

(** [[
    for template_var, replacement in replacements.items():
        s = s.replace(template_var, replacement)
    ]] *)
Definition apply_all (replacements : table) (s : string) : string :=
  List.fold_left (fun acc kv => replace (fst kv) (snd kv) acc) replacements s.

(** [needle in s] *)
Fixpoint occurs (needle s : string) : bool :=
  Str.starts_with needle s ||
  match s with
  | EmptyString => false
  | String _ s' => occurs needle s'
  end.

(** The seven placeholder tokens, in the order of the dictionary literal
    (lines 136-144). *)
Definition tokens : list string :=
  [ "{{PROJECT_NAME}}"; "{{MODULE_NAME}}"; "{{PROJECT_DESCRIPTION}}";
    "{{AUTHOR_NAME}}"; "{{AUTHOR_EMAIL}}"; "{{GITHUB_USERNAME}}";
    "{{MAIN_CLASS}}" ].

(** No placeholder token occurs in [s]. *)
Definition token_free (s : string) : Prop :=
  forall k, In k tokens -> occurs k s = false.

Definition is_brace (c : ascii) : bool := Ascii.eqb c "{" || Ascii.eqb c "}".

(** [s] holds neither brace. *)
Definition brace_free (s : string) : Prop :=
  Str.forallb (fun c => negb (is_brace c)) s = true.

(** Template text: brace-free characters and whole placeholder tokens. *)
Inductive piece : Type :=
| Chr (c : ascii)
| Tok (k : string).

Fixpoint render (ps : list piece) : string :=
  match ps with
  | [] => EmptyString
  | Chr c :: ps' => String c (render ps')
  | Tok k :: ps' => k ++ render ps'
  end.

Definition piece_ok (p : piece) : Prop :=
  match p with
  | Chr c => is_brace c = false
  | Tok k => In k tokens
  end.

(** [s] is a concatenation of brace-free characters and placeholder
    tokens: every brace of [s] belongs to a token. *)
Definition templated (s : string) : Prop :=
  exists ps, Forall piece_ok ps /\ s = render ps.

(** The keys of a table, in its order. *)
Definition keys (t : table) : list string := List.map fst t.

(** A brace-free string as pieces. *)
Fixpoint chars (s : string) : list piece :=
  match s with
  | EmptyString => []
  | String c s' => Chr c :: chars s'
  end.

(** One replacement on pieces: the token [k] becomes the text [v]. *)
Definition expand1 (k v : string) (p : piece) : list piece :=
  match p with
  | Chr c => [Chr c]
  | Tok k' => if String.eqb k' k then chars v else [Tok k']
  end.

Definition expand (k v : string) (ps : list piece) : list piece :=
  List.flat_map (expand1 k v) ps.

Definition expand_all (t : table) (ps : list piece) : list piece :=
  List.fold_left (fun acc kv => expand (fst kv) (snd kv) acc) t ps.

(** The first value a table gives a key. *)
Fixpoint value_of (k : string) (t : table) : option string :=
  match t with
  | [] => None
  | (k', v) :: t' => if String.eqb k k' then Some v else value_of k t'
  end.

(** All replacements at once: each token becomes its value. *)
Definition resolve1 (t : table) (p : piece) : list piece :=
  match p with
  | Chr c => [Chr c]
  | Tok k => match value_of k t with
             | Some v => chars v
             | None => [Tok k]
             end
  end.


Definition values_brace_free (t : table) : Prop :=
  Forall (fun kv => brace_free (snd kv)) t.

(** A table whose keys are tokens and whose values hold no brace. *)
Definition plain_table (t : table) : Prop :=
  Forall (fun k => In k tokens) (keys t) /\ values_brace_free t.

(** A table with every token as key and brace-free values. *)
Definition full_table (t : table) : Prop :=
  plain_table t /\ incl tokens (keys t).

(** How much of an opening pair of braces the text read so far ends
    with: nothing of it, its first brace, both braces, or both braces and
    then characters that are no braces. *)
Inductive opening : Type := NoBrace | OneBrace | TwoBraces | Within.

Definition is_open (st : opening) : bool :=
  match st with
  | TwoBraces | Within => true
  | NoBrace | OneBrace => false
  end.

Definition next (st : opening) (c : ascii) : opening :=
  if Ascii.eqb c "{" then
    match st with
    | NoBrace | Within => OneBrace
    | OneBrace | TwoBraces => TwoBraces
    end
  else if Ascii.eqb c "}" then NoBrace
  else
    match st with
    | TwoBraces | Within => Within
    | NoBrace | OneBrace => NoBrace
    end.

(** A placeholder token starts at the head of [s]. *)
Definition token_at (s : string) : bool :=
  List.existsb (fun k => Str.starts_with k s) tokens.

(** Reading [s] from the left in the state [st]: no token starts where a
    pair of braces is open. *)
Fixpoint scan (st : opening) (s : string) : bool :=
  match s with
  | EmptyString => true
  | String c s' => (negb (token_at s) || negb (is_open st)) && scan (next st c) s'
  end.

(** No placeholder token of [s] starts inside an opening pair of braces,
    that is after [{{] and characters that are no braces.  Braces that
    belong to no token are allowed anywhere else. *)
Definition unnested (s : string) : Prop := scan NoBrace s = true.

(** [ps] lists every token of its text as a token: no token starts at a
    character. *)
Fixpoint parsed (ps : list piece) : Prop :=
  match ps with
  | [] => True
  | Chr c :: ps' => token_at (String c (render ps')) = false /\ parsed ps'
  | Tok k :: ps' => In k tokens /\ parsed ps'
  end.

(** [scan] on pieces. *)
Fixpoint guarded (st : opening) (ps : list piece) : Prop :=
  match ps with
  | [] => True
  | Chr c :: ps' => guarded (next st c) ps'
  | Tok _ :: ps' => is_open st = false /\ guarded NoBrace ps'
  end.

End Subst.

(** ** The file tree *)

Module Fs.

(** What [read_text(encoding="utf-8")] finds in a file: text, or bytes
    that do not decode. *)
Inductive content : Type :=
| Text (s : string)
| Undecodable.

Record file : Type := { may_read : bool; may_write : bool; data : content }.

Inductive node : Type :=
| File (f : file)
| Dir (entries : list (string * node)).

Definition entry : Type := (string * node)%type.

(** A path is its list of components, from the root of the file system. *)
Definition path : Type := list string.

Inductive exn : Type :=
| EOFError
| FileNotFoundError
| FileExistsError
| NotADirectoryError
| IsADirectoryError
| DirectoryNotEmpty          (* OSError, ENOTEMPTY *)
| PermissionError
| UnicodeDecodeError
| SameFileError
| ShutilError (failed : list path)   (* shutil.Error: the sources not copied *)
| RecursionError
| ParserError (e : Parseaddr.perror)
| OutsideModel.              (* a rename whose target leaves the directory *)

Definition is_dir (n : node) : bool :=
  match n with Dir _ => true | File _ => false end.

Fixpoint find_entry (x : string) (es : list entry) : option node :=
  match es with
  | [] => None
  | (y, n) :: es' => if String.eqb x y then Some n else find_entry x es'
  end.

Fixpoint remove_entry (x : string) (es : list entry) : list entry :=
  match es with
  | [] => []
  | (y, n) :: es' =>
      if String.eqb x y then remove_entry x es' else (y, n) :: remove_entry x es'
  end.

(** Bind [x] to [n]: in place when [x] is listed, else as a new last
    entry. *)
Fixpoint put_entry (x : string) (n : node) (es : list entry) : list entry :=
  match es with
  | [] => [(x, n)]
  | (y, m) :: es' =>
      if String.eqb x y then (x, n) :: es' else (y, m) :: put_entry x n es'
  end.

Definition set_entry (x : string) (r : option node) (es : list entry) : list entry :=
  match r with
  | Some n => put_entry x n es
  | None => remove_entry x es
  end.

Fixpoint lookup (p : path) (n : node) : option node :=
  match p with
  | [] => Some n
  | x :: p' =>
      match n with
      | File _ => None
      | Dir es =>
          match find_entry x es with
          | Some c => lookup p' c
          | None => None
          end
      end
  end.

(** There is a directory at [q] below [o]. *)
Definition dir_at (q : path) (o : option node) : Prop :=
  match o with
  | Some n => match lookup q n with
              | Some (Dir _) => True
              | _ => False
              end
  | None => False
  end.

(** [q] lies at or below [p]. *)
Definition below (p q : path) : Prop := exists t, q = (p ++ t)%list.

(** Change what sits at [p], given what sits there now ([None]: nothing);
    the directories above [p] must exist. *)
Fixpoint alter (f : option node -> exn + option node) (p : path)
    (cur : option node) : exn + option node :=
  match p with
  | [] => f cur
  | x :: p' =>
      match cur with
      | None => inl FileNotFoundError
      | Some (File _) => inl NotADirectoryError
      | Some (Dir es) =>
          match alter f p' (find_entry x es) with
          | inl e => inl e
          | inr r => inr (Some (Dir (set_entry x r es)))
          end
      end
  end.

Definition alter_root (f : option node -> exn + option node) (p : path)
    (root : node) : exn + node :=
  match alter f p (Some root) with
  | inl e => inl e
  | inr (Some root') => inr root'
  | inr None => inl PermissionError       (* the root cannot be removed *)
  end.

(** [os.makedirs(p, exist_ok=...)] *)
Fixpoint makedirs_at (exist_ok : bool) (p : path) (cur : option node) : exn + node :=
  match p with
  | [] =>
      match cur with
      | None => inr (Dir [])
      | Some (Dir es) => if exist_ok then inr (Dir es) else inl FileExistsError
      | Some (File _) => inl FileExistsError
      end
  | x :: p' =>
      match cur with
      | None =>
          match makedirs_at exist_ok p' None with
          | inl e => inl e
          | inr c => inr (Dir [(x, c)])
          end
      | Some (File _) => inl NotADirectoryError
      | Some (Dir es) =>
          match makedirs_at exist_ok p' (find_entry x es) with
          | inl e => inl e
          | inr c => inr (Dir (put_entry x c es))
          end
      end
  end.

Definition makedirs (exist_ok : bool) (p : path) (root : node) : exn + node :=
  makedirs_at exist_ok p (Some root).

(** [shutil.rmtree(p)] *)
Definition rmtree (p : path) (root : node) : exn + node :=
  alter_root (fun cur =>
                match cur with
                | Some (Dir _) => inr None
                | Some (File _) => inl NotADirectoryError
                | None => inl FileNotFoundError
                end) p root.

(** Create or overwrite the file at [p] with a copy of [f]. *)
Definition write_file (p : path) (f : file) (root : node) : exn + node :=
  alter_root (fun cur =>
                match cur with
                | Some (Dir _) => inl IsADirectoryError
                | Some (File old) =>
                    if may_write old then inr (Some (File f)) else inl PermissionError
                | None => inr (Some (File f))
                end) p root.

(** [os.scandir(p)]: the names with their kind, in directory order. *)
Definition scandir (p : path) (root : node) : exn + list (string * bool) :=
  match lookup p root with
  | None => inl FileNotFoundError
  | Some (File _) => inl NotADirectoryError
  | Some (Dir es) => inr (List.map (fun e => (fst e, is_dir (snd e))) es)
  end.

(** [Path.read_text(encoding="utf-8")] and [Path.write_text] on a file.
    The one write failure of the model is the refusal of [open(..., "w")],
    which is raised before the file is truncated, so that file keeps its
    content.  A failure raised once the file is open (a text that cannot
    be encoded, which the strings of the model never are; a full device)
    finds the file already emptied: such failures are outside the model,
    and no statement below says what a file holds after a failed write. *)
Definition read_text (f : file) : exn + string :=
  if may_read f then
    match data f with
    | Text s => inr s
    | Undecodable => inl UnicodeDecodeError
    end
  else inl PermissionError.

Definition write_text (f : file) (s : string) : exn + file :=
  if may_write f
  then inr {| may_read := may_read f; may_write := true; data := Text s |}
  else inl PermissionError.

(** [Path.suffix] of a final component: from its last dot, when that dot
    is neither the first nor the last character. *)
Fixpoint rfind_dot (s : string) (i : nat) : option nat :=
  match s with
  | EmptyString => None
  | String c s' =>
      match rfind_dot s' (S i) with
      | Some j => Some j
      | None => if Ascii.eqb c "." then Some i else None
      end
  end.

Definition suffix (name : string) : string :=
  match rfind_dot name 0 with
  | Some i =>
      if (0 <? i) && (i <? String.length name - 1)
      then String.substring i (String.length name - i) name
      else ""
  | None => ""
  end.

(** Renaming inside one directory, [old_path.rename(root_path / new)],
    with POSIX [rename(2)]: an existing file is replaced by a file, an
    empty directory by a directory.  [root_path / ""] and [root_path / "."]
    are [root_path] itself, a directory that is not empty; a [new] with a
    separator, or [".."], names a place outside this directory.  The
    model does not follow such a move: it stops with [OutsideModel], and
    says nothing of what the script writes then.  Statements about what
    a run leaves or where it writes are about the other runs. *)
Definition rename_entry (old new : string) (es : list entry) : exn + list entry :=
  match find_entry old es with
  | None => inl FileNotFoundError
  | Some src =>
      if String.eqb new "" || String.eqb new "." then
        inl (if is_dir src then DirectoryNotEmpty else IsADirectoryError)
      else if Str.has_char "/" new || String.eqb new ".." then inl OutsideModel
      else
        match find_entry new es, src with
        | None, _ => inr (List.map (fun e => if String.eqb (fst e) old then (new, snd e) else e) es)
        | Some (File _), File _
        | Some (Dir []), Dir _ =>
            inr (List.map (fun e => if String.eqb (fst e) old then (new, snd e) else e)
                   (remove_entry new es))
        | Some (Dir _), File _ => inl IsADirectoryError
        | Some (File _), Dir _ => inl NotADirectoryError
        | Some (Dir (_ :: _)), Dir _ => inl DirectoryNotEmpty
        end
  end.

End Fs.

(** ** Path Renamer and Content Substituter on a tree *)

Module Walk.

Import Fs Subst.

(** What the script prints.  The texts are in the source; the values that
    vary are kept. *)
Inductive message : Type :=
| MsgBanner
| MsgNameRequired
| MsgNameInvalid
| MsgEmailInvalid
| MsgSummary (project_name module_name main_class description author email github : string)
| MsgCancelled
| MsgCurrentDirectory
| MsgInPlaceDeclined
| MsgNotEmpty (target_dir : path)
| MsgCopying (target_dir : path)
| MsgUsingCurrent
| MsgRenaming
| MsgReplacing
| MsgWarning (file_path : path) (e : exn)   (* Warning: Could not process ... *)
| MsgCreated (project_name : string)
| MsgLocation (target_dir : path).

(** The [files] and [dirs] lists of [os.walk] for one directory. *)
Definition file_names (es : list entry) : list string :=
  List.map fst (List.filter (fun e => negb (is_dir (snd e))) es).

Definition dir_names (es : list entry) : list string :=
  List.map fst (List.filter (fun e => is_dir (snd e)) es).

(** One of the two inner loops of [rename_paths] (lines 54-62, 65-73):
    the entries after the loop, and the exception that stopped it. *)
Fixpoint rename_names (replacements : table) (names : list string)
    (es : list entry) : list entry * option exn :=
  match names with
  | [] => (es, None)
  | name :: names' =>
      let new_name := apply_all replacements name in
      if String.eqb new_name name then rename_names replacements names' es
      else
        match rename_entry name new_name es with
        | inl e => (es, Some e)
        | inr es' => rename_names replacements names' es'
        end
  end.

(** [rename_paths] below one directory, [os.walk(..., topdown=False)]:
    the listing of a directory is taken first, its subdirectories are
    walked, then its files and its subdirectories are renamed. *)
Fixpoint rename_walk (replacements : table) (n : node) : node * option exn :=
  match n with
  | File f => (File f, None)
  | Dir es =>
      let fix children (l : list entry) : list entry * option exn :=
        match l with
        | [] => ([], None)
        | (name, c) :: l' =>
            match c with
            | File _ =>
                let (l'', e) := children l' in ((name, c) :: l'', e)
            | Dir _ =>
                match rename_walk replacements c with
                | (c', Some e) => ((name, c') :: l', Some e)
                | (c', None) =>
                    let (l'', e) := children l' in ((name, c') :: l'', e)
                end
            end
        end in
      match children es with
      | (es1, Some e) => (Dir es1, Some e)
      | (es1, None) =>
          match rename_names replacements (file_names es) es1 with
          | (es2, Some e) => (Dir es2, Some e)
          | (es2, None) =>
              let (es3, e) := rename_names replacements (dir_names es) es2 in
              (Dir es3, e)
          end
      end
  end.

(** The extensions whose files are rewritten (line 231). *)
Definition allow_list : list string :=
  [".py"; ".md"; ".txt"; ".toml"; ".yml"; ".yaml"].

Definition allowed (name : string) : bool :=
  List.existsb (String.eqb (suffix name)) allow_list.

(** [replace_in_file] (lines 37-45): the [try] body reads, substitutes
    and writes; [except Exception] turns a failure into a warning. *)
Definition replace_in_file (replacements : table) (file_path : path) (f : file)
    : file * list message :=
  match
    match read_text f with
    | inl e => inl e
    | inr content => write_text f (apply_all replacements content)
    end
  with
  | inr f' => (f', [])
  | inl e => (f, [MsgWarning file_path e])
  end.

(** The files of one directory, in listing order (lines 229-232). *)
Fixpoint substitute_files (replacements : table) (root : path)
    (es : list entry) : list entry * list message :=
  match es with
  | [] => ([], [])
  | (name, File f) :: es' =>
      let (es'', log) := substitute_files replacements root es' in
      if allowed name then
        let (f', w) := replace_in_file replacements (root ++ [name])%list f in
        ((name, File f') :: es'', (w ++ log)%list)
      else ((name, File f) :: es'', log)
  | (name, Dir d) :: es' =>
      let (es'', log) := substitute_files replacements root es' in
      ((name, Dir d) :: es'', log)
  end.

(** The walk of lines 228-232, [os.walk] top-down: the files of a
    directory first, then each subdirectory.  The two passes touch
    different entries; the log keeps the order of the walk. *)
Fixpoint substitute_walk (replacements : table) (root : path) (n : node)
    : node * list message :=
  match n with
  | File f => (File f, [])
  | Dir es =>
      let fix subdirs (l : list entry) : list entry * list message :=
        match l with
        | [] => ([], [])
        | (name, c) :: l' =>
            match c with
            | File _ =>
                let (l'', log) := subdirs l' in ((name, c) :: l'', log)
            | Dir _ =>
                let (c', log) :=
                  substitute_walk replacements (root ++ [name])%list c in
                let (l'', log') := subdirs l' in
                ((name, c') :: l'', (log ++ log')%list)
            end
        end in
      let (es1, log_dirs) := subdirs es in
      let (es2, log_files) := substitute_files replacements root es1 in
      (Dir es2, (log_files ++ log_dirs)%list)
  end.

(** The inner loops of the two walks, by name. *)
Definition rename_children (replacements : table)
    : list entry -> list entry * option exn :=
  fix children (l : list entry) : list entry * option exn :=
    match l with
    | [] => ([], None)
    | (name, c) :: l' =>
        match c with
        | File _ =>
            let (l'', e) := children l' in ((name, c) :: l'', e)
        | Dir _ =>
            match rename_walk replacements c with
            | (c', Some e) => ((name, c') :: l', Some e)
            | (c', None) =>
                let (l'', e) := children l' in ((name, c') :: l'', e)
            end
        end
    end.

Definition walk_subdirs (replacements : table) (root : path)
    : list entry -> list entry * list message :=
  fix subdirs (l : list entry) : list entry * list message :=
    match l with
    | [] => ([], [])
    | (name, c) :: l' =>
        match c with
        | File _ =>
            let (l'', log) := subdirs l' in ((name, c) :: l'', log)
        | Dir _ =>
            let (c', log) :=
              substitute_walk replacements (root ++ [name])%list c in
            let (l'', log') := subdirs l' in
            ((name, c') :: l'', (log ++ log')%list)
        end
    end.

(** Every entry below a directory, at any depth, satisfies [R] with its
    name; the directory's own name is not one of them. *)
Fixpoint entries_below (R : string -> node -> Prop) (n : node) : Prop :=
  match n with
  | File _ => True
  | Dir es =>
      (fix all (l : list entry) : Prop :=
         match l with
         | [] => True
         | (name, c) :: l' => R name c /\ entries_below R c /\ all l'
         end) es
  end.

(** Every name below a directory satisfies [P]. *)
Definition names_below (P : string -> Prop) : node -> Prop :=
  entries_below (fun name _ => P name).

(** Every file below a directory, with its name, satisfies [Q]. *)
Definition files_below (Q : string -> file -> Prop) : node -> Prop :=
  entries_below (fun name c => match c with
                               | File f => Q name f
                               | Dir _ => True
                               end).

(** The text of a file, when it has one, satisfies [P]. *)
Definition text_is (P : string -> Prop) (f : file) : Prop :=
  forall s, data f = Text s -> P s.

(** During the renaming loops of one directory, with [P] what is known
    of a name before its renaming and [D] what is known of it after: [G]
    holds of an entry under the name it will end up with, and the entry
    is either done (its name satisfies [D]) or still has its turn among
    the names [todo]. *)
Definition pending (P D : string -> Prop) (t : table) (G : string -> node -> Prop)
    (todo : list string) (e : entry) : Prop :=
  G (apply_all t (fst e)) (snd e)
  /\ (D (fst e) \/ (P (fst e) /\ In (fst e) todo)).

(** Before the renaming: names with [P], and [Q] of every file under its
    final name.  After it: names with [D], and [Q] of every file. *)
Definition before_rename (P : string -> Prop) (t : table) (Q : string -> file -> Prop)
    (name : string) (c : node) : Prop :=
  P name /\ match c with
            | File f => Q (apply_all t name) f
            | Dir _ => True
            end.

Definition after_rename (D : string -> Prop) (Q : string -> file -> Prop)
    (name : string) (c : node) : Prop :=
  D name /\ match c with
            | File f => Q name f
            | Dir _ => True
            end.

(** An allow-listed file holds template text. *)
Definition template_text (name : string) (f : file) : Prop :=
  allowed name = true -> text_is templated f.

(** An allow-listed file that can be read and written holds no token. *)
Definition token_free_text (name : string) (f : file) : Prop :=
  allowed name = true -> may_read f = true -> may_write f = true ->
  text_is token_free f.

(** In an allow-listed file no token starts inside an open pair of
    braces. *)
Definition unnested_text (name : string) (f : file) : Prop :=
  allowed name = true -> text_is unnested f.

(** Before the substitution, and after it. *)
Definition ready (name : string) (c : node) : Prop :=
  after_rename token_free unnested_text name c.

Definition clean (name : string) (c : node) : Prop :=
  token_free name /\ match c with
                     | File f => token_free_text name f
                     | Dir _ => True
                     end.

(** Between the two passes over a directory: its subdirectories are
    done, its files are still to be rewritten. *)
Definition half_done (e : entry) : Prop :=
  token_free (fst e)
  /\ match snd e with
     | File f => unnested_text (fst e) f
     | Dir _ => entries_below clean (snd e)
     end.

End Walk.

(** ** The run: prompts, target checks and materialization *)

Module Setup.

Import Fs Subst Walk.

(** The state of a run: the file tree, the lines still to be read from
    standard input, and what has been printed. *)
Record world : Type := { fs : node; stdin : list string; stdout : list message }.

Inductive outcome (A : Type) : Type :=
| Ok (a : A) (w : world)          (* control goes on *)
| Exit (code : nat) (w : world)   (* sys.exit(code) *)
| Raise (e : exn) (w : world).    (* an exception nobody caught *)

Arguments Ok {A} a w.
Arguments Exit {A} code w.
Arguments Raise {A} e w.

Definition M (A : Type) : Type := world -> outcome A.

(** The state in which a run ended, however it ended. *)
Definition final {A} (o : outcome A) : world :=
  match o with
  | Ok _ w => w
  | Exit _ w => w
  | Raise _ w => w
  end.

Definition ret {A} (a : A) : M A := fun w => Ok a w.

Definition bind {A B} (m : M A) (k : A -> M B) : M B :=
  fun w => match m w with
           | Ok a w' => k a w'
           | Exit code w' => Exit code w'
           | Raise e w' => Raise e w'
           end.

Declare Scope run_scope.
Delimit Scope run_scope with run.
Notation "x <- m ;; k" := (bind m (fun x => k))
  (at level 61, m at next level, right associativity) : run_scope.
Notation "m ;; k" := (bind m (fun _ => k))
  (at level 61, right associativity) : run_scope.
Local Open Scope run_scope.

Definition sys_exit {A} (code : nat) : M A := fun w => Exit code w.
Definition raise {A} (e : exn) : M A := fun w => Raise e w.

(** [try: m except Exception as e: handler e]; [SystemExit] is not an
    [Exception]. *)
Definition try_except {A} (m : M A) (handler : exn -> M A) : M A :=
  fun w => match m w with
           | Raise e w' => handler e w'
           | o => o
           end.

Definition print (m : message) : M unit :=
  fun w => Ok tt {| fs := fs w; stdin := stdin w; stdout := (stdout w ++ [m])%list |}.

Definition print_all (ms : list message) : M unit :=
  fun w => Ok tt {| fs := fs w; stdin := stdin w; stdout := (stdout w ++ ms)%list |}.

(** [input(prompt)]: the next line, [EOFError] at end of input. *)
Definition input : M string :=
  fun w => match stdin w with
           | [] => Raise EOFError w
           | l :: rest => Ok l {| fs := fs w; stdin := rest; stdout := stdout w |}
           end.

Definition get_fs : M node := fun w => Ok (fs w) w.

Definition set_fs (n : node) : M unit :=
  fun w => Ok tt {| fs := n; stdin := stdin w; stdout := stdout w |}.

(** Directories are only ever added by [c]: one that exists before
    exists after, however [c] ends. *)
Definition keeps_dirs {A} (c : M A) : Prop :=
  forall w q, dir_at q (Some (fs w)) -> dir_at q (Some (fs (final (c w)))).

(** A computation that leaves the file tree as it found it. *)
Definition keeps_fs {A} (c : M A) : Prop := forall w, fs (final (c w)) = fs w.

(** A file-system call that either changes the tree or raises. *)
Definition fs_call (op : node -> exn + node) : M unit :=
  fun w => match op (fs w) with
           | inr n => Ok tt {| fs := n; stdin := stdin w; stdout := stdout w |}
           | inl e => Raise e w
           end.

(** [p.exists()] *)
Definition exists_ (p : path) : M bool :=
  fun w => Ok (match lookup p (fs w) with Some _ => true | None => false end) w.

(** ** Paths *)

(** [base / s], resolved without symbolic links: an absolute [s] replaces
    [base]; empty and [.] components vanish; [..] steps up. *)
Definition step (acc : path) (c : string) : path :=
  if String.eqb c "" || String.eqb c "." then acc
  else if String.eqb c ".." then List.removelast acc
  else (acc ++ [c])%list.

Definition join_from (base : path) (s : string) : path :=
  match s with
  | String "/" _ => []
  | _ => base
  end.

Definition join (base : path) (s : string) : path :=
  List.fold_left step (Str.split "/" s) (join_from base s).

(** The parts of [Path(s)]: empty and [.] components vanish when the path
    is built; [..] stays, and it is the operating system that follows it. *)
Definition parts (s : string) : list string :=
  List.filter (fun c => negb (String.eqb c "" || String.eqb c "."))
    (Str.split "/" s).

(** The walk of the operating system along the parts of a path, from the
    directory [cur]: each part is looked up in a directory that has to
    exist, [..] leads to its parent.  The place the walk ends at need not
    exist.  There are no symbolic links. *)
Fixpoint os_walk (root : node) (cur : path) (cs : list string) : exn + path :=
  match cs with
  | [] => inr cur
  | c :: cs' =>
      match lookup cur root with
      | Some (Dir _) => os_walk root (step cur c) cs'
      | Some (File _) => inl NotADirectoryError
      | None => inl FileNotFoundError
      end
  end.

(** [os.stat] of the path with the parts [cs], taken from [start]. *)
Definition os_stat (root : node) (start : path) (cs : list string) : exn + node :=
  match os_walk root start cs with
  | inl e => inl e
  | inr p =>
      match lookup p root with
      | Some n => inr n
      | None => inl FileNotFoundError
      end
  end.

(** [p.is_dir()] *)
Definition os_is_dir (root : node) (start : path) (cs : list string) : bool :=
  match os_stat root start cs with
  | inr (Dir _) => true
  | _ => false
  end.

(** [os.mkdir] of the path whose parts, last one first, are [rcs]: the
    parent has to be a directory the walk reaches, and the last part must
    not be there yet; [.], [/] and a path that ends in [..] exist. *)
Definition os_mkdir (root : node) (start : path) (rcs : list string) : exn + node :=
  match rcs with
  | [] =>
      inl (match lookup start root with
           | Some _ => FileExistsError
           | None => FileNotFoundError
           end)
  | c :: rparent =>
      match os_walk root start (List.rev rparent) with
      | inl e => inl e
      | inr p =>
          match lookup p root with
          | None => inl FileNotFoundError
          | Some (File _) => inl NotADirectoryError
          | Some (Dir es) =>
              if String.eqb c ".." then inl FileExistsError
              else
                match find_entry c es with
                | Some _ => inl FileExistsError
                | None =>
                    alter_root (fun _ => inr (Some (Dir []))) (p ++ [c])%list root
                end
          end
      end
  end.

(** [Path.mkdir(parents=True, exist_ok=...)] on the path whose parts, last
    one first, are [rcs]: [os.mkdir]; when a parent is missing, the parent
    is made in the same way with [exist_ok=True] and [os.mkdir] is tried
    once more; any other error is passed on, unless [exist_ok] is set and
    the path is a directory.  The result is the tree as the call leaves
    it, with the exception it raises, if any: the parents made before a
    failure stay. *)
Fixpoint mkdir_parents (exist_ok : bool) (root : node) (start : path)
    (rcs : list string) : node * option exn :=
  match os_mkdir root start rcs with
  | inr root' => (root', None)
  | inl FileNotFoundError =>
      match rcs with
      | [] => (root, Some FileNotFoundError)   (* the path is its own parent *)
      | _ :: rparent =>
          match mkdir_parents true root start rparent with
          | (root1, Some e) => (root1, Some e)
          | (root1, None) =>
              match os_mkdir root1 start rcs with
              | inr root2 => (root2, None)
              | inl FileNotFoundError => (root1, Some FileNotFoundError)
              | inl e =>
                  if exist_ok && os_is_dir root1 start (List.rev rcs)
                  then (root1, None) else (root1, Some e)
              end
          end
      end
  | inl e =>
      if exist_ok && os_is_dir root start (List.rev rcs)
      then (root, None) else (root, Some e)
  end.

(** ** Input Collector (lines 80-128) *)

Record metadata : Type := {
  project_name : string;
  module_name : string;
  project_description : string;
  author_name : string;
  author_email : string;
  github_username : string;
  main_class : string
}.

(** The dictionary literal of lines 136-144. *)
Definition replacements_of (m : metadata) : table :=
  [ ("{{PROJECT_NAME}}", project_name m);
    ("{{MODULE_NAME}}", module_name m);
    ("{{PROJECT_DESCRIPTION}}", project_description m);
    ("{{AUTHOR_NAME}}", author_name m);
    ("{{AUTHOR_EMAIL}}", author_email m);
    ("{{GITHUB_USERNAME}}", github_username m);
    ("{{MAIN_CLASS}}", main_class m) ].

(** The loop of lines 80-99 over the lines that remain: what it prints,
    and the accepted name with the lines left, or [None] when the input
    ends first. *)
Fixpoint project_name_loop (lines : list string)
    : list message * option (string * list string) :=
  match lines with
  | [] => ([], None)
  | l :: rest =>
      let project_name := Str.strip l in
      if String.eqb project_name "" then
        let (log, r) := project_name_loop rest in (MsgNameRequired :: log, r)
      else if negb (Ident.valid_project_name project_name) then
        let (log, r) := project_name_loop rest in (MsgNameInvalid :: log, r)
      else ([], Some (project_name, rest))
  end.

Definition ask_project_name : M string :=
  fun w =>
    let (log, r) := project_name_loop (stdin w) in
    match r with
    | Some (name, rest) =>
        Ok name {| fs := fs w; stdin := rest; stdout := (stdout w ++ log)%list |}
    | None =>
        Raise EOFError {| fs := fs w; stdin := []; stdout := (stdout w ++ log)%list |}
    end.

(** An answer, or a default when the answer is blank (lines 105-111,
    126-128). *)
Definition ask_or_default (default : string) : M string :=
  l <- input ;;
  let answer := Str.strip l in
  ret (if String.eqb answer "" then default else answer).

Section EmailLoop.

(** The validity check the loop calls, [is_valid_email]. *)
Variable is_valid_email : string -> bool + Parseaddr.perror.

Inductive email_stop : Type :=
| EmailEOF
| EmailRaised (e : Parseaddr.perror) (rest : list string)
| EmailAccepted (author_email : string) (rest : list string).

(** The loop of lines 114-124. *)
Fixpoint author_email_loop (lines : list string) : list message * email_stop :=
  match lines with
  | [] => ([], EmailEOF)
  | l :: rest =>
      let author_email := Str.strip l in
      if String.eqb author_email "" then
        ([], EmailAccepted "your.email@example.com" rest)
      else
        match is_valid_email author_email with
        | inr e => ([], EmailRaised e rest)
        | inl true => ([], EmailAccepted author_email rest)
        | inl false =>
            let (log, r) := author_email_loop rest in (MsgEmailInvalid :: log, r)
        end
  end.

Definition ask_author_email : M string :=
  fun w =>
    let (log, r) := author_email_loop (stdin w) in
    match r with
    | EmailAccepted e rest =>
        Ok e {| fs := fs w; stdin := rest; stdout := (stdout w ++ log)%list |}
    | EmailEOF =>
        Raise EOFError {| fs := fs w; stdin := []; stdout := (stdout w ++ log)%list |}
    | EmailRaised e rest =>
        Raise (ParserError e)
          {| fs := fs w; stdin := rest; stdout := (stdout w ++ log)%list |}
    end.

(** Lines 80-133: the answers, the derived identifiers. *)
Definition collect_metadata : M metadata :=
  project_name <- ask_project_name ;;
  let module_name := Ident.module_name_of project_name in
  project_description <- ask_or_default ("A Python project: " ++ project_name) ;;
  author_name <- ask_or_default "Your Name" ;;
  author_email <- ask_author_email ;;
  github_username <- ask_or_default "yourusername" ;;
  let main_class := Ident.main_class_of module_name in
  ret {| project_name := project_name;
         module_name := module_name;
         project_description := project_description;
         author_name := author_name;
         author_email := author_email;
         github_username := github_username;
         main_class := main_class |}.

End EmailLoop.

(** ** Tree Materializer *)

(** [shutil.ignore_patterns("setup_project.py", ".git", "__pycache__")] *)
Definition ignore_patterns (name : string) : bool :=
  String.eqb name "setup_project.py" || String.eqb name ".git"
  || String.eqb name "__pycache__".

Definition ignore_nothing (name : string) : bool := false.

Definition path_eqb (p q : path) : bool :=
  if List.list_eq_dec String.string_dec p q then true else false.

(** [shutil.copy2(src, dst)]: into [dst] when [dst] is a directory. *)
Definition copy2 (src dst : path) : M unit :=
  root <- get_fs ;;
  let dst' := match lookup dst root with
              | Some (Dir _) => (dst ++ [List.last src ""])%list
              | _ => dst
              end in
  match lookup src root with
  | None => raise FileNotFoundError
  | Some (Dir _) => raise IsADirectoryError
  | Some (File f) =>
      if path_eqb src dst' then raise SameFileError
      else if may_read f then fs_call (write_file dst' f)
      else raise PermissionError
  end.

(** [shutil.copytree(src, dst, dirs_exist_ok=..., ignore=...)]: the
    listing of [src] is taken first, then [dst] is made, then the entries
    are copied one by one; a failure on an entry is noted and the copy goes
    on, and [shutil.Error] is raised at the end if anything was noted.
    [depth] is the interpreter's recursion limit. *)
Fixpoint copytree (depth : nat) (ignore : string -> bool) (dirs_exist_ok : bool)
    (src dst : path) : M unit :=
  match depth with
  | 0 => raise RecursionError
  | S depth' =>
      root <- get_fs ;;
      match scandir src root with
      | inl e => raise e
      | inr entries =>
          fs_call (makedirs dirs_exist_ok dst) ;;
          errors <-
            (fix each (l : list (string * bool)) (errors : list path) : M (list path) :=
               match l with
               | [] => ret errors
               | (name, isdir) :: l' =>
                   if ignore name then each l' errors
                   else
                     let srcname := (src ++ [name])%list in
                     let dstname := (dst ++ [name])%list in
                     noted <-
                       try_except
                         ((if isdir
                           then copytree depth' ignore dirs_exist_ok srcname dstname
                           else copy2 srcname dstname) ;; ret [])
                         (fun e =>
                            match e with
                            | ShutilError failed => ret failed
                            | RecursionError => raise RecursionError
                            | _ => ret [srcname]
                            end) ;;
                     each l' (errors ++ noted)%list
               end) entries [] ;;
          match errors with
          | [] => ret tt
          | _ => raise (ShutilError errors)
          end
      end
  end.

(** The loop over the entries in [copytree], by name. *)
Definition copy_entries (depth' : nat) (ignore : string -> bool)
    (dirs_exist_ok : bool) (src dst : path)
    : list (string * bool) -> list path -> M (list path) :=
  fix each (l : list (string * bool)) (errors : list path) : M (list path) :=
    match l with
    | [] => ret errors
    | (name, isdir) :: l' =>
        if ignore name then each l' errors
        else
          let srcname := (src ++ [name])%list in
          let dstname := (dst ++ [name])%list in
          noted <-
            try_except
              ((if isdir
                then copytree depth' ignore dirs_exist_ok srcname dstname
                else copy2 srcname dstname) ;; ret [])
              (fun e =>
                 match e with
                 | ShutilError failed => ret failed
                 | RecursionError => raise RecursionError
                 | _ => ret [srcname]
                 end) ;;
          each l' (errors ++ noted)%list
    end.

Definition recursion_limit : nat := 1000.

Section Run.

(** The working directory and the directory of the script,
    [Path(__file__).parent]. *)
Variable cwd : path.
Variable template_dir : path.
Variable parseaddr : string -> (string * string) + Parseaddr.perror.

(** [fix_src_layout] (lines 147-157) *)
Definition fix_src_layout (target_dir : path) (module_name : string) : M unit :=
  let src_dir := join target_dir "src" in
  let template_src := join (join template_dir "src") "{{MODULE_NAME}}" in
  let new_module_dir := join src_dir module_name in
  ex <- exists_ new_module_dir ;;
  if negb ex then
    fs_call (makedirs true (List.removelast new_module_dir)) ;;
    copytree recursion_limit ignore_nothing false template_src new_module_dir ;;
    let old_template_dir := join src_dir "{{MODULE_NAME}}" in
    ex_old <- exists_ old_template_dir ;;
    if ex_old then fs_call (rmtree old_template_dir) else ret tt
  else ret tt.

(** [rename_paths(base_path, replacements)] (lines 48-73); [os.walk]
    yields nothing for a [base_path] that is not a directory. *)
Definition rename_paths (base_path : path) (replacements : table) : M unit :=
  root <- get_fs ;;
  match lookup base_path root with
  | Some (Dir es) =>
      let (n', err) := rename_walk replacements (Dir es) in
      match alter_root (fun _ => inr (Some n')) base_path root with
      | inr root' =>
          set_fs root' ;;
          match err with
          | Some e => raise e
          | None => ret tt
          end
      | inl e => raise e
      end
  | _ => ret tt
  end.

(** The loop of lines 228-232. *)
Definition substitute_contents (target_dir : path) (replacements : table) : M unit :=
  root <- get_fs ;;
  match lookup target_dir root with
  | Some (Dir es) =>
      let (n', log) := substitute_walk replacements target_dir (Dir es) in
      match alter_root (fun _ => inr (Some n')) target_dir root with
      | inr root' => set_fs root' ;; print_all log
      | inl _ => print_all log
      end
  | _ => ret tt
  end.

(** [confirm in ["y", "yes"]] for the answer read at line 168. *)
Definition confirmed (l : string) : bool :=
  let confirm := Str.lower (Str.strip l) in
  String.eqb confirm "y" || String.eqb confirm "yes".

(** The target directory of lines 175-181, for the answer read, as
    [target_dir.resolve()] gives it: without symbolic links [resolve]
    removes [..] together with the part before it, whether that part
    exists or not. *)
Definition target_dir_of (m : metadata) (l : string) : path :=
  let target_dir_input := Str.strip l in
  if String.eqb target_dir_input ""
  then join cwd ("./" ++ project_name m)
  else join cwd target_dir_input.

(** The same path as the script keeps it and hands it to the operating
    system: the text given to [Path]. *)
Definition target_path_of (m : metadata) (l : string) : string :=
  let target_dir_input := Str.strip l in
  if String.eqb target_dir_input ""
  then "./" ++ project_name m
  else target_dir_input.

(** What [target_dir.stat()] finds. *)
Definition target_node (m : metadata) (l : string) (root : node) : exn + node :=
  os_stat root (join_from cwd (target_path_of m l)) (parts (target_path_of m l)).

(** [target_dir.mkdir(parents=True)]: the tree it leaves, and the
    exception it raises, if any. *)
Definition make_target (m : metadata) (l : string) (root : node)
    : node * option exn :=
  mkdir_parents false root (join_from cwd (target_path_of m l))
    (List.rev (parts (target_path_of m l))).

(** Lines 168-204: confirmation, target directory, the two guards.  The
    comparison of line 183 is made on resolved paths; [exists], [iterdir]
    and [mkdir] get the path as it was typed.  Once the guards are passed
    every part of that path exists and none of them lies below the target,
    so from then on the calls reach the directory [target_dir_of] names,
    and the run goes on with it. *)
Definition resolve_target (m : metadata) : M path :=
  l <- input ;;
  if negb (confirmed l) then
    print MsgCancelled ;; sys_exit 0
  else
    l <- input ;;
    let target_dir := target_dir_of m l in
    (if path_eqb target_dir cwd then
       print MsgCurrentDirectory ;;
       l' <- input ;;
       let confirm_current := Str.lower (Str.strip l') in
       if negb (String.eqb confirm_current "yes") then
         print MsgInPlaceDeclined ;; sys_exit 1
       else ret tt
     else ret tt) ;;
    root <- get_fs ;;
    match target_node m l root with
    | inr (File _) => raise NotADirectoryError       (* target_dir.iterdir() *)
    | inr (Dir (_ :: _)) => print (MsgNotEmpty target_dir) ;; sys_exit 1
    | inr (Dir []) => ret target_dir
    | inl _ =>
        let (root', err) := make_target m l root in
        set_fs root' ;;
        match err with
        | Some e => raise e
        | None => ret target_dir
        end
    end.

(** Lines 206-234: copy or in-place, module directory, renaming,
    substitution. *)
Definition materialize (m : metadata) (target_dir : path) : M unit :=
  let replacements := replacements_of m in
  (if negb (path_eqb target_dir template_dir) then
     print (MsgCopying target_dir) ;;
     copytree recursion_limit ignore_patterns true template_dir target_dir
   else print MsgUsingCurrent) ;;
  fix_src_layout target_dir (module_name m) ;;
  print MsgRenaming ;;
  rename_paths target_dir replacements ;;
  print MsgReplacing ;;
  substitute_contents target_dir replacements ;;
  print (MsgCreated (project_name m)) ;;
  print (MsgLocation target_dir).

(** [setup_project], up to the offer to create a virtual environment. *)
Definition setup_project : M unit :=
  print MsgBanner ;;
  m <- collect_metadata (Email.is_valid_email parseaddr) ;;
  print (MsgSummary (project_name m) (module_name m) (main_class m)
           (project_description m) (author_name m) (author_email m)
           (github_username m)) ;;
  target_dir <- resolve_target m ;;
  materialize m target_dir.

End Run.

End Setup.

(** ** The script with the standard library's parser, and sample runs *)

(** [is_valid_email] as the script runs it. *)
Definition check_email : string -> bool + Parseaddr.perror :=
  Email.is_valid_email EmailUtils.parseaddr.

Module Samples.

Import Fs Setup.

Definition text_file (s : string) : node :=
  File {| may_read := true; may_write := true; data := Text s |}.

(** A template checkout: the script, a text file, the version-control
    directory and the placeholder module directory. *)
Definition template_tree : node :=
  Dir [ ("setup_project.py", text_file "#!/usr/bin/env python3");
        ("README.md", text_file "# {{PROJECT_NAME}} by {{AUTHOR_NAME}}");
        ("LICENSE", text_file "Copyright {{AUTHOR_NAME}}");
        (".git", Dir [("HEAD", text_file "ref: refs/heads/main")]);
        ("src",
         Dir [("{{MODULE_NAME}}",
               Dir [("__init__.py",
                     text_file "# {{PROJECT_NAME}} - {{PROJECT_DESCRIPTION}}");
                    ("{{MODULE_NAME}}_config.py",
                     text_file "name = '{{MODULE_NAME}}'")])]) ].

(** The checkout sits at [/work/tpl]; [/work/full] holds one file. *)
Definition disk : node :=
  Dir [("work", Dir [("tpl", template_tree);
                     ("full", Dir [("notes.txt", text_file "keep me")])])].

Definition work : path := ["work"].
Definition tpl : path := ["work"; "tpl"].

Definition start (lines : list string) : world :=
  {| fs := disk; stdin := lines; stdout := [] |}.

(** Project "demo-app", every other answer left blank, the summary
    confirmed. *)
Definition answers (target : list string) : list string :=
  (["demo-app"; ""; ""; ""; ""; "y"] ++ target)%list.

(** A description that is itself a placeholder token. *)
Definition answers_token_description : list string :=
  ["demo-app"; "{{PROJECT_NAME}}"; ""; ""; ""].

(** The same answers with a display-name address as e-mail. *)
Definition display_name_address : string := "Name <user@example.com>".

Definition answers_display_name : list string :=
  ["demo-app"; ""; ""; display_name_address; ""].


Definition binary_file : file :=
  {| may_read := true; may_write := true; data := Undecodable |}.




(** A small template: a placeholder directory, a placeholder file name,
    token-bearing text, and a file that is not text. *)
Definition small_template : node :=
  Dir [ ("README.md", text_file "# {{PROJECT_NAME}}");
        ("{{MODULE_NAME}}",
         Dir [ ("{{MODULE_NAME}}_config.py", text_file "name = '{{MODULE_NAME}}'");
               ("logo.png", File binary_file) ]) ].

Definition small_renamed : node :=
  Dir [ ("README.md", text_file "# {{PROJECT_NAME}}");
        ("demo_app",
         Dir [ ("demo_app_config.py", text_file "name = '{{MODULE_NAME}}'");
               ("logo.png", File binary_file) ]) ].

Definition small_project : node :=
  Dir [ ("README.md", text_file "# demo-app");
        ("demo_app",
         Dir [ ("demo_app_config.py", text_file "name = 'demo_app'");
               ("logo.png", File binary_file) ]) ].

Definition demo_metadata : metadata :=
  {| project_name := "demo-app";
     module_name := "demo_app";
     project_description := "A Python project: demo-app";
     author_name := "Your Name";
     author_email := "your.email@example.com";
     github_username := "yourusername";
     main_class := "DemoApp" |}.

(** A template with braces of its own, beside the tokens. *)
Definition braced_template : node :=
  Dir [ ("README.md",
         text_file "# {{PROJECT_NAME}} by {{AUTHOR_NAME}}: {{ see }} {notes}");
        ("{drafts}", Dir []);
        ("{{MODULE_NAME}}",
         Dir [ ("{{MODULE_NAME}}_config.py",
                text_file "d = {} # {{{MAIN_CLASS}}}, f'{x}' {{MODULE_NAME}}");
               ("logo.png", File binary_file) ]) ].

Definition braced_renamed : node :=
  Dir [ ("README.md",
         text_file "# {{PROJECT_NAME}} by {{AUTHOR_NAME}}: {{ see }} {notes}");
        ("{drafts}", Dir []);
        ("demo_app",
         Dir [ ("demo_app_config.py",
                text_file "d = {} # {{{MAIN_CLASS}}}, f'{x}' {{MODULE_NAME}}");
               ("logo.png", File binary_file) ]) ].

Definition braced_project : node :=
  Dir [ ("README.md", text_file "# demo-app by Your Name: {{ see }} {notes}");
        ("{drafts}", Dir []);
        ("demo_app",
         Dir [ ("demo_app_config.py", text_file "d = {} # {DemoApp}, f'{x}' demo_app");
               ("logo.png", File binary_file) ]) ].

Definition demo_table : Subst.table :=
  [ ("{{PROJECT_NAME}}", "demo-app");
    ("{{MODULE_NAME}}", "demo_app");
    ("{{PROJECT_DESCRIPTION}}", "A Python project: demo-app");
    ("{{AUTHOR_NAME}}", "Your Name");
    ("{{AUTHOR_EMAIL}}", "your.email@example.com");
    ("{{GITHUB_USERNAME}}", "yourusername");
    ("{{MAIN_CLASS}}", "DemoApp") ].

End Samples.

(** ** What the two anchored patterns accept *)

Module Accept.

Import Chars Re.

(** The language of a regular expression. *)
Inductive lang : regex -> string -> Prop :=
| lang_eps : lang Eps ""
| lang_class p c : p c = true -> lang (Class p) (String c "")
| lang_cat r1 r2 s1 s2 :
    lang r1 s1 -> lang r2 s2 -> lang (Cat r1 r2) (s1 ++ s2)
| lang_alt_l r1 r2 s : lang r1 s -> lang (Alt r1 r2) s
| lang_alt_r r1 r2 s : lang r2 s -> lang (Alt r1 r2) s
| lang_star_nil r : lang (Star r) ""
| lang_star_more r s1 s2 :
    lang r s1 -> lang (Star r) s2 -> lang (Star r) (s1 ++ s2).

Definition alnum_at (o : option ascii) : bool :=
  match o with
  | Some c => is_alnum c
  | None => false
  end.

(** A project name as the grammar reads: characters of [[a-zA-Z0-9._-]],
    the first and the last of them alphanumeric. *)
Definition name_shape (s : string) : bool :=
  Str.forallb Ident.is_name_char s && alnum_at (Str.first s) && alnum_at (Str.last s).

(** The subject ends with a newline. *)
Definition ends_with_newline (s : string) : bool :=
  match Str.last s with
  | Some c => Ascii.eqb c newline
  | None => false
  end.

(** The message for a rejected project-name answer (lines 82-84, 90-96). *)
Definition name_rejection (l : string) : Walk.message :=
  if String.eqb (Str.strip l) "" then Walk.MsgNameRequired else Walk.MsgNameInvalid.

End Accept.

(** ** How a run can end *)

(** [c] never calls [sys.exit]. *)
Definition never_exits {A} (c : Setup.M A) : Prop :=
  forall w code w', c w <> Setup.Exit code w'.

(** Whenever [c] ends through [sys.exit], the status is 0 or 1 and the
    file tree is the one [c] started with. *)
Definition exits_cleanly {A} (c : Setup.M A) : Prop :=
  forall w code w',
    c w = Setup.Exit code w' -> Setup.fs w' = Setup.fs w /\ (code = 0 \/ code = 1).

(** No value of a table is the empty string. *)
Definition values_not_empty (t : Subst.table) : Prop :=
  Forall (fun kv => snd kv <> "") t.


(** ** Shapes used to state what the walks and the checks do *)

(** No key of the table occurs in [s]. *)
Definition no_key_occurs (t : Subst.table) (s : string) : Prop :=
  Forall (fun kv => Subst.occurs (fst kv) s = false) t.

(** The tree [n] with every file below it replaced by [g] of its name and
    itself; names, kinds and order are kept. *)
Fixpoint rewrite_files (g : string -> Fs.file -> Fs.file) (n : Fs.node) : Fs.node :=
  match n with
  | Fs.File f => Fs.File f
  | Fs.Dir es =>
      Fs.Dir (List.map (fun e : Fs.entry =>
                          let (name, c) := e in
                          (name, match c with
                                 | Fs.File f => Fs.File (g name f)
                                 | Fs.Dir _ => rewrite_files g c
                                 end)) es)
  end.

(** What the substitution makes of one file: the file [replace_in_file]
    leaves when the suffix is allow-listed, the file itself otherwise. *)
Definition rewritten (t : Subst.table) (name : string) (f : Fs.file) : Fs.file :=
  if Walk.allowed name then fst (Walk.replace_in_file t [name] f) else f.

(** An address [user@domain.tld] as the pattern of line 32 reads. *)
Definition address_shape (s : string) : Prop :=
  exists user domain tld,
    s = user ++ "@" ++ domain ++ "." ++ tld
    /\ user <> "" /\ Str.forallb Email.is_local_char user = true
    /\ domain <> "" /\ Str.forallb Email.is_domain_char domain = true
    /\ 2 <= String.length tld /\ Str.forallb Email.is_letter tld = true.


(** ** Where a run writes *)

(** [q] is neither at or below [p] nor on the way down to it. *)
Definition apart (p q : Fs.path) : Prop := ~ Fs.below p q /\ ~ Fs.below q p.

(** However [c] ends, what sits at a path apart from [p] is what sat
    there before. *)
Definition writes_below (p : Fs.path) {A} (c : Setup.M A) : Prop :=
  forall w q,
    apart p q ->
    Fs.lookup q (Setup.fs (Setup.final (c w))) = Fs.lookup q (Setup.fs w).


(** What sits at [q] below a node that may be missing. *)
Definition at_path (q : Fs.path) (o : option Fs.node) : option Fs.node :=
  match o with
  | Some n => Fs.lookup q n
  | None => None
  end.

(** [c] keeps the property [I] of the file tree, however it ends. *)
Definition preserves (I : Fs.node -> Prop) {A} (c : Setup.M A) : Prop :=
  forall w, I (Setup.fs w) -> I (Setup.fs (Setup.final (c w))).

(** Nothing that sits at [o] or below it has a name [ignore] matches. *)
Definition unmatched (ignore : string -> bool) (o : option Fs.node) : Prop :=
  match o with
  | Some n => Walk.names_below (fun name => ignore name = false) n
  | None => True
  end.

(** No entry below the directory at [d] has a name [ignore] matches. *)
Definition free_of (ignore : string -> bool) (d : Fs.path) (root : Fs.node) : Prop :=
  unmatched ignore (Fs.lookup d root).


(** ** The renaming walk as a map over the names *)







(** * Properties *)

(** ** Strings *)

Section StrFacts.

Import Chars.

Variable p : ascii -> bool.

Lemma forallb_lstrip q s :
  Str.forallb p s = true -> Str.forallb p (Str.lstrip q s) = true.
Proof.
  induction s as [|c s IH]; simpl; intros H; [reflexivity|].
  apply andb_true_iff in H as [Hc Hs].
  destruct (q c); [auto|]. simpl. now rewrite Hc, Hs.
Qed.

Lemma forallb_rstrip q s :
  Str.forallb p s = true -> Str.forallb p (Str.rstrip q s) = true.
Proof.
  induction s as [|c s IH]; simpl; intros H; [reflexivity|].
  apply andb_true_iff in H as [Hc Hs]. specialize (IH Hs).
  destruct (Str.rstrip q s) eqn:E.
  - destruct (q c); simpl; [reflexivity|]. now rewrite Hc.
  - simpl in *. now rewrite Hc, IH.
Qed.

Lemma first_lstrip s c : Str.first (Str.lstrip p s) = Some c -> p c = false.
Proof.
  induction s as [|d s IH]; simpl; [discriminate|].
  destruct (p d) eqn:E; [exact IH|]. simpl. intros [= <-]. exact E.
Qed.

Lemma first_rstrip s :
  Str.rstrip p s = EmptyString \/ Str.first (Str.rstrip p s) = Str.first s.
Proof.
  destruct s as [|c s]; simpl; [now left|].
  destruct (Str.rstrip p s); [destruct (p c)|]; auto.
Qed.

Lemma last_rstrip s c : Str.last (Str.rstrip p s) = Some c -> p c = false.
Proof.
  induction s as [|d s IH]; simpl; [discriminate|].
  destruct (Str.rstrip p s) as [|e r] eqn:E.
  - destruct (p d) eqn:Ed; simpl; [discriminate|]. intros [= <-]. exact Ed.
  - intros H. apply IH. exact H.
Qed.

Lemma has_double_lstrip x s :
  Str.has_double x s = false -> Str.has_double x (Str.lstrip p s) = false.
Proof.
  induction s as [|c s IH]; intros H; [reflexivity|].
  simpl Str.lstrip. destruct (p c); [|exact H].
  apply IH. simpl in H. destruct s; [reflexivity|].
  apply orb_false_iff in H. apply H.
Qed.

Lemma has_double_rstrip x s :
  Str.has_double x s = false -> Str.has_double x (Str.rstrip p s) = false.
Proof.
  induction s as [|c s IH]; intros H; [reflexivity|].
  simpl Str.rstrip.
  assert (Hs : Str.has_double x s = false).
  { simpl in H. destruct s; [reflexivity|]. apply orb_false_iff in H. apply H. }
  specialize (IH Hs).
  destruct (Str.rstrip p s) as [|e r] eqn:E.
  - destruct (p c); reflexivity.
  - destruct (first_rstrip s) as [F|F]; [congruence|].
    rewrite E in F. destruct s as [|d s']; [discriminate|].
    simpl in F. injection F as ->.
    simpl in H. apply orb_false_iff in H as [H1 _].
    change (Str.has_double x (String c (String d r)))
      with ((Ascii.eqb c x && Ascii.eqb d x) || Str.has_double x (String d r)).
    now rewrite H1, IH.
Qed.

End StrFacts.

(** ** Identifier Deriver *)

Section IdentFacts.

Import Chars Ident.

Lemma lower_of_alnum c : is_alnum c = true -> Ident.is_module_char (Chars.lower c) = true.
Proof.
  destruct c as [[] [] [] [] [] [] [] []]; vm_compute; intros H;
    first [reflexivity | discriminate H].
Qed.

Lemma lower_sub_non_alnum s :
  Str.forallb Ident.is_module_char (Str.lower (sub_non_alnum s)) = true.
Proof.
  induction s as [|c s IH]; [reflexivity|].
  unfold Str.lower, sub_non_alnum in *. simpl. rewrite IH, andb_true_r.
  destruct (is_alnum c) eqn:E; [now apply lower_of_alnum|reflexivity].
Qed.

Lemma forallb_sub_underscores q s :
  Str.forallb q s = true -> Str.forallb q (sub_underscores s) = true.
Proof.
  induction s as [|c s IH]; intros H; [reflexivity|].
  simpl in H. apply andb_true_iff in H as [Hc Hs]. specialize (IH Hs).
  simpl. destruct s as [|d s']; [simpl; now rewrite Hc|].
  destruct (Ascii.eqb c underscore && Ascii.eqb d underscore); [exact IH|].
  change (q c && Str.forallb q (sub_underscores (String d s')) = true).
  now rewrite Hc, IH.
Qed.

Lemma first_sub_underscores s :
  Str.first (sub_underscores s) = Str.first s.
Proof.
  induction s as [|c s IH]; [reflexivity|].
  simpl. destruct s as [|d s']; [reflexivity|].
  destruct (Ascii.eqb c underscore && Ascii.eqb d underscore) eqn:E; [|reflexivity].
  rewrite IH. simpl. apply andb_true_iff in E as [E1 E2].
  apply Ascii.eqb_eq in E1, E2. congruence.
Qed.

Lemma sub_underscores_single s :
  Str.has_double underscore (sub_underscores s) = false.
Proof.
  induction s as [|c s IH]; [reflexivity|].
  simpl. destruct s as [|d s']; [reflexivity|].
  destruct (Ascii.eqb c underscore && Ascii.eqb d underscore) eqn:E; [exact IH|].
  pose proof (first_sub_underscores (String d s')) as F.
  destruct (sub_underscores (String d s')) as [|e r]; [reflexivity|].
  simpl in F. injection F as ->.
  change ((Ascii.eqb c underscore && Ascii.eqb d underscore)
          || Str.has_double underscore (String d r) = false).
  now rewrite E, IH.
Qed.

(** The four properties hold of the identifier derived from any string. *)
Lemma module_name_shape name :
  only_lower_alnum_or_underscore (module_name_of name)
  /\ single_underscores (module_name_of name)
  /\ no_leading_underscore (module_name_of name)
  /\ no_trailing_underscore (module_name_of name).
Proof.
  unfold module_name_of, Str.strip_with.
  set (m := sub_underscores (Str.lower (sub_non_alnum name))).
  repeat split.
  - unfold only_lower_alnum_or_underscore.
    apply forallb_rstrip, forallb_lstrip.
    apply forallb_sub_underscores, lower_sub_non_alnum.
  - unfold single_underscores.
    apply has_double_rstrip, has_double_lstrip, sub_underscores_single.
  - unfold no_leading_underscore. intros H.
    destruct (first_rstrip (Ascii.eqb underscore) (Str.lstrip (Ascii.eqb underscore) m))
      as [E|E].
    + rewrite E in H. discriminate.
    + rewrite E in H. apply first_lstrip in H. now rewrite Ascii.eqb_refl in H.
  - unfold no_trailing_underscore. intros H.
    apply last_rstrip in H. now rewrite Ascii.eqb_refl in H.
Qed.

End IdentFacts.

(** C2. For every project name accepted by the identifier grammar, the
    derived module identifier contains only lowercase alphanumeric
    characters and underscores, no two underscores in a row, and neither
    starts nor ends with an underscore. *)
Theorem module_identifier_well_formed (name : string) :
  Ident.valid_project_name name = true ->
  Ident.only_lower_alnum_or_underscore (Ident.module_name_of name)
  /\ Ident.single_underscores (Ident.module_name_of name)
  /\ Ident.no_leading_underscore (Ident.module_name_of name)
  /\ Ident.no_trailing_underscore (Ident.module_name_of name).
Proof. intros _. apply module_name_shape. Qed.

Lemma module_identifier_well_formed_witness :
  Ident.valid_project_name "My..Proj__x-2" = true
  /\ Ident.module_name_of "My..Proj__x-2" = "my_proj_x_2"
  /\ Ident.only_lower_alnum_or_underscore (Ident.module_name_of "My..Proj__x-2").
Proof.
  split; [reflexivity|]. split; [reflexivity|].
  apply (module_identifier_well_formed "My..Proj__x-2"). reflexivity.
Defined.

(** C3. The project name "demo-app" gives the module identifier
    "demo_app" and the class identifier "DemoApp"; and whenever the class
    derivation of a module identifier (split on underscores, capitalize
    each segment, concatenate) is the empty string, the class identifier
    is "MainClass". *)
Theorem class_identifier_demo_and_fallback :
  Ident.module_name_of "demo-app" = "demo_app"
  /\ Ident.main_class_of (Ident.module_name_of "demo-app") = "DemoApp"
  /\ forall module_name,
       Ident.class_derivation module_name = "" ->
       Ident.main_class_of module_name = "MainClass".
Proof.
  split; [reflexivity|]. split; [reflexivity|].
  intros module_name H. unfold Ident.main_class_of. now rewrite H.
Qed.

Lemma class_identifier_demo_and_fallback_witness :
  Ident.class_derivation "" = "" /\ Ident.main_class_of "" = "MainClass".
Proof.
  split; [reflexivity|].
  apply (proj2 (proj2 class_identifier_demo_and_fallback) ""). reflexivity.
Defined.

(** ** The e-mail check *)

Lemma blank_email_takes_default check l rest :
  Str.strip l = "" ->
  Setup.author_email_loop check (l :: rest)
  = ([], Setup.EmailAccepted "your.email@example.com" rest).
Proof. intros H. simpl. now rewrite H. Qed.

(** C4. The e-mail validity check accepts "user@example.com" and rejects
    "not-an-email" and "user@"; a blank answer leaves the prompt loop with
    the default address whatever the validity check is, so without a call
    to it. *)
Theorem email_check_examples_and_default :
  check_email "user@example.com" = inl true
  /\ check_email "not-an-email" = inl false
  /\ check_email "user@" = inl false
  /\ forall check l rest,
       Str.strip l = "" ->
       Setup.author_email_loop check (l :: rest)
       = ([], Setup.EmailAccepted "your.email@example.com" rest).
Proof.
  split; [vm_compute; reflexivity|].
  split; [vm_compute; reflexivity|].
  split; [vm_compute; reflexivity|].
  exact blank_email_takes_default.
Qed.

Lemma email_check_examples_and_default_witness :
  Str.strip "  " = ""
  /\ Setup.author_email_loop (fun _ => inr Parseaddr.IndexError) ["  "; "x"]
     = ([], Setup.EmailAccepted "your.email@example.com" ["x"]).
Proof.
  split; [reflexivity|].
  apply (proj2 (proj2 (proj2 email_check_examples_and_default))). reflexivity.
Defined.

Lemma valid_email_is_kept check l rest :
  Str.strip l <> "" ->
  check (Str.strip l) = inl true ->
  Setup.author_email_loop check (l :: rest)
  = ([], Setup.EmailAccepted (Str.strip l) rest).
Proof.
  intros Hne Hok. simpl.
  destruct (String.eqb_spec (Str.strip l) ""); [contradiction|].
  now rewrite Hok.
Qed.

(** C10. The check validates the address the parser extracts, not the raw
    input: "Name <user@example.com>" does not match the pattern itself,
    the parser extracts "user@example.com" from it, and the check returns
    True; the raw string is then what the Replacement Table holds for the
    author e-mail. *)
Theorem display_name_address_accepted_and_stored_raw :
  Re.match_anchored Email.email_pattern Samples.display_name_address = false
  /\ EmailUtils.parseaddr Samples.display_name_address
     = inl ("Name", "user@example.com")
  /\ check_email Samples.display_name_address = inl true
  /\ exists m w,
       Setup.collect_metadata check_email (Samples.start Samples.answers_display_name)
       = Setup.Ok m w
       /\ Setup.author_email m = Samples.display_name_address
       /\ In ("{{AUTHOR_EMAIL}}", Samples.display_name_address)
            (Setup.replacements_of m).
Proof.
  split; [vm_compute; reflexivity|].
  split; [vm_compute; reflexivity|].
  split; [vm_compute; reflexivity|].
  eexists. eexists. split; [vm_compute; reflexivity|].
  split; [reflexivity|].
  simpl. do 4 right. left. reflexivity.
Qed.

(** ** The file tree *)

Section FsFacts.

Import Fs.

Lemma lookup_app p q n :
  lookup (p ++ q)%list n = match lookup p n with
                      | Some m => lookup q m
                      | None => None
                      end.
Proof.
  revert n. induction p as [|x p IH]; intros n; [reflexivity|].
  simpl. destruct n as [f|es]; [reflexivity|].
  destruct (find_entry x es); [apply IH|reflexivity].
Qed.

(** A directory in which something is found has an entry. *)
Lemma lookup_child_nonempty p x n :
  lookup (p ++ [x])%list n <> None ->
  exists e es, lookup p n = Some (Dir (e :: es)).
Proof.
  rewrite lookup_app. destruct (lookup p n) as [[f|[|e es]]|]; simpl; intros H;
    try congruence.
  now exists e, es.
Qed.

End FsFacts.

(** ** The prompts leave the file tree alone *)

Section Prompts.

Import Fs Setup.
Local Open Scope run_scope.

Lemma keeps_fs_ret A (a : A) : keeps_fs (ret a).
Proof. intros w. reflexivity. Qed.

Lemma keeps_fs_bind A B (c : M A) (k : A -> M B) :
  keeps_fs c -> (forall a, keeps_fs (k a)) -> keeps_fs (bind c k).
Proof.
  intros Hc Hk w. unfold bind. specialize (Hc w).
  destruct (c w) as [a w'|code w'|e w']; simpl in *; [|assumption..].
  now rewrite Hk.
Qed.

Lemma keeps_fs_input : keeps_fs input.
Proof. intros w. unfold input. destruct (stdin w); reflexivity. Qed.

Lemma keeps_fs_print m : keeps_fs (print m).
Proof. intros w. reflexivity. Qed.

Lemma keeps_fs_exit A code : keeps_fs (@sys_exit A code).
Proof. intros w. reflexivity. Qed.

Lemma keeps_fs_ask_project_name : keeps_fs ask_project_name.
Proof.
  intros w. unfold ask_project_name.
  destruct (project_name_loop (stdin w)) as [log [[name rest]|]]; reflexivity.
Qed.

Lemma keeps_fs_ask_or_default d : keeps_fs (ask_or_default d).
Proof.
  apply keeps_fs_bind; [apply keeps_fs_input|]. intros a. apply keeps_fs_ret.
Qed.

Lemma keeps_fs_ask_author_email check : keeps_fs (ask_author_email check).
Proof.
  intros w. unfold ask_author_email.
  destruct (author_email_loop check (stdin w)) as [log [|e rest|e rest]]; reflexivity.
Qed.

Lemma keeps_fs_collect_metadata check : keeps_fs (collect_metadata check).
Proof.
  unfold collect_metadata.
  repeat first
    [ progress cbv zeta
    | apply keeps_fs_bind; [|intros ?]
    | apply keeps_fs_ask_project_name
    | apply keeps_fs_ask_or_default
    | apply keeps_fs_input
    | apply keeps_fs_ask_author_email
    | apply keeps_fs_ret ].
Qed.

End Prompts.

(** ** The run monad *)

Section Monad.

Import Setup.

Lemma bind_ok A B (c : M A) (k : A -> M B) w a w' :
  c w = Ok a w' -> bind c k w = k a w'.
Proof. intros H. unfold bind. now rewrite H. Qed.

Lemma bind_exit A B (c : M A) (k : A -> M B) w code w' :
  c w = Exit code w' -> bind c k w = Exit code w'.
Proof. intros H. unfold bind. now rewrite H. Qed.

Lemma bind_raise A B (c : M A) (k : A -> M B) w e w' :
  c w = Raise e w' -> bind c k w = Raise e w'.
Proof. intros H. unfold bind. now rewrite H. Qed.

Lemma bind_assoc A B C (c : M A) (k : A -> M B) (h : B -> M C) w :
  bind (bind c k) h w = bind c (fun a => bind (k a) h) w.
Proof. unfold bind. destruct (c w); reflexivity. Qed.

End Monad.

(** ** Content Substituter *)

Section Substituter.

Import Fs Subst Walk.

Variable replacements : table.

Lemma substitute_walk_dir root es :
  substitute_walk replacements root (Dir es)
  = let (es1, log_dirs) := walk_subdirs replacements root es in
    let (es2, log_files) := substitute_files replacements root es1 in
    (Dir es2, (log_files ++ log_dirs)%list).
Proof. reflexivity. Qed.

Lemma walk_subdirs_cons root name c l :
  walk_subdirs replacements root ((name, c) :: l)
  = match c with
    | File _ =>
        let (l', log) := walk_subdirs replacements root l in ((name, c) :: l', log)
    | Dir _ =>
        let (c', log) := substitute_walk replacements (root ++ [name])%list c in
        let (l', log') := walk_subdirs replacements root l in
        ((name, c') :: l', (log ++ log')%list)
    end.
Proof. destruct c; reflexivity. Qed.








Lemma replace_in_file_success file_path f s :
  read_text f = inr s -> may_write f = true ->
  replace_in_file replacements file_path f
  = ({| may_read := may_read f; may_write := true;
        data := Text (apply_all replacements s) |}, []).
Proof.
  unfold replace_in_file, write_text. intros -> ->. reflexivity.
Qed.

End Substituter.

Lemma substitute_contents_returns target replacements w :
  exists w', Setup.substitute_contents target replacements w = Setup.Ok tt w'.
Proof.
  unfold Setup.substitute_contents, Setup.bind, Setup.get_fs, Setup.set_fs,
    Setup.print_all, Setup.ret.
  destruct (Fs.lookup target (Setup.fs w)) as [[f|es]|]; try (eexists; reflexivity).
  destruct (Walk.substitute_walk replacements target (Fs.Dir es)) as [n' log].
  destruct (Fs.alter_root _ target (Setup.fs w)); eexists; reflexivity.
Qed.



(** ** Directories under file-system calls *)

Section Dirs.

Import Fs.

Lemma find_put_same x n es : find_entry x (put_entry x n es) = Some n.
Proof.
  induction es as [|[y m] es IH]; simpl.
  - now rewrite String.eqb_refl.
  - destruct (String.eqb x y) eqn:E; simpl.
    + now rewrite String.eqb_refl.
    + now rewrite E.
Qed.

Lemma find_put_other x y n es :
  String.eqb y x = false -> find_entry y (put_entry x n es) = find_entry y es.
Proof.
  intros H. induction es as [|[z m] es IH]; simpl.
  - now rewrite H.
  - destruct (String.eqb x z) eqn:E; simpl.
    + apply String.eqb_eq in E as <-. now rewrite H.
    + destruct (String.eqb y z); [reflexivity|exact IH].
Qed.

Lemma find_remove_other x y es :
  String.eqb y x = false -> find_entry y (remove_entry x es) = find_entry y es.
Proof.
  intros H. induction es as [|[z m] es IH]; simpl; [reflexivity|].
  destruct (String.eqb x z) eqn:E; simpl.
  - apply String.eqb_eq in E as <-. now rewrite H.
  - destruct (String.eqb y z); [reflexivity|exact IH].
Qed.

Lemma find_remove_same x es : find_entry x (remove_entry x es) = None.
Proof.
  induction es as [|[y n] es IH]; [reflexivity|].
  simpl. destruct (String.eqb x y) eqn:E; [exact IH|]. simpl. now rewrite E.
Qed.

Lemma find_set_other x y r es :
  String.eqb y x = false -> find_entry y (set_entry x r es) = find_entry y es.
Proof.
  destruct r; simpl; [apply find_put_other|apply find_remove_other].
Qed.

Lemma dir_at_cons y q es :
  dir_at (y :: q) (Some (Dir es)) <-> dir_at q (find_entry y es).
Proof.
  unfold dir_at. simpl. destruct (find_entry y es); tauto.
Qed.

Lemma dir_at_file q f : ~ dir_at q (Some (File f)).
Proof. destruct q; simpl; auto. Qed.

(** A call that never succeeds on a directory keeps the directories. *)
Lemma alter_keeps_dirs f :
  (forall es r, f (Some (Dir es)) <> inr r) ->
  forall p cur r q,
    alter f p cur = inr r -> dir_at q cur -> dir_at q r.
Proof.
  intros Hf. induction p as [|x p IH]; intros cur r q Ha Hd.
  - simpl in Ha. destruct cur as [[g|es]|]; simpl in Hd; try contradiction.
    + now apply dir_at_file in Hd.
    + now apply Hf in Ha.
  - simpl in Ha. destruct cur as [[g|es]|]; try discriminate.
    destruct (alter f p (find_entry x es)) as [e|r'] eqn:E; [discriminate|].
    injection Ha as <-.
    destruct q as [|y q]; [exact I|].
    apply dir_at_cons. apply dir_at_cons in Hd.
    destruct (String.eqb y x) eqn:Eyx.
    + apply String.eqb_eq in Eyx as ->.
      specialize (IH _ _ _ E Hd).
      destruct r' as [c'|]; [|contradiction].
      simpl set_entry. now rewrite find_put_same.
    + now rewrite find_set_other.
Qed.

(** A call at [p] keeps the directories that are not at or below [p]. *)
Lemma alter_keeps_elsewhere f p :
  forall cur r q,
    alter f p cur = inr r -> ~ below p q -> dir_at q cur -> dir_at q r.
Proof.
  induction p as [|x p IH]; intros cur r q Ha Hb Hd.
  - exfalso. apply Hb. now exists q.
  - simpl in Ha. destruct cur as [[g|es]|]; try discriminate.
    destruct (alter f p (find_entry x es)) as [e|r'] eqn:E; [discriminate|].
    injection Ha as <-.
    destruct q as [|y q]; [exact I|].
    apply dir_at_cons. apply dir_at_cons in Hd.
    destruct (String.eqb y x) eqn:Eyx.
    + apply String.eqb_eq in Eyx as ->.
      assert (Hb' : ~ below p q).
      { intros [t ->]. apply Hb. now exists t. }
      specialize (IH _ _ _ E Hb' Hd).
      destruct r' as [c'|]; [|contradiction].
      simpl set_entry. now rewrite find_put_same.
    + now rewrite find_set_other.
Qed.

Lemma makedirs_at_keeps_dirs exist_ok p :
  forall cur n q,
    makedirs_at exist_ok p cur = inr n -> dir_at q cur -> dir_at q (Some n).
Proof.
  induction p as [|x p IH]; intros cur n q Hm Hd.
  - simpl in Hm. destruct cur as [[g|es]|]; try discriminate; try contradiction.
    destruct exist_ok; [|discriminate]. now injection Hm as <-.
  - simpl in Hm. destruct cur as [[g|es]|]; try discriminate; try contradiction.
    destruct (makedirs_at exist_ok p (find_entry x es)) as [e|c] eqn:E; [discriminate|].
    injection Hm as <-.
    destruct q as [|y q]; [exact I|].
    apply dir_at_cons. apply dir_at_cons in Hd.
    destruct (String.eqb y x) eqn:Eyx.
    + apply String.eqb_eq in Eyx as ->. rewrite find_put_same.
      exact (IH _ _ _ E Hd).
    + now rewrite find_put_other.
Qed.

(** After [makedirs] the directory is there. *)
Lemma makedirs_at_makes exist_ok p :
  forall cur n, makedirs_at exist_ok p cur = inr n -> dir_at p (Some n).
Proof.
  induction p as [|x p IH]; intros cur n Hm.
  - simpl in Hm. destruct cur as [[g|es]|]; try discriminate.
    + destruct exist_ok; [|discriminate]. now injection Hm as <-.
    + now injection Hm as <-.
  - simpl in Hm. destruct cur as [[g|es]|]; try discriminate.
    + destruct (makedirs_at exist_ok p (find_entry x es)) as [e|c] eqn:E; [discriminate|].
      injection Hm as <-. apply dir_at_cons. rewrite find_put_same.
      exact (IH _ _ E).
    + destruct (makedirs_at exist_ok p None) as [e|c] eqn:E; [discriminate|].
      injection Hm as <-. apply dir_at_cons. simpl. rewrite String.eqb_refl.
      exact (IH _ _ E).
Qed.

Lemma alter_root_some f p root root' :
  alter_root f p root = inr root' -> alter f p (Some root) = inr (Some root').
Proof.
  unfold alter_root. destruct (alter f p (Some root)) as [e|[n|]]; congruence.
Qed.

Lemma write_file_keeps_dirs p f root root' q :
  write_file p f root = inr root' ->
  dir_at q (Some root) -> dir_at q (Some root').
Proof.
  intros H. apply alter_root_some in H.
  eapply alter_keeps_dirs; [|exact H]. intros es r. discriminate.
Qed.

Lemma rmtree_keeps_elsewhere p root root' q :
  rmtree p root = inr root' -> ~ below p q ->
  dir_at q (Some root) -> dir_at q (Some root').
Proof.
  intros H. apply alter_root_some in H. eapply alter_keeps_elsewhere; exact H.
Qed.

End Dirs.

(** ** Paths as the operating system follows them *)

Section OsPaths.

Import Fs Setup.

Lemma step_skipped acc c :
  (String.eqb c "" || String.eqb c ".") = true -> step acc c = acc.
Proof. unfold step. now intros ->. Qed.

Lemma fold_step_filter cs :
  forall acc,
    List.fold_left step
      (List.filter (fun c => negb (String.eqb c "" || String.eqb c ".")) cs) acc
    = List.fold_left step cs acc.
Proof.
  induction cs as [|c cs IH]; intros acc; [reflexivity|]. simpl.
  destruct (String.eqb c "" || String.eqb c ".") eqn:E; simpl.
  - rewrite (step_skipped acc c E). apply IH.
  - apply IH.
Qed.

(** Resolving a path is folding [step] over its parts. *)
Lemma join_parts base s : join base s = List.fold_left step (parts s) (join_from base s).
Proof. unfold join, parts. now rewrite fold_step_filter. Qed.

Lemma target_dir_parts cwd m l :
  target_dir_of cwd m l
  = List.fold_left step (parts (target_path_of m l))
      (join_from cwd (target_path_of m l)).
Proof.
  unfold target_dir_of, target_path_of. cbv zeta.
  destruct (String.eqb (Str.strip l) ""); apply join_parts.
Qed.

(** The walk, where it gets through, ends where resolving the path
    leads. *)
Lemma os_walk_location root cs :
  forall cur p, os_walk root cur cs = inr p -> p = List.fold_left step cs cur.
Proof.
  induction cs as [|c cs IH]; intros cur p H; [now injection H as <-|].
  simpl in H. destruct (lookup cur root) as [[f|es]|]; try discriminate.
  simpl. now apply IH.
Qed.

Lemma os_stat_lookup root start cs n :
  os_stat root start cs = inr n -> lookup (List.fold_left step cs start) root = Some n.
Proof.
  unfold os_stat. destruct (os_walk root start cs) as [e|p] eqn:E; [discriminate|].
  apply os_walk_location in E as ->.
  destruct (lookup _ root); [now intros [= ->]|discriminate].
Qed.

(** What the operating system finds at the target is what sits at the
    resolved target. *)
Lemma target_node_lookup cwd m l root n :
  target_node cwd m l root = inr n -> lookup (target_dir_of cwd m l) root = Some n.
Proof. unfold target_node. rewrite target_dir_parts. apply os_stat_lookup. Qed.

Lemma parts_proper s :
  Forall (fun c => (String.eqb c "" || String.eqb c ".") = false) (parts s).
Proof.
  unfold parts. apply Forall_forall. intros c Hc. apply filter_In in Hc as [_ Hc].
  now apply negb_true_iff in Hc.
Qed.

(** A new directory at a place where nothing was: whatever existed
    still exists. *)
Lemma alter_new_grows p :
  forall cur r q,
    alter (fun _ => inr (Some (Dir []))) p cur = inr r ->
    at_path p cur = None ->
    at_path q cur <> None -> at_path q r <> None.
Proof.
  induction p as [|x p IH]; intros cur r q Ha Hp Hq.
  - destruct cur; [discriminate Hp|]. now destruct q.
  - simpl in Ha. destruct cur as [[g|es]|]; try discriminate.
    destruct (alter _ p (find_entry x es)) as [e|r'] eqn:E; [discriminate|].
    injection Ha as <-. destruct q as [|y q]; [discriminate|].
    change (at_path (y :: q) (Some (Dir es))) with (at_path q (find_entry y es)) in Hq.
    change (at_path (x :: p) (Some (Dir es))) with (at_path p (find_entry x es)) in Hp.
    change (at_path (y :: q) (Some (Dir (set_entry x r' es))))
      with (at_path q (find_entry y (set_entry x r' es))).
    destruct (String.eqb y x) eqn:Eyx.
    + apply String.eqb_eq in Eyx as ->. specialize (IH _ _ q E Hp Hq).
      destruct r' as [c|]; [|now destruct q]. simpl set_entry.
      now rewrite find_put_same.
    + now rewrite find_set_other.
Qed.

(** [os.mkdir], where it succeeds: nothing was at the place, and whatever
    existed still exists. *)
Lemma os_mkdir_new root start c rparent root' :
  (String.eqb c "" || String.eqb c ".") = false ->
  os_mkdir root start (c :: rparent) = inr root' ->
  lookup (List.fold_left step (List.rev (c :: rparent)) start) root = None
  /\ (forall q, lookup q root <> None -> lookup q root' <> None).
Proof.
  intros Hc. unfold os_mkdir.
  destruct (os_walk root start (List.rev rparent)) as [e|p] eqn:Ew; [discriminate|].
  apply os_walk_location in Ew.
  destruct (lookup p root) as [[g|es]|] eqn:El; try discriminate.
  destruct (String.eqb c "..") eqn:Edd; [discriminate|].
  destruct (find_entry c es) eqn:Ef; [discriminate|].
  intros Ha.
  assert (Hloc : List.fold_left step (List.rev (c :: rparent)) start = (p ++ [c])%list).
  { simpl List.rev. rewrite List.fold_left_app, <- Ew. simpl. unfold step.
    now rewrite Hc, Edd. }
  assert (Hnone : lookup (p ++ [c])%list root = None).
  { rewrite lookup_app, El. simpl. now rewrite Ef. }
  split; [now rewrite Hloc|].
  intros q Hq. apply alter_root_some in Ha.
  exact (alter_new_grows _ _ _ q Ha Hnone Hq).
Qed.

Lemma os_mkdir_grows root start rcs root' :
  Forall (fun c => (String.eqb c "" || String.eqb c ".") = false) rcs ->
  os_mkdir root start rcs = inr root' ->
  forall q, lookup q root <> None -> lookup q root' <> None.
Proof.
  intros Hp H. destruct rcs as [|c rparent]; [discriminate|].
  inversion Hp; subst. now apply (os_mkdir_new root start c rparent).
Qed.

Lemma mkdir_parents_nil exist_ok root start :
  mkdir_parents exist_ok root start []
  = match os_mkdir root start [] with
    | inr root' => (root', None)
    | inl FileNotFoundError => (root, Some FileNotFoundError)
    | inl e =>
        if exist_ok && os_is_dir root start [] then (root, None) else (root, Some e)
    end.
Proof. reflexivity. Qed.

Lemma mkdir_parents_cons exist_ok root start c rparent :
  mkdir_parents exist_ok root start (c :: rparent)
  = match os_mkdir root start (c :: rparent) with
    | inr root' => (root', None)
    | inl FileNotFoundError =>
        match mkdir_parents true root start rparent with
        | (root1, Some e) => (root1, Some e)
        | (root1, None) =>
            match os_mkdir root1 start (c :: rparent) with
            | inr root2 => (root2, None)
            | inl FileNotFoundError => (root1, Some FileNotFoundError)
            | inl e =>
                if exist_ok && os_is_dir root1 start (List.rev (c :: rparent))
                then (root1, None) else (root1, Some e)
            end
        end
    | inl e =>
        if exist_ok && os_is_dir root start (List.rev (c :: rparent))
        then (root, None) else (root, Some e)
    end.
Proof. reflexivity. Qed.

(** [mkdir(parents=True)] only adds directories, however it ends. *)
Lemma mkdir_parents_grows start rcs :
  Forall (fun c => (String.eqb c "" || String.eqb c ".") = false) rcs ->
  forall exist_ok root root' err,
    mkdir_parents exist_ok root start rcs = (root', err) ->
    forall q, lookup q root <> None -> lookup q root' <> None.
Proof.
  intros Hp. induction Hp as [|c rparent Hc Hp IH]; intros exist_ok root root' err H q Hq.
  - rewrite mkdir_parents_nil in H.
    destruct (os_mkdir root start []) as [e|r0] eqn:Em; [|discriminate Em].
    destruct e; try (now injection H as <- _);
      (destruct (exist_ok && _); now injection H as <- _).
  - rewrite mkdir_parents_cons in H.
    destruct (os_mkdir root start (c :: rparent)) as [e|r0] eqn:Em.
    + destruct e;
        try (destruct (exist_ok && _); now injection H as <- _).
      destruct (mkdir_parents true root start rparent) as [root1 err1] eqn:Ep.
      pose proof (IH _ _ _ _ Ep q Hq) as Hq1.
      destruct err1 as [e1|]; [now injection H as <- _|].
      destruct (os_mkdir root1 start (c :: rparent)) as [e2|root2] eqn:Em2.
      * destruct e2; try (now injection H as <- _);
          (destruct (exist_ok && _); now injection H as <- _).
      * injection H as <- _.
        exact (os_mkdir_grows _ _ _ _ (Forall_cons _ Hc Hp) Em2 q Hq1).
    + injection H as <- _.
      exact (os_mkdir_grows _ _ _ _ (Forall_cons _ Hc Hp) Em q Hq).
Qed.

(** [mkdir(parents=True)] without [exist_ok], where it succeeds: nothing
    was at the resolved place before. *)
Lemma mkdir_parents_new start rcs root root' :
  Forall (fun c => (String.eqb c "" || String.eqb c ".") = false) rcs ->
  mkdir_parents false root start rcs = (root', None) ->
  lookup (List.fold_left step (List.rev rcs) start) root = None.
Proof.
  intros Hp H. destruct rcs as [|c rparent].
  - simpl in H. destruct (lookup start root); discriminate.
  - inversion Hp as [|? ? Hc Hp']; subst. rewrite mkdir_parents_cons in H.
    destruct (os_mkdir root start (c :: rparent)) as [e|r0] eqn:Em.
    + destruct e; try discriminate.
      destruct (mkdir_parents true root start rparent) as [root1 [e1|]] eqn:Ep;
        [discriminate|].
      destruct (os_mkdir root1 start (c :: rparent)) as [e2|root2] eqn:Em2.
      * destruct e2; discriminate.
      * destruct (os_mkdir_new _ _ _ _ _ Hc Em2) as [Hnone _].
        match goal with
        | |- lookup ?T root = None =>
            destruct (lookup T root) eqn:El; [exfalso|reflexivity];
            assert (Hq : lookup T root <> None) by (rewrite El; discriminate);
            exact (mkdir_parents_grows start rparent Hp' _ _ _ _ Ep _ Hq Hnone)
        end.
    + now destruct (os_mkdir_new _ _ _ _ _ Hc Em).
Qed.

Lemma make_target_new cwd m l root root' :
  make_target cwd m l root = (root', None) ->
  lookup (target_dir_of cwd m l) root = None.
Proof.
  unfold make_target. intros H. rewrite target_dir_parts.
  rewrite <- (List.rev_involutive (parts (target_path_of m l))) at 1.
  apply (mkdir_parents_new _ _ _ _ (List.Forall_rev (parts_proper _)) H).
Qed.

(** A new directory at a place where nothing was changes what is found
    at that place and above it, and nothing else. *)
Lemma alter_new_frame p :
  forall cur r q,
    alter (fun _ => inr (Some (Dir []))) p cur = inr r ->
    at_path p cur = None ->
    ~ below q p -> at_path q r = at_path q cur.
Proof.
  induction p as [|x p IH]; intros cur r q Ha Hp Hq.
  - destruct cur; [discriminate Hp|]. injection Ha as <-.
    destruct q as [|y q]; [exfalso; apply Hq; now exists []|reflexivity].
  - simpl in Ha. destruct cur as [[g|es]|]; try discriminate.
    destruct (alter _ p (find_entry x es)) as [e|r'] eqn:E; [discriminate|].
    injection Ha as <-.
    destruct q as [|y q]; [exfalso; apply Hq; now exists (x :: p)|].
    change (at_path (x :: p) (Some (Dir es))) with (at_path p (find_entry x es)) in Hp.
    change (at_path (y :: q) (Some (Dir es))) with (at_path q (find_entry y es)).
    change (at_path (y :: q) (Some (Dir (set_entry x r' es))))
      with (at_path q (find_entry y (set_entry x r' es))).
    destruct (String.eqb y x) eqn:Eyx.
    + apply String.eqb_eq in Eyx as ->.
      assert (Hq' : ~ below q p).
      { intros [t ->]. apply Hq. now exists t. }
      rewrite <- (IH _ _ q E Hp Hq').
      destruct r' as [c|]; simpl set_entry;
        [now rewrite find_put_same|now rewrite find_remove_same].
    + now rewrite find_set_other.
Qed.

(** Without [..] the walk goes straight down. *)
Lemma fold_step_plain cs :
  Forall (fun c => (String.eqb c "" || String.eqb c ".") = false) cs ->
  ~ In ".." cs ->
  forall cur, List.fold_left step cs cur = (cur ++ cs)%list.
Proof.
  intros Hp. induction Hp as [|c cs Hc Hp IH]; intros Hd cur.
  - now rewrite List.app_nil_r.
  - simpl. unfold step at 2. rewrite Hc.
    assert (E : String.eqb c ".." = false).
    { apply String.eqb_neq. intros ->. apply Hd. now left. }
    rewrite E, IH; [now rewrite <- List.app_assoc|].
    intros H. apply Hd. now right.
Qed.

Lemma not_below_prefix (q a t : path) : ~ below q (a ++ t)%list -> ~ below q a.
Proof.
  intros H [u ->]. apply H. exists (u ++ t)%list. now rewrite List.app_assoc.
Qed.

Lemma os_mkdir_frame root start c rparent root' q :
  Forall (fun c => (String.eqb c "" || String.eqb c ".") = false) (c :: rparent) ->
  ~ In ".." (c :: rparent) ->
  os_mkdir root start (c :: rparent) = inr root' ->
  ~ below q (start ++ List.rev (c :: rparent))%list ->
  lookup q root' = lookup q root.
Proof.
  intros Hp Hd. inversion Hp as [|? ? Hc Hp']; subst. unfold os_mkdir.
  destruct (os_walk root start (List.rev rparent)) as [e|p] eqn:Ew; [discriminate|].
  apply os_walk_location in Ew.
  rewrite fold_step_plain in Ew;
    [|now apply List.Forall_rev|rewrite <- List.in_rev; intros H; apply Hd; now right].
  subst p.
  destruct (lookup _ root) as [[g|es]|] eqn:El; try discriminate.
  destruct (String.eqb c ".."); [discriminate|].
  destruct (find_entry c es) eqn:Ef; [discriminate|].
  intros Ha Hq. apply alter_root_some in Ha.
  simpl List.rev in Hq. rewrite List.app_assoc in Hq.
  apply (alter_new_frame _ _ _ q Ha); [|exact Hq].
  simpl. rewrite lookup_app, El. simpl. now rewrite Ef.
Qed.

(** On a path without [..], [mkdir(parents=True)] changes what is found
    on the way down to the path and at it, and nothing else. *)
Lemma mkdir_parents_frame start rcs :
  Forall (fun c => (String.eqb c "" || String.eqb c ".") = false) rcs ->
  ~ In ".." rcs ->
  forall exist_ok root root' err q,
    mkdir_parents exist_ok root start rcs = (root', err) ->
    ~ below q (start ++ List.rev rcs)%list ->
    lookup q root' = lookup q root.
Proof.
  intros Hp. induction Hp as [|c rparent Hc Hp IH];
    intros Hd exist_ok root root' err q H Hq.
  - rewrite mkdir_parents_nil in H.
    destruct (os_mkdir root start []) as [e|r0] eqn:Em; [|discriminate Em].
    destruct e; try (now injection H as <- _);
      (destruct (exist_ok && _); now injection H as <- _).
  - assert (Hd' : ~ In ".." rparent) by (intros K; apply Hd; now right).
    assert (Hq' : ~ below q (start ++ List.rev rparent)%list).
    { simpl List.rev in Hq. rewrite List.app_assoc in Hq.
      exact (not_below_prefix _ _ _ Hq). }
    rewrite mkdir_parents_cons in H.
    destruct (os_mkdir root start (c :: rparent)) as [e|r0] eqn:Em.
    + destruct e;
        try (destruct (exist_ok && _); now injection H as <- _).
      destruct (mkdir_parents true root start rparent) as [root1 err1] eqn:Ep.
      pose proof (IH Hd' _ _ _ _ q Ep Hq') as H1.
      destruct err1 as [e1|]; [now injection H as <- _|].
      destruct (os_mkdir root1 start (c :: rparent)) as [e2|root2] eqn:Em2.
      * destruct e2; try (now injection H as <- _);
          (destruct (exist_ok && _); now injection H as <- _).
      * injection H as <- _. rewrite <- H1.
        exact (os_mkdir_frame _ _ _ _ _ q (Forall_cons _ Hc Hp) Hd Em2 Hq).
    + injection H as <- _.
      exact (os_mkdir_frame _ _ _ _ _ q (Forall_cons _ Hc Hp) Hd Em Hq).
Qed.

Lemma make_target_frame cwd m l root root' err q :
  ~ In ".." (parts (target_path_of m l)) ->
  make_target cwd m l root = (root', err) ->
  ~ below q (target_dir_of cwd m l) ->
  lookup q root' = lookup q root.
Proof.
  unfold make_target. intros Hd H Hq.
  apply (mkdir_parents_frame _ _ (List.Forall_rev (parts_proper _))
           (fun K => Hd (proj2 (List.in_rev _ _) K)) _ _ _ _ q H).
  rewrite List.rev_involutive.
  now rewrite target_dir_parts, (fold_step_plain _ (parts_proper _) Hd) in Hq.
Qed.

End OsPaths.

(** ** Target Resolver *)

Section Target.

Import Fs Walk Setup.
Local Open Scope run_scope.

Variable cwd : path.

Lemma resolve_target_populated m w l1 l2 rest e es :
  stdin w = l1 :: l2 :: rest ->
  confirmed l1 = true ->
  path_eqb (target_dir_of cwd m l2) cwd = false ->
  target_node cwd m l2 (fs w) = inr (Dir (e :: es)) ->
  resolve_target cwd m w
  = Exit 1 {| fs := fs w; stdin := rest;
              stdout := (stdout w ++ [MsgNotEmpty (target_dir_of cwd m l2)])%list |}.
Proof.
  intros Hin Hc Hne Hl.
  unfold resolve_target, bind, input. rewrite Hin, Hc. simpl.
  rewrite Hne. simpl. rewrite Hl. reflexivity.
Qed.

(** The target a run goes on with was absent or empty when the guards
    looked at it. *)
Lemma resolve_target_ok m w t w' :
  resolve_target cwd m w = Ok t w' ->
  lookup t (fs w) = None \/ lookup t (fs w) = Some (Dir []).
Proof.
  unfold resolve_target, bind, input, print, sys_exit, ret, get_fs, fs_call, raise.
  destruct (stdin w) as [|l1 [|l2 rest]]; try discriminate.
  - destruct (confirmed l1); simpl; discriminate.
  - destruct (confirmed l1); simpl; [|discriminate].
    destruct (path_eqb (target_dir_of cwd m l2) cwd); simpl;
      [destruct rest as [|l3 rest']; simpl; [discriminate|];
       destruct (String.eqb (Str.lower (Str.strip l3)) "yes"); simpl; [|discriminate]|].
    all: destruct (target_node cwd m l2 (fs w)) as [e0|[f|[|e es]]] eqn:E;
      simpl; try discriminate.
    all: try (intros [= <- _]; right; exact (target_node_lookup _ _ _ _ _ E)).
    all: destruct (make_target cwd m l2 (fs w)) as [n1 [e1|]] eqn:Em;
      simpl; [discriminate|].
    all: intros [= <- _]; left; exact (make_target_new _ _ _ _ _ Em).
Qed.

(** With the script in the template directory, no run goes on with the
    template directory as its target: the in-place branch of line 216 is
    never taken. *)
Lemma in_place_branch_unreachable template_dir m w t w' :
  lookup (template_dir ++ ["setup_project.py"])%list (fs w) <> None ->
  resolve_target cwd m w = Ok t w' ->
  t <> template_dir.
Proof.
  intros Hscript Hok ->.
  apply lookup_child_nonempty in Hscript as (e & es & Hl).
  apply resolve_target_ok in Hok as [H|H]; congruence.
Qed.

End Target.

(** C7, as the code has it.  If the target directory, as the operating
    system finds it under the path that was typed, exists and holds at
    least one entry (and its resolved path is not the working directory),
    the run exits with status 1 and the file tree is the one it started
    with: nothing was written. *)
Theorem populated_target_exits_without_writing
    (cwd template_dir : Fs.path) (w w1 : Setup.world) (m : Setup.metadata)
    (l1 l2 : string) (rest : list string) (e : Fs.entry) (es : list Fs.entry) :
  Setup.bind (Setup.print Walk.MsgBanner)
    (fun _ => Setup.collect_metadata check_email) w = Setup.Ok m w1 ->
  Setup.stdin w1 = l1 :: l2 :: rest ->
  Setup.confirmed l1 = true ->
  Setup.path_eqb (Setup.target_dir_of cwd m l2) cwd = false ->
  Setup.target_node cwd m l2 (Setup.fs w) = inr (Fs.Dir (e :: es)) ->
  exists w',
    Setup.setup_project cwd template_dir EmailUtils.parseaddr w = Setup.Exit 1 w'
    /\ Setup.fs w' = Setup.fs w.
Proof.
  intros Hcollect Hin Hc Hne Hl.
  assert (Hfs : Setup.fs w1 = Setup.fs w).
  { pose proof (keeps_fs_bind _ _ (Setup.print Walk.MsgBanner)
                  (fun _ => Setup.collect_metadata check_email)
                  (keeps_fs_print _)
                  (fun _ => keeps_fs_collect_metadata check_email) w) as K.
    rewrite Hcollect in K. exact K. }
  unfold Setup.setup_project. fold check_email.
  rewrite <- bind_assoc. rewrite (bind_ok _ _ _ _ _ _ _ Hcollect).
  rewrite (bind_ok _ _ _ _ _ _ _ (eq_refl : Setup.print _ w1 = Setup.Ok tt _)).
  match goal with
  | |- context [Setup.bind (Setup.resolve_target cwd m) ?k ?w0] =>
      assert (Hl' : Setup.target_node cwd m l2 (Setup.fs w0)
                    = inr (Fs.Dir (e :: es))) by (simpl; rewrite Hfs; exact Hl);
      rewrite (bind_exit _ _ _ k _ _ _
                 (resolve_target_populated cwd m w0 l1 l2 rest e es Hin Hc Hne Hl'))
  end.
  eexists. split; [reflexivity|exact Hfs].
Qed.

Lemma populated_target_exits_without_writing_witness :
  exists w',
    Setup.setup_project Samples.work Samples.tpl EmailUtils.parseaddr
      (Samples.start (Samples.answers ["full"])) = Setup.Exit 1 w'
    /\ Setup.fs w' = Samples.disk.
Proof.
  eapply (populated_target_exits_without_writing Samples.work Samples.tpl
            (Samples.start (Samples.answers ["full"])));
    try (vm_compute; reflexivity).
Defined.

(** C7 as stated fails: the answer "missing/../full" resolves to the
    directory /work/full, which exists, holds a file and is not the
    working directory.  The script resolves the path for its comparisons
    only; the operating system, following the path as it was typed, does
    not find that directory, since /work/missing does not exist: [exists]
    is false, [mkdir] makes the missing part and then fails on the
    directory that is there.  The run ends with that exception, after a
    write, and not with the exit of line 202. *)
Lemma missing_part_is_made_before_the_failure :
  exists w',
    Setup.setup_project Samples.work Samples.tpl EmailUtils.parseaddr
      (Samples.start (Samples.answers ["missing/../full"]))
    = Setup.Raise Fs.FileExistsError w'
    /\ Setup.target_dir_of Samples.work Samples.demo_metadata "missing/../full"
       = ["work"; "full"]
    /\ Setup.path_eqb ["work"; "full"] Samples.work = false
    /\ Fs.lookup ["work"; "full"] Samples.disk
       = Some (Fs.Dir [("notes.txt", Samples.text_file "keep me")])
    /\ Fs.lookup ["work"; "missing"] Samples.disk = None
    /\ Fs.lookup ["work"; "missing"] (Setup.fs w') = Some (Fs.Dir []).
Proof.
  eexists. split; [vm_compute; reflexivity|]. repeat split; vm_compute; reflexivity.
Qed.

(** C1. Run from the template checkout with the working directory as
    target and "yes" as the second confirmation: the run does not go on in
    place, it stops at the non-empty guard with exit status 1, and nothing
    is written. *)
Theorem in_place_run_stops_at_nonempty_guard :
  Setup.setup_project Samples.tpl Samples.tpl EmailUtils.parseaddr
    (Samples.start (Samples.answers ["."; "yes"]))
  = Setup.Exit 1
      {| Setup.fs := Samples.disk;
         Setup.stdin := [];
         Setup.stdout :=
           [ Walk.MsgBanner;
             Walk.MsgSummary "demo-app" "demo_app" "DemoApp"
               "A Python project: demo-app" "Your Name"
               "your.email@example.com" "yourusername";
             Walk.MsgCurrentDirectory;
             Walk.MsgNotEmpty Samples.tpl ] |}.
Proof. vm_compute. reflexivity. Qed.


(** ** Tree Materializer *)

Section Materializer.

Import Fs Setup.
Local Open Scope run_scope.

Lemma keeps_dirs_ret A (a : A) : keeps_dirs (ret a).
Proof. intros w q H. exact H. Qed.

Lemma keeps_dirs_raise A e : keeps_dirs (@raise A e).
Proof. intros w q H. exact H. Qed.

Lemma keeps_dirs_get_fs : keeps_dirs get_fs.
Proof. intros w q H. exact H. Qed.

Lemma keeps_dirs_bind A B (c : M A) (k : A -> M B) :
  keeps_dirs c -> (forall a, keeps_dirs (k a)) -> keeps_dirs (bind c k).
Proof.
  intros Hc Hk w q H. unfold bind. specialize (Hc w q H).
  destruct (c w) as [a w'|code w'|e w']; simpl in *; [|assumption..].
  now apply Hk.
Qed.

Lemma keeps_dirs_try_except A (c : M A) (h : exn -> M A) :
  keeps_dirs c -> (forall e, keeps_dirs (h e)) -> keeps_dirs (try_except c h).
Proof.
  intros Hc Hh w q H. unfold try_except. specialize (Hc w q H).
  destruct (c w) as [a w'|code w'|e w']; simpl in *; [assumption..|].
  now apply Hh.
Qed.

Lemma keeps_dirs_fs_call op :
  (forall root root' q,
      op root = inr root' -> dir_at q (Some root) -> dir_at q (Some root')) ->
  keeps_dirs (fs_call op).
Proof.
  intros Hop w q H. unfold fs_call.
  destruct (op (fs w)) as [e|n] eqn:E; simpl; [exact H|].
  exact (Hop _ _ _ E H).
Qed.

Lemma keeps_dirs_makedirs exist_ok p : keeps_dirs (fs_call (makedirs exist_ok p)).
Proof.
  apply keeps_dirs_fs_call. intros root root' q H.
  exact (makedirs_at_keeps_dirs _ _ _ _ _ H).
Qed.

Lemma keeps_dirs_copy2 src dst : keeps_dirs (copy2 src dst).
Proof.
  unfold copy2. apply keeps_dirs_bind; [apply keeps_dirs_get_fs|]. intros root.
  cbv zeta. destruct (lookup src root) as [[f|es]|]; try apply keeps_dirs_raise.
  destruct (path_eqb _ _); [apply keeps_dirs_raise|].
  destruct (may_read f); [|apply keeps_dirs_raise].
  apply keeps_dirs_fs_call. intros r r' q H. exact (write_file_keeps_dirs _ _ _ _ _ H).
Qed.

Lemma copytree_step depth' ignore dirs_exist_ok src dst :
  copytree (S depth') ignore dirs_exist_ok src dst
  = (root <- get_fs ;;
     match scandir src root with
     | inl e => raise e
     | inr entries =>
         fs_call (makedirs dirs_exist_ok dst) ;;
         errors <- copy_entries depth' ignore dirs_exist_ok src dst entries [] ;;
         match errors with
         | [] => ret tt
         | _ => raise (ShutilError errors)
         end
     end).
Proof. reflexivity. Qed.

Lemma keeps_dirs_copy_entries depth' ignore dirs_exist_ok src dst :
  (forall s d, keeps_dirs (copytree depth' ignore dirs_exist_ok s d)) ->
  forall l errors,
    keeps_dirs (copy_entries depth' ignore dirs_exist_ok src dst l errors).
Proof.
  intros IH. induction l as [|[name isdir] l IHl]; intros errors.
  - apply keeps_dirs_ret.
  - simpl. destruct (ignore name); [apply IHl|].
    apply keeps_dirs_bind; [|intros noted; apply IHl].
    apply keeps_dirs_try_except.
    + apply keeps_dirs_bind; [|intros; apply keeps_dirs_ret].
      destruct isdir; [apply IH|apply keeps_dirs_copy2].
    + intros e. destruct e; first [apply keeps_dirs_ret|apply keeps_dirs_raise].
Qed.

(** Copying never removes a directory. *)
Lemma keeps_dirs_copytree depth ignore dirs_exist_ok :
  forall src dst, keeps_dirs (copytree depth ignore dirs_exist_ok src dst).
Proof.
  induction depth as [|depth IH]; intros src dst; [apply keeps_dirs_raise|].
  rewrite copytree_step.
  apply keeps_dirs_bind; [apply keeps_dirs_get_fs|]. intros root.
  destruct (scandir src root); [apply keeps_dirs_raise|].
  apply keeps_dirs_bind; [apply keeps_dirs_makedirs|]. intros _.
  apply keeps_dirs_bind; [now apply keeps_dirs_copy_entries|].
  intros [|]; [apply keeps_dirs_ret|apply keeps_dirs_raise].
Qed.

(** A copy that returns has made its destination. *)
Lemma copytree_makes_destination depth ignore dirs_exist_ok src dst w w' :
  copytree depth ignore dirs_exist_ok src dst w = Ok tt w' ->
  dir_at dst (Some (fs w')).
Proof.
  destruct depth as [|depth]; [discriminate|].
  rewrite copytree_step. unfold bind at 1. unfold get_fs.
  destruct (scandir src (fs w)); [discriminate|].
  unfold bind at 1. unfold fs_call at 1.
  destruct (makedirs dirs_exist_ok dst (fs w)) as [e|n] eqn:Em; [discriminate|].
  apply makedirs_at_makes in Em.
  set (w1 := {| fs := n; stdin := stdin w; stdout := stdout w |}).
  pose proof (keeps_dirs_copy_entries depth ignore dirs_exist_ok src dst
                (keeps_dirs_copytree depth ignore dirs_exist_ok) l [] w1 dst Em) as K.
  unfold bind.
  destruct (copy_entries depth ignore dirs_exist_ok src dst l [] w1)
    as [errors w2|code w2|e w2]; try discriminate.
  destruct errors; [|discriminate]. intros [= <-]. exact K.
Qed.

End Materializer.

(** ** The module-directory fix *)

Section ModuleDirectory.

Import Fs Setup.
Local Open Scope run_scope.

Lemma split_without_separator p sep s :
  Str.forallb p s = true -> p sep = false -> Str.split sep s = [s].
Proof.
  intros Hs Hsep. induction s as [|c s IH]; [reflexivity|].
  simpl in Hs. apply andb_true_iff in Hs as [Hc Hs]. simpl.
  destruct (Ascii.eqb_spec c sep) as [->|_]; [congruence|].
  now rewrite (IH Hs).
Qed.

Lemma join_from_relative (c : ascii) (rest : string) (base : path) :
  Ascii.eqb c "/" = false -> join_from base (String c rest) = base.
Proof.
  destruct c as [[] [] [] [] [] [] [] []]; simpl; intros H;
    first [reflexivity | discriminate H].
Qed.

(** A derived module identifier is one path component, or empty. *)
Lemma join_module_name base m :
  Str.forallb Ident.is_module_char m = true ->
  join base m = if String.eqb m "" then base else (base ++ [m])%list.
Proof.
  intros H. unfold join.
  rewrite (split_without_separator Ident.is_module_char "/" m H eq_refl).
  destruct m as [|c m']; [reflexivity|].
  pose proof H as H'. simpl in H'. apply andb_true_iff in H' as [Hc Hm'].
  rewrite join_from_relative.
  2:{ destruct (Ascii.eqb_spec c "/") as [->|]; [discriminate Hc|reflexivity]. }
  simpl fold_left. unfold step.
  replace (String.eqb (String c m') "") with false by reflexivity.
  assert (Hdot : Ascii.eqb c "." = false).
  { destruct (Ascii.eqb_spec c ".") as [->|]; [discriminate Hc|reflexivity]. }
  assert (E1 : String.eqb (String c m') "." = false).
  { simpl. now rewrite Hdot. }
  assert (E2 : String.eqb (String c m') ".." = false).
  { simpl. now rewrite Hdot. }
  rewrite E1, E2. reflexivity.
Qed.

Lemma placeholder_not_below_module src_dir m :
  Str.forallb Ident.is_module_char m = true ->
  ~ below (join src_dir "{{MODULE_NAME}}") (join src_dir m).
Proof.
  intros H [t Ht]. rewrite (join_module_name _ _ H) in Ht.
  change (join src_dir "{{MODULE_NAME}}") with (src_dir ++ ["{{MODULE_NAME}}"])%list in Ht.
  rewrite <- List.app_assoc in Ht.
  destruct (String.eqb m "") eqn:E.
  - rewrite <- (List.app_nil_r src_dir) in Ht at 1.
    apply List.app_inv_head in Ht. discriminate.
  - apply List.app_inv_head in Ht. injection Ht as -> _. discriminate H.
Qed.

Variable template_dir : path.

(** The directory-exists check short-circuits. *)
Lemma fix_src_layout_noop target m w :
  lookup (join (join target "src") m) (fs w) <> None ->
  fix_src_layout template_dir target m w = Ok tt w.
Proof.
  intros H. unfold fix_src_layout, bind, exists_.
  destruct (lookup (join (join target "src") m) (fs w)); [reflexivity|contradiction].
Qed.

Lemma dir_at_lookup q n : dir_at q (Some n) -> lookup q n <> None.
Proof. simpl. destruct (lookup q n); [discriminate|contradiction]. Qed.

(** A run that returns leaves the module directory in place. *)
Lemma fix_src_layout_makes target m w w1 :
  ~ below (join (join target "src") "{{MODULE_NAME}}") (join (join target "src") m) ->
  fix_src_layout template_dir target m w = Ok tt w1 ->
  lookup (join (join target "src") m) (fs w1) <> None.
Proof.
  intros Hb. unfold fix_src_layout.
  set (new := join (join target "src") m) in *.
  set (old := join (join target "src") "{{MODULE_NAME}}") in *.
  unfold bind, exists_, fs_call, ret.
  destruct (lookup new (fs w)) eqn:El; cbv [negb]; cbv beta iota.
  - intros [= <-]. rewrite El. discriminate.
  - destruct (makedirs true (removelast new) (fs w)) as [e|n2]; [discriminate|].
    match goal with
    | |- context [copytree ?d ?i ?o ?s new ?w2] =>
        destruct (copytree d i o s new w2) as [[] w3|c w3|e w3] eqn:Ec;
          try discriminate
    end.
    apply copytree_makes_destination in Ec.
    destruct (lookup old (fs w3)).
    + destruct (rmtree old (fs w3)) as [e|n'] eqn:Er; [discriminate|].
      intros [= <-]. simpl fs. apply dir_at_lookup.
      exact (rmtree_keeps_elsewhere _ _ _ _ Er Hb Ec).
    + intros [= <-]. now apply dir_at_lookup.
Qed.

End ModuleDirectory.

(** C6. The module-directory fix is idempotent: where
    <target>/src/<module identifier> exists the step does nothing and
    raises nothing; after a first run that returned it does exist, so a
    second run leaves the tree as the first one left it. *)
Theorem module_directory_fix_idempotent
    (template_dir target : Fs.path) (name : string) (w w1 : Setup.world) :
  (forall m w0,
      Fs.lookup (Setup.join (Setup.join target "src") m) (Setup.fs w0) <> None ->
      Setup.fix_src_layout template_dir target m w0 = Setup.Ok tt w0)
  /\ (Setup.fix_src_layout template_dir target (Ident.module_name_of name) w
      = Setup.Ok tt w1 ->
      Fs.lookup (Setup.join (Setup.join target "src") (Ident.module_name_of name))
        (Setup.fs w1) <> None
      /\ Setup.fix_src_layout template_dir target (Ident.module_name_of name) w1
         = Setup.Ok tt w1).
Proof.
  split; [intros m w0; apply fix_src_layout_noop|].
  intros H.
  assert (Hdir : Fs.lookup (Setup.join (Setup.join target "src")
                              (Ident.module_name_of name)) (Setup.fs w1) <> None).
  { eapply fix_src_layout_makes; [|exact H].
    apply placeholder_not_below_module.
    apply (module_name_shape name). }
  split; [exact Hdir|]. now apply fix_src_layout_noop.
Qed.

Lemma module_directory_fix_idempotent_witness :
  exists w1,
    Setup.fix_src_layout Samples.tpl Samples.tpl (Ident.module_name_of "demo-app")
      (Samples.start []) = Setup.Ok tt w1
    /\ Fs.lookup ["work"; "tpl"; "src"; "demo_app"] (Setup.fs w1) <> None
    /\ Fs.lookup ["work"; "tpl"; "src"; "{{MODULE_NAME}}"] (Setup.fs w1) = None
    /\ Setup.fix_src_layout Samples.tpl Samples.tpl (Ident.module_name_of "demo-app") w1
       = Setup.Ok tt w1.
Proof.
  eexists. split; [vm_compute; reflexivity|].
  split; [vm_compute; discriminate|].
  split; [vm_compute; reflexivity|].
  apply (proj2 (module_directory_fix_idempotent Samples.tpl Samples.tpl "demo-app"
                  (Samples.start []) _)).
  vm_compute. reflexivity.
Defined.

(** ** Literal substitution on template text *)

Section SubstFacts.

Import Subst.

Lemma append_assoc (a b c : string) : ((a ++ b) ++ c = a ++ (b ++ c))%string.
Proof. induction a as [|x a IH]; simpl; [reflexivity|now rewrite IH]. Qed.

Lemma append_empty_r (a : string) : (a ++ "")%string = a.
Proof. induction a as [|x a IH]; simpl; [reflexivity|now rewrite IH]. Qed.

Lemma render_app ps qs : render (ps ++ qs)%list = (render ps ++ render qs)%string.
Proof.
  induction ps as [|[c|k] ps IH]; simpl; [reflexivity|now rewrite IH|].
  now rewrite IH, append_assoc.
Qed.

Lemma render_chars s : render (chars s) = s.
Proof. induction s as [|c s IH]; simpl; [reflexivity|now rewrite IH]. Qed.

Lemma chars_ok s : brace_free s -> Forall piece_ok (chars s).
Proof.
  unfold brace_free. induction s as [|c s IH]; simpl; intros H; [constructor|].
  apply andb_true_iff in H as [Hc Hs]. constructor; [|auto].
  simpl. now apply negb_true_iff.
Qed.

Lemma brace_free_templated s : brace_free s -> templated s.
Proof. intros H. exists (chars s). split; [now apply chars_ok|now rewrite render_chars]. Qed.

Lemma brace_free_app a b : brace_free a -> brace_free b -> brace_free (a ++ b).
Proof.
  unfold brace_free. induction a as [|c a IH]; simpl; intros Ha Hb; [exact Hb|].
  apply andb_true_iff in Ha as [Hc Ha]. rewrite Hc. simpl. auto.
Qed.

(** Every token opens with a brace. *)
Lemma token_opens k : In k tokens -> exists k1, k = String "{" k1.
Proof.
  unfold tokens. simpl. intros H.
  repeat (destruct H as [<-|H]; [eexists; reflexivity|]). contradiction.
Qed.

Lemma prefix_needs_brace k1 c r :
  c <> "{"%char -> Str.starts_with (String "{" k1) (String c r) = false.
Proof.
  intros H. cbn [Str.starts_with].
  destruct (Ascii.eqb_spec "{" c) as [E|_]; [congruence|reflexivity].
Qed.

Lemma not_brace c : is_brace c = false -> c <> "{"%char.
Proof. intros H ->. discriminate H. Qed.

Lemma replace_token k v s : In k tokens -> replace k v s = replace_from k v 0 s.
Proof. intros H. apply token_opens in H as [k1 ->]. reflexivity. Qed.

Lemma replace_from_chr k v c r :
  In k tokens -> is_brace c = false ->
  replace_from k v 0 (String c r) = String c (replace_from k v 0 r).
Proof.
  intros H Hc. apply token_opens in H as [k1 ->].
  cbn [replace_from]. now rewrite (prefix_needs_brace _ _ _ (not_brace _ Hc)).
Qed.

(** The replaced token is passed over as a whole. *)
Lemma replace_from_hit k v r :
  In k tokens -> replace_from k v 0 (k ++ r) = (v ++ replace_from k v 0 r)%string.
Proof.
  unfold tokens. simpl. intros H.
  repeat (destruct H as [<-|H]; [reflexivity|]). contradiction.
Qed.

(** Another token is copied as it is. *)
Lemma replace_from_other k k' v r :
  In k tokens -> In k' tokens -> k <> k' ->
  replace_from k v 0 (k' ++ r) = (k' ++ replace_from k v 0 r)%string.
Proof.
  unfold tokens. simpl. intros H H' Hne.
  repeat (destruct H as [<-|H]; [|]);
    try contradiction;
    repeat (destruct H' as [<-|H']; [|]);
    try contradiction;
    first [reflexivity | now contradiction Hne].
Qed.

Lemma replace_render k v ps :
  In k tokens -> Forall piece_ok ps ->
  replace k v (render ps) = render (expand k v ps).
Proof.
  intros Hk Hps. rewrite (replace_token _ _ _ Hk).
  induction Hps as [|p ps Hp Hps IH]; [reflexivity|].
  destruct p as [c|k'].
  - change (render (Chr c :: ps)) with (String c (render ps)).
    rewrite (replace_from_chr _ _ _ _ Hk Hp). now rewrite IH.
  - change (render (Tok k' :: ps)) with (k' ++ render ps)%string.
    change (expand k v (Tok k' :: ps))
      with (expand1 k v (Tok k') ++ expand k v ps)%list.
    rewrite render_app, <- IH. cbn [expand1].
    destruct (String.eqb_spec k' k) as [->|Hne].
    + rewrite render_chars. now apply replace_from_hit.
    + change (render [Tok k']) with (k' ++ "")%string. rewrite append_empty_r.
      apply replace_from_other; auto.
Qed.

Lemma expand_ok k v ps :
  brace_free v -> Forall piece_ok ps -> Forall piece_ok (expand k v ps).
Proof.
  intros Hv Hps. unfold expand. induction Hps as [|[c|k'] ps Hp Hps IH]; simpl.
  - constructor.
  - constructor; assumption.
  - apply Forall_app. split; [|exact IH].
    destruct (String.eqb k' k); [now apply chars_ok|]. constructor; [exact Hp|constructor].
Qed.

Lemma apply_all_render t :
  plain_table t ->
  forall ps, Forall piece_ok ps ->
    apply_all t (render ps) = render (expand_all t ps)
    /\ Forall piece_ok (expand_all t ps).
Proof.
  intros [Hk Hv]. unfold apply_all, expand_all.
  induction t as [|[k v] t IH]; intros ps Hps; [now split|].
  inversion Hk as [|? ? Hk1 Hk2]; subst. inversion Hv as [|? ? Hv1 Hv2]; subst.
  simpl in *. rewrite (replace_render _ _ _ Hk1 Hps).
  apply (IH Hk2 Hv2). now apply expand_ok.
Qed.

Lemma flat_map_flat_map {A B C} (f : A -> list B) (g : B -> list C) l :
  flat_map g (flat_map f l) = flat_map (fun x => flat_map g (f x)) l.
Proof.
  induction l as [|x l IH]; simpl; [reflexivity|].
  now rewrite flat_map_app, IH.
Qed.

Lemma resolve_chars t s : flat_map (resolve1 t) (chars s) = chars s.
Proof. induction s as [|c s IH]; simpl; [reflexivity|now rewrite IH]. Qed.

(** The replacements in table order amount to resolving every token to
    its first value. *)
Lemma expand_all_resolve t ps : expand_all t ps = flat_map (resolve1 t) ps.
Proof.
  unfold expand_all. revert ps. induction t as [|[k v] t IH]; intros ps.
  - simpl. induction ps as [|[c|k] ps IHps]; simpl; [reflexivity|now f_equal..].
  - simpl. rewrite IH. unfold expand. rewrite flat_map_flat_map.
    apply flat_map_ext. intros [c|k']; simpl; [reflexivity|].
    destruct (String.eqb k' k); [apply resolve_chars|]. simpl.
    now rewrite List.app_nil_r.
Qed.

Lemma value_of_in k t :
  In k (keys t) -> exists v, value_of k t = Some v /\ In (k, v) t.
Proof.
  induction t as [|[k' v'] t IH]; simpl; [contradiction|].
  destruct (String.eqb_spec k k') as [->|Hne].
  - intros _. exists v'. split; [reflexivity|now left].
  - intros [E|H]; [congruence|]. destruct (IH H) as (v & Hv & Hin).
    exists v. split; [exact Hv|now right].
Qed.

(** With every token in the table, nothing but brace-free text is left. *)
Lemma resolved_brace_free t ps :
  values_brace_free t -> incl tokens (keys t) ->
  Forall piece_ok ps -> brace_free (render (flat_map (resolve1 t) ps)).
Proof.
  intros Hv Hall Hps. induction Hps as [|[c|k] ps Hp Hps IH]; simpl.
  - reflexivity.
  - unfold brace_free in *. simpl in *. now rewrite Hp, IH.
  - simpl in Hp. destruct (value_of_in k t (Hall _ Hp)) as (v & -> & Hin).
    rewrite render_app, render_chars. apply brace_free_app; [|exact IH].
    unfold values_brace_free in Hv. rewrite Forall_forall in Hv. exact (Hv _ Hin).
Qed.

Lemma brace_free_no_occurrence k s :
  In k tokens -> brace_free s -> occurs k s = false.
Proof.
  intros Hk. apply token_opens in Hk as [k1 ->]. unfold brace_free.
  induction s as [|c s IH]; intros H; [reflexivity|].
  simpl in H. apply andb_true_iff in H as [Hc Hs]. apply negb_true_iff in Hc.
  change (occurs (String "{" k1) (String c s))
    with (Str.starts_with (String "{" k1) (String c s) || occurs (String "{" k1) s).
  rewrite (prefix_needs_brace _ _ _ (not_brace _ Hc)). simpl. auto.
Qed.

Lemma brace_free_token_free s : brace_free s -> token_free s.
Proof. intros H k Hk. now apply brace_free_no_occurrence. Qed.

Lemma apply_all_brace_free t s :
  full_table t -> templated s -> brace_free (apply_all t s).
Proof.
  intros [Hp Hall] (ps & Hps & ->).
  destruct (apply_all_render t Hp ps Hps) as [-> _].
  rewrite expand_all_resolve. apply resolved_brace_free; auto. apply Hp.
Qed.

Lemma apply_all_fixes_brace_free t s :
  plain_table t -> brace_free s -> apply_all t s = s.
Proof.
  intros Hp Hs.
  rewrite <- (render_chars s) at 1.
  destruct (apply_all_render t Hp (chars s) (chars_ok s Hs)) as [-> _].
  now rewrite expand_all_resolve, resolve_chars, render_chars.
Qed.

End SubstFacts.

(** ** Order of the replacements *)

Section Order.

Import Subst.

Lemma in_keys k v (t : table) : In (k, v) t -> In k (keys t).
Proof. intros H. apply (in_map fst) in H. exact H. Qed.

Lemma value_of_some k v t : value_of k t = Some v -> In (k, v) t.
Proof.
  induction t as [|[k' v'] t IH]; simpl; [discriminate|].
  destruct (String.eqb_spec k k') as [->|_].
  - intros [= ->]. now left.
  - intros H. right. auto.
Qed.

Lemma value_of_first k v t :
  NoDup (keys t) -> In (k, v) t -> value_of k t = Some v.
Proof.
  induction t as [|[k' v'] t IH]; simpl; [contradiction|].
  intros Hnd. inversion Hnd as [|? ? Hnot Hnd']; subst.
  intros [[= -> ->]|H].
  - now rewrite String.eqb_refl.
  - destruct (String.eqb_spec k k') as [->|_]; [|auto].
    exfalso. apply Hnot. now apply in_keys in H.
Qed.

(** With distinct keys the value of a key does not depend on the order
    of the entries. *)
Lemma value_of_permutation t t' k :
  NoDup (keys t) -> Permutation t t' -> value_of k t' = value_of k t.
Proof.
  intros Hnd Hp.
  assert (Hnd' : NoDup (keys t')).
  { eapply Permutation_NoDup; [|exact Hnd]. now apply Permutation_map. }
  destruct (value_of k t) as [v|] eqn:E.
  - apply value_of_first; [exact Hnd'|].
    eapply Permutation_in; [exact Hp|]. now apply value_of_some.
  - destruct (value_of k t') as [v'|] eqn:E'; [|reflexivity].
    apply value_of_some in E'.
    apply (Permutation_in _ (Permutation_sym Hp)) in E'.
    apply (value_of_first _ _ _ Hnd) in E'. congruence.
Qed.

Lemma plain_table_permutation t t' :
  Permutation t t' -> plain_table t -> plain_table t'.
Proof.
  intros Hp [Hk Hv]. split.
  - eapply Permutation_Forall; [|exact Hk]. now apply Permutation_map.
  - eapply Permutation_Forall; [exact Hp|exact Hv].
Qed.

Lemma apply_all_order t t' s :
  plain_table t -> NoDup (keys t) -> Permutation t t' -> templated s ->
  apply_all t' s = apply_all t s.
Proof.
  intros Hpl Hnd Hp (ps & Hps & ->).
  destruct (apply_all_render t Hpl ps Hps) as [-> _].
  destruct (apply_all_render t' (plain_table_permutation _ _ Hp Hpl) ps Hps) as [-> _].
  rewrite !expand_all_resolve. f_equal. apply flat_map_ext.
  intros [c|k]; simpl; [reflexivity|].
  now rewrite (value_of_permutation t t' k Hnd Hp).
Qed.

Lemma keys_replacements_of m : keys (Setup.replacements_of m) = tokens.
Proof. reflexivity. Qed.

Lemma tokens_distinct : NoDup tokens.
Proof.
  unfold tokens.
  repeat (constructor; [simpl; intros H;
                        repeat (destruct H as [H|H]; [discriminate H|]);
                        exact H|]).
  constructor.
Qed.

Lemma replacements_full m :
  values_brace_free (Setup.replacements_of m) -> full_table (Setup.replacements_of m).
Proof.
  intros Hv. repeat split.
  - rewrite keys_replacements_of. apply Forall_forall. auto.
  - exact Hv.
  - rewrite keys_replacements_of. apply incl_refl.
Qed.

End Order.

(** C9, as the code has it.  The order of the seven replacements does not
    matter when no replacement value holds a brace and the name is built
    from brace-free text and whole placeholder tokens: any permutation of
    the table then gives the same string as the table's own order. *)
Theorem replacement_order_irrelevant_on_template_names
    (m : Setup.metadata) (t' : Subst.table) (s : string) :
  Subst.values_brace_free (Setup.replacements_of m) ->
  Subst.templated s ->
  Permutation (Setup.replacements_of m) t' ->
  Subst.apply_all t' s = Subst.apply_all (Setup.replacements_of m) s.
Proof.
  intros Hv Hs Hp. apply apply_all_order; auto.
  - apply (replacements_full m Hv).
  - rewrite keys_replacements_of. apply tokens_distinct.
Qed.

(** C9 as stated fails: with the description "{{PROJECT_NAME}}", which the
    prompt accepts, the table's order leaves the token in the name
    "{{PROJECT_DESCRIPTION}}" while the reversed order resolves it. *)
Lemma replacement_order_matters_for_token_values :
  exists m w,
    Setup.collect_metadata check_email
      (Samples.start Samples.answers_token_description) = Setup.Ok m w
    /\ Permutation (Setup.replacements_of m) (List.rev (Setup.replacements_of m))
    /\ Subst.apply_all (Setup.replacements_of m) "{{PROJECT_DESCRIPTION}}"
       = "{{PROJECT_NAME}}"
    /\ Subst.apply_all (List.rev (Setup.replacements_of m)) "{{PROJECT_DESCRIPTION}}"
       = "demo-app".
Proof.
  eexists. eexists. split; [vm_compute; reflexivity|].
  split; [apply Permutation_rev|]. split; vm_compute; reflexivity.
Qed.

Lemma demo_values_brace_free :
  Subst.values_brace_free (Setup.replacements_of Samples.demo_metadata).
Proof. repeat (constructor; [reflexivity|]). constructor. Qed.

Lemma replacement_order_irrelevant_on_template_names_witness :
  Subst.values_brace_free (Setup.replacements_of Samples.demo_metadata)
  /\ Subst.templated "{{MODULE_NAME}}_config.py"
  /\ Subst.apply_all (List.rev (Setup.replacements_of Samples.demo_metadata))
       "{{MODULE_NAME}}_config.py"
     = Subst.apply_all (Setup.replacements_of Samples.demo_metadata)
         "{{MODULE_NAME}}_config.py".
Proof.
  assert (Ht : Subst.templated "{{MODULE_NAME}}_config.py").
  { exists (Subst.Tok "{{MODULE_NAME}}" :: Subst.chars "_config.py").
    split; [|reflexivity].
    constructor; [simpl; auto 10|apply chars_ok; reflexivity]. }
  split; [exact demo_values_brace_free|]. split; [exact Ht|].
  apply (replacement_order_irrelevant_on_template_names Samples.demo_metadata).
  - repeat (constructor; [reflexivity|]). constructor.
  - exact Ht.
  - apply Permutation_rev.
Defined.

(** ** Tokens and open braces

    Text that holds braces of its own: what the loop needs is that no
    token starts inside an open pair of braces. *)

Section Unnested.

Import Subst.

Lemma occurs_cons k c s :
  occurs k (String c s) = Str.starts_with k (String c s) || occurs k s.
Proof. reflexivity. Qed.

Lemma replace_absent k v s : occurs k s = false -> replace k v s = s.
Proof.
  intros H. unfold replace.
  destruct k as [|a k']; [destruct s; discriminate H|].
  change (String.eqb (String a k') "") with false. cbv iota.
  induction s as [|c s IH]; [reflexivity|].
  rewrite occurs_cons in H. apply orb_false_iff in H as [H1 H2].
  change (replace_from (String a k') v 0 (String c s))
    with (if Str.starts_with (String a k') (String c s)
          then v ++ replace_from (String a k') v (String.length (String a k') - 1) s
          else String c (replace_from (String a k') v 0 s)).
  rewrite H1. f_equal. exact (IH H2).
Qed.

Lemma apply_all_absent t s : no_key_occurs t s -> apply_all t s = s.
Proof.
  unfold no_key_occurs, apply_all. intros H.
  induction H as [|[k v] t Hk Ht IH]; [reflexivity|].
  simpl in *. rewrite (replace_absent _ _ _ Hk). exact IH.
Qed.

Lemma starts_with_cons a p c s :
  Str.starts_with (String a p) (String c s) = Ascii.eqb a c && Str.starts_with p s.
Proof. reflexivity. Qed.

Lemma starts_with_split k s :
  Str.starts_with k s = true -> exists r, s = (k ++ r)%string.
Proof.
  revert s. induction k as [|a k IH]; intros s H; [now exists s|].
  destruct s as [|c s]; [discriminate|].
  rewrite starts_with_cons in H. apply andb_true_iff in H as [Ha Hk].
  apply Ascii.eqb_eq in Ha as ->. destruct (IH s Hk) as [r ->]. now exists r.
Qed.

Lemma length_append a b : String.length (a ++ b)%string = String.length a + String.length b.
Proof. induction a as [|c a IH]; simpl; [reflexivity|now rewrite IH]. Qed.

(** A token is [{{], a name without braces, and [}}]. *)
Lemma token_shape k :
  In k tokens ->
  exists name, k = String "{" (String "{" (name ++ "}}")) /\ brace_free name.
Proof.
  unfold tokens. simpl.
  intros [<-|[<-|[<-|[<-|[<-|[<-|[<-|[]]]]]]]];
    [exists "PROJECT_NAME"|exists "MODULE_NAME"|exists "PROJECT_DESCRIPTION"
    |exists "AUTHOR_NAME"|exists "AUTHOR_EMAIL"|exists "GITHUB_USERNAME"
    |exists "MAIN_CLASS"]; split; reflexivity.
Qed.

Lemma token_at_false s k :
  token_at s = false -> In k tokens -> Str.starts_with k s = false.
Proof.
  intros H Hk. destruct (Str.starts_with k s) eqn:E; [|reflexivity].
  assert (Ht : token_at s = true) by (apply existsb_exists; exists k; auto).
  congruence.
Qed.

Lemma token_at_intro s :
  (forall k, In k tokens -> Str.starts_with k s = false) -> token_at s = false.
Proof.
  intros H. destruct (token_at s) eqn:E; [|reflexivity].
  apply existsb_exists in E as (k & Hk & Hs). rewrite (H k Hk) in Hs. discriminate.
Qed.

Lemma token_at_plain c s : c <> "{"%char -> token_at (String c s) = false.
Proof.
  intros Hc. apply token_at_intro. intros k Hk.
  apply token_opens in Hk as [k1 ->]. now apply prefix_needs_brace.
Qed.

(** Every text is a list of pieces that shows all its tokens. *)
Lemma parse_exists s : exists ps, s = render ps /\ parsed ps.
Proof.
  assert (H : forall n s, String.length s <= n -> exists ps, s = render ps /\ parsed ps).
  { clear s. induction n as [|n IH]; intros s Hn.
    - destruct s; [|simpl in Hn; lia]. now exists [].
    - destruct s as [|c s]; [now exists []|].
      destruct (token_at (String c s)) eqn:E.
      + apply existsb_exists in E as (k & Hk & Hs).
        destruct (starts_with_split _ _ Hs) as [r Hr].
        destruct (token_opens k Hk) as [k1 ->].
        assert (Hlen : String.length r <= n).
        { apply (f_equal String.length) in Hr. rewrite length_append in Hr.
          simpl in Hr, Hn. lia. }
        destruct (IH r Hlen) as (ps & -> & Hps).
        exists (Tok (String "{" k1) :: ps). split; [exact Hr|]. now split.
      + simpl in Hn. destruct (IH s) as (ps & -> & Hps); [lia|].
        exists (Chr c :: ps). split; [reflexivity|]. now split. }
  exact (H (String.length s) s (le_n _)).
Qed.

Lemma scan_token k st r :
  In k tokens ->
  scan st (k ++ r)%string = negb (is_open st) && scan NoBrace r.
Proof.
  unfold tokens. simpl.
  intros [<-|[<-|[<-|[<-|[<-|[<-|[<-|[]]]]]]]]; destruct st; reflexivity.
Qed.

Lemma scan_guarded ps :
  forall st, parsed ps -> scan st (render ps) = true -> guarded st ps.
Proof.
  induction ps as [|[c|k] ps IH]; intros st Hp Hs; [exact I| |].
  - destruct Hp as [_ Hp]. simpl in Hs. apply andb_true_iff in Hs as [_ Hs].
    simpl. now apply IH.
  - destruct Hp as [Hk Hp]. change (render (Tok k :: ps)) with (k ++ render ps)%string in Hs.
    rewrite (scan_token _ _ _ Hk) in Hs. apply andb_true_iff in Hs as [Ho Hs].
    apply negb_true_iff in Ho. split; [exact Ho|]. now apply IH.
Qed.


Lemma replace_from_miss k v c r :
  Str.starts_with k (String c r) = false ->
  replace_from k v 0 (String c r) = String c (replace_from k v 0 r).
Proof. intros H. cbn [replace_from]. now rewrite H. Qed.

Lemma expand_cons k v p ps : expand k v (p :: ps) = (expand1 k v p ++ expand k v ps)%list.
Proof. reflexivity. Qed.

(** On a list that shows every token, [replace] is [expand]. *)
Lemma replace_parsed k v ps :
  In k tokens -> parsed ps ->
  replace k v (render ps) = render (expand k v ps).
Proof.
  intros Hk. rewrite (replace_token _ _ _ Hk).
  induction ps as [|[c|k'] ps IH]; intros Hp; [reflexivity| |].
  - destruct Hp as [Hc Hp].
    change (render (Chr c :: ps)) with (String c (render ps)).
    rewrite (replace_from_miss _ _ _ _ (token_at_false _ _ Hc Hk)).
    rewrite (IH Hp). reflexivity.
  - destruct Hp as [Hk' Hp].
    change (render (Tok k' :: ps)) with (k' ++ render ps)%string.
    rewrite expand_cons, render_app, <- (IH Hp). cbn [expand1].
    destruct (String.eqb_spec k' k) as [->|Hne].
    + rewrite render_chars. now apply replace_from_hit.
    + change (render [Tok k']) with (k' ++ "")%string. rewrite append_empty_r.
      apply replace_from_other; auto.
Qed.

Lemma not_braces c :
  is_brace c = false -> Ascii.eqb c "{" = false /\ Ascii.eqb c "}" = false.
Proof. unfold is_brace. intros H. now apply orb_false_iff in H. Qed.

Lemma next_plain st c :
  is_brace c = false -> next st c = if is_open st then Within else NoBrace.
Proof.
  intros H. apply not_braces in H as [H1 H2]. unfold next. rewrite H1, H2.
  now destruct st.
Qed.

Lemma brace_free_cons c s :
  brace_free (String c s) <-> is_brace c = false /\ brace_free s.
Proof.
  unfold brace_free. simpl. rewrite andb_true_iff, negb_true_iff. reflexivity.
Qed.

Lemma parsed_chars_app v qs : brace_free v -> parsed qs -> parsed (chars v ++ qs).
Proof.
  induction v as [|c v IH]; intros Hv Hq; [exact Hq|].
  apply brace_free_cons in Hv as [Hc Hv]. simpl. split; [|auto].
  apply token_at_plain. now apply not_brace.
Qed.

Lemma guarded_plain v qs :
  brace_free v -> guarded NoBrace qs -> guarded NoBrace (chars v ++ qs).
Proof.
  induction v as [|c v IH]; intros Hv Hq; [exact Hq|].
  apply brace_free_cons in Hv as [Hc Hv]. simpl. rewrite (next_plain _ _ Hc). simpl. auto.
Qed.

(** A value without braces and not empty leaves the scan where a token
    leaves it. *)
Lemma guarded_value st v qs :
  brace_free v -> v <> "" -> is_open st = false ->
  guarded NoBrace qs -> guarded st (chars v ++ qs).
Proof.
  destruct v as [|c v]; intros Hv Hne Ho Hq; [congruence|].
  apply brace_free_cons in Hv as [Hc Hv]. simpl. rewrite (next_plain _ _ Hc), Ho.
  now apply guarded_plain.
Qed.

Section Pass.

(** One pass of the loop: the token [k] becomes [v]. *)
Variables k v : string.
Hypothesis v_plain : brace_free v.
Hypothesis v_not_empty : v <> "".

Lemma guarded_expand ps : forall st, guarded st ps -> guarded st (expand k v ps).
Proof.
  induction ps as [|[c|k'] ps IH]; intros st H; [exact I| |].
  - simpl in *. now apply IH.
  - destruct H as [Ho H]. rewrite expand_cons. cbn [expand1].
    destruct (String.eqb k' k).
    + apply guarded_value; auto.
    + simpl. split; [exact Ho|auto].
Qed.

(** Whether the text opens with a closing brace is not changed. *)
Lemma closing_brace_kept ps :
  parsed ps ->
  Str.starts_with "}" (render (expand k v ps)) = Str.starts_with "}" (render ps).
Proof.
  destruct ps as [|[c|k'] ps]; intros Hp; [reflexivity|reflexivity|].
  destruct Hp as [Hk' _]. rewrite expand_cons, render_app. cbn [expand1].
  destruct (token_opens _ Hk') as [k1 ->].
  destruct (String.eqb (String "{" k1) k).
  - rewrite render_chars. destruct v as [|c v']; [congruence|].
    apply brace_free_cons in v_plain as [Hc _]. apply not_braces in Hc as [_ Hc].
    cbn [append]. rewrite !starts_with_cons, (Ascii.eqb_sym "}" c), Hc. reflexivity.
  - reflexivity.
Qed.

(** After an open pair of braces the text is the same up to the next
    brace, so a token ends there after the pass only if it did before. *)
Lemma open_prefix_kept ps :
  forall name st,
    brace_free name -> is_open st = true -> parsed ps -> guarded st ps ->
    Str.starts_with (name ++ "}}") (render (expand k v ps))
    = Str.starts_with (name ++ "}}") (render ps).
Proof.
  induction ps as [|[c|k'] ps IH]; intros name st Hn Ho Hp Hg; [reflexivity| |].
  - destruct Hp as [_ Hp]. simpl in Hg.
    change (render (expand k v (Chr c :: ps))) with (String c (render (expand k v ps))).
    change (render (Chr c :: ps)) with (String c (render ps)).
    destruct name as [|a name].
    + change ("" ++ "}}")%string with "}}". rewrite !starts_with_cons.
      now rewrite (closing_brace_kept ps Hp).
    + change (String a name ++ "}}")%string with (String a (name ++ "}}")).
      rewrite !starts_with_cons.
      apply brace_free_cons in Hn as [Ha Hn].
      destruct (Ascii.eqb_spec a c) as [<-|_]; [|reflexivity].
      rewrite (next_plain _ _ Ha), Ho in Hg. simpl.
      exact (IH name Within Hn eq_refl Hp Hg).
  - destruct Hg as [Hc _]. congruence.
Qed.

Lemma opened_twice st : next (next st "{") "{" = TwoBraces.
Proof. now destruct st. Qed.

(** The pass makes no token where there was none. *)
Lemma no_new_token st c ps :
  parsed (Chr c :: ps) -> guarded st (Chr c :: ps) ->
  token_at (String c (render (expand k v ps))) = false.
Proof.
  intros [Hc Hp] Hg. apply token_at_intro. intros k0 Hk0.
  pose proof (token_at_false _ _ Hc Hk0) as Hold.
  destruct (token_shape _ Hk0) as (name & -> & Hname).
  rewrite starts_with_cons in *.
  destruct (Ascii.eqb_spec "{" c) as [<-|_]; [|reflexivity].
  cbn [andb] in *. simpl in Hg.
  destruct ps as [|[c2|k2] ps]; [exact Hold| |].
  - destruct Hp as [_ Hp]. simpl in Hg.
    change (render (expand k v (Chr c2 :: ps))) with (String c2 (render (expand k v ps))).
    change (render (Chr c2 :: ps)) with (String c2 (render ps)) in Hold.
    rewrite starts_with_cons. rewrite starts_with_cons in Hold.
    destruct (Ascii.eqb_spec "{" c2) as [<-|_]; [|reflexivity].
    cbn [andb] in *. rewrite opened_twice in Hg.
    now rewrite (open_prefix_kept ps name TwoBraces Hname eq_refl Hp Hg).
  - destruct Hp as [Hk2 _]. rewrite expand_cons, render_app. cbn [expand1].
    destruct (String.eqb k2 k).
    + rewrite render_chars. destruct v as [|c0 v']; [congruence|].
      apply brace_free_cons in v_plain as [Hc0 _]. apply not_braces in Hc0 as [Hc0 _].
      cbn [append]. rewrite starts_with_cons, (Ascii.eqb_sym "{" c0), Hc0. reflexivity.
    + destruct (token_shape _ Hk2) as (name2 & -> & _).
      change (render [Tok (String "{" (String "{" (name2 ++ "}}")))])
        with (String "{" (String "{" ((name2 ++ "}}") ++ ""))).
      simpl append. rewrite starts_with_cons. cbn [andb].
      destruct name as [|a name]; [reflexivity|].
      apply brace_free_cons in Hname as [Ha _]. apply not_braces in Ha as [Ha _].
      change (String a name ++ "}}")%string with (String a (name ++ "}}")).
      rewrite starts_with_cons, Ha. reflexivity.
Qed.

Lemma parsed_expand ps : forall st, parsed ps -> guarded st ps -> parsed (expand k v ps).
Proof.
  induction ps as [|[c|k'] ps IH]; intros st Hp Hg; [exact I| |].
  - change (expand k v (Chr c :: ps)) with (Chr c :: expand k v ps).
    split; [exact (no_new_token st c ps Hp Hg)|].
    destruct Hp as [_ Hp]. simpl in Hg. exact (IH _ Hp Hg).
  - destruct Hp as [Hk' Hp]. destruct Hg as [_ Hg]. rewrite expand_cons. cbn [expand1].
    destruct (String.eqb k' k).
    + apply parsed_chars_app; [exact v_plain|exact (IH _ Hp Hg)].
    + simpl. split; [exact Hk'|exact (IH _ Hp Hg)].
Qed.

End Pass.

(** The whole loop on a list that shows every token and has none inside
    an open pair of braces. *)
Lemma apply_all_parsed t :
  plain_table t -> values_not_empty t ->
  forall ps, parsed ps -> guarded NoBrace ps ->
    apply_all t (render ps) = render (expand_all t ps)
    /\ parsed (expand_all t ps).
Proof.
  intros [Hk Hv] He. unfold apply_all, expand_all.
  induction t as [|[k v] t IH]; intros ps Hp Hg; [now split|].
  inversion Hk as [|? ? Hk1 Hk2]; subst. inversion Hv as [|? ? Hv1 Hv2]; subst.
  inversion He as [|? ? He1 He2]; subst.
  simpl in *. rewrite (replace_parsed _ _ _ Hk1 Hp).
  apply (IH Hk2 Hv2 He2).
  - exact (parsed_expand k v Hv1 He1 ps NoBrace Hp Hg).
  - exact (guarded_expand k v Hv1 He1 ps NoBrace Hg).
Qed.

Lemma chars_app a b : chars (a ++ b) = (chars a ++ chars b)%list.
Proof. induction a as [|c a IH]; simpl; [reflexivity|now rewrite IH]. Qed.

(** With every token in the table, characters only are left. *)
Lemma resolved_chars t ps :
  incl tokens (keys t) -> parsed ps ->
  exists s, flat_map (resolve1 t) ps = chars s.
Proof.
  intros Hall. induction ps as [|[c|k] ps IH]; intros Hp.
  - now exists "".
  - destruct Hp as [_ Hp]. destruct (IH Hp) as [s Hs].
    exists (String c s). simpl. now rewrite Hs.
  - destruct Hp as [Hk Hp]. destruct (IH Hp) as [s Hs].
    destruct (value_of_in k t (Hall _ Hk)) as (v & Hv & _).
    exists (v ++ s)%string. simpl. now rewrite Hv, Hs, chars_app.
Qed.

Lemma parsed_chars_token_free s : parsed (chars s) -> token_free s.
Proof.
  intros Hp k Hk. induction s as [|c s IH].
  - destruct (token_opens _ Hk) as [k1 ->]. reflexivity.
  - destruct Hp as [Hc Hp]. rewrite render_chars in Hc.
    rewrite occurs_cons, (token_at_false _ _ Hc Hk). simpl. auto.
Qed.

(** A text with no token inside an open pair of braces holds no token
    after the loop, when the values hold no brace and none is empty. *)
Lemma apply_all_unnested t s :
  full_table t -> values_not_empty t -> unnested s -> token_free (apply_all t s).
Proof.
  intros [Hp Hall] He Hs. destruct (parse_exists s) as (ps & -> & Hps).
  pose proof (scan_guarded ps NoBrace Hps Hs) as Hg.
  destruct (apply_all_parsed t Hp He ps Hps Hg) as [-> Hq].
  rewrite expand_all_resolve in *.
  destruct (resolved_chars t ps Hall Hps) as [r Hr]. rewrite Hr in *.
  rewrite render_chars. now apply parsed_chars_token_free.
Qed.

(** A text without tokens is left as it is. *)
Lemma apply_all_fixes_token_free t s :
  Forall (fun k => In k tokens) (keys t) -> token_free s -> apply_all t s = s.
Proof.
  intros Hk Hs. apply apply_all_absent. unfold no_key_occurs.
  unfold keys in Hk. rewrite Forall_map in Hk. eapply Forall_impl; [|exact Hk].
  intros kv Hin. now apply Hs.
Qed.

Lemma token_free_scan s : token_free s -> forall st, scan st s = true.
Proof.
  induction s as [|c s IH]; intros H st; [reflexivity|].
  assert (Hc : token_at (String c s) = false).
  { apply token_at_intro. intros k Hk. specialize (H k Hk).
    rewrite occurs_cons in H. now apply orb_false_iff in H. }
  assert (Hs : token_free s).
  { intros k Hk. specialize (H k Hk). rewrite occurs_cons in H.
    now apply orb_false_iff in H. }
  change (scan st (String c s))
    with ((negb (token_at (String c s)) || negb (is_open st)) && scan (next st c) s).
  rewrite Hc. simpl. auto.
Qed.

Lemma token_free_unnested s : token_free s -> unnested s.
Proof. intros H. now apply token_free_scan. Qed.

(** Template text is a case of it. *)
Lemma templated_guarded ps : Forall piece_ok ps -> parsed ps /\ guarded NoBrace ps.
Proof.
  induction 1 as [|[c|k] ps Hp Hps [IH1 IH2]]; [now split| |].
  - simpl in Hp. split.
    + split; [|exact IH1]. apply token_at_plain. now apply not_brace.
    + simpl. now rewrite (next_plain _ _ Hp).
  - simpl in Hp. split; simpl; auto.
Qed.

Lemma guarded_scan ps :
  forall st, parsed ps -> guarded st ps -> scan st (render ps) = true.
Proof.
  induction ps as [|[c|k] ps IH]; intros st Hp Hg; [reflexivity| |].
  - destruct Hp as [Hc Hp]. simpl in Hg.
    change (render (Chr c :: ps)) with (String c (render ps)).
    change (scan st (String c (render ps)))
      with ((negb (token_at (String c (render ps))) || negb (is_open st))
            && scan (next st c) (render ps)).
    rewrite Hc. simpl. auto.
  - destruct Hp as [Hk Hp]. destruct Hg as [Ho Hg].
    change (render (Tok k :: ps)) with (k ++ render ps)%string.
    rewrite (scan_token _ _ _ Hk), Ho. simpl. auto.
Qed.

Lemma templated_unnested s : templated s -> unnested s.
Proof.
  intros (ps & Hps & ->). destruct (templated_guarded ps Hps) as [Hp Hg].
  now apply guarded_scan.
Qed.

End Unnested.

(** ** Trees *)

Section Trees.

Import Fs Walk.

(** Induction on a tree, with the hypothesis for every entry of a
    directory. *)
Lemma node_induction (P : node -> Prop) :
  (forall f, P (File f)) ->
  (forall es, Forall (fun e => P (snd e)) es -> P (Dir es)) ->
  forall n, P n.
Proof.
  intros Hf Hd.
  fix IH 1. intros [f|es]; [apply Hf|].
  apply Hd. induction es as [|[name c] es IHes]; constructor; [apply IH|exact IHes].
Qed.

Lemma entries_below_dir R es :
  entries_below R (Dir es)
  <-> Forall (fun e => R (fst e) (snd e) /\ entries_below R (snd e)) es.
Proof.
  induction es as [|[name c] es IH].
  - split; [constructor|intros _; exact I].
  - change (entries_below R (Dir ((name, c) :: es)))
      with (R name c /\ entries_below R c /\ entries_below R (Dir es)).
    rewrite IH. split.
    + intros (H1 & H2 & H3). constructor; [now split|exact H3].
    + intros H. inversion H as [|? ? [H1 H2] H3]; subst. auto.
Qed.

Lemma entries_below_impl (R R' : string -> node -> Prop) :
  (forall name c, R name c -> R' name c) ->
  forall n, entries_below R n -> entries_below R' n.
Proof.
  intros HR. induction n as [f|es IH] using node_induction; [auto|].
  rewrite !entries_below_dir. intros H.
  rewrite Forall_forall in *. intros e He.
  destruct (H e He) as [H1 H2]. split; [now apply HR|now apply IH].
Qed.

Lemma entries_below_and (R R' : string -> node -> Prop) n :
  entries_below R n -> entries_below R' n ->
  entries_below (fun name c => R name c /\ R' name c) n.
Proof.
  induction n as [f|es IH] using node_induction; [auto|].
  rewrite !entries_below_dir. intros H H'.
  rewrite Forall_forall in *. intros e He.
  destruct (H e He) as [H1 H2]. destruct (H' e He) as [H1' H2'].
  split; [now split|now apply IH].
Qed.

End Trees.

(** ** Path Renamer *)

Section Renamer.

Import Fs Subst Walk.

Variable t : table.

(** What is known of a name before its renaming, and after it: the loop
    takes a name with [P] to one with [D], and leaves a name with [D] as
    it is. *)
Variables P D : string -> Prop.
Hypothesis P_settles : forall s, P s -> D (apply_all t s).
Hypothesis D_fixed : forall s, D s -> apply_all t s = s.

Lemma in_remove_entry x e es : In e (remove_entry x es) -> In e es.
Proof.
  induction es as [|[y n] es IH]; simpl; [auto|].
  destruct (String.eqb x y); simpl; intuition.
Qed.

(** What a rename leaves in the directory: entries that were there, the
    ones named [old] now named [new]. *)
Lemma rename_entry_entries old new es es' :
  rename_entry old new es = inr es' ->
  forall e', In e' es' ->
    exists e, In e es /\ snd e' = snd e
              /\ ((fst e = old /\ fst e' = new) \/ (fst e <> old /\ fst e' = fst e)).
Proof.
  unfold rename_entry. intros H e' He'.
  assert (Hmap : forall l,
             In e' (List.map (fun e => if String.eqb (fst e) old
                                       then (new, snd e) else e) l) ->
             exists e, In e l /\ snd e' = snd e
                       /\ ((fst e = old /\ fst e' = new)
                           \/ (fst e <> old /\ fst e' = fst e))).
  { intros l Hl. apply in_map_iff in Hl as (e & <- & He).
    exists e. split; [exact He|].
    destruct (String.eqb_spec (fst e) old) as [E|E]; simpl; auto. }
  destruct (find_entry old es) as [src|]; [|discriminate].
  destruct (String.eqb new "" || String.eqb new "."); [discriminate|].
  destruct (Str.has_char "/" new || String.eqb new ".."); [discriminate|].
  destruct (find_entry new es) as [[g|[|x d]]|], src as [f|ds];
    try discriminate; injection H as <-;
    destruct (Hmap _ He') as (e & He & Hs);
    exists e; (split; [first [exact He | now apply in_remove_entry in He]|exact Hs]).
Qed.

Section Loop.

(** A property of an entry that only looks at the name it will end up
    with. *)
Variable G : string -> node -> Prop.


Lemma pending_settles todo e :
  Walk.pending P D t G todo e -> D (apply_all t (fst e)).
Proof.
  intros [_ [H|[H _]]]; [now rewrite (D_fixed _ H)|now apply P_settles].
Qed.

Lemma rename_names_invariant names :
  forall rest es es',
    (forall e, In e es -> Walk.pending P D t G (names ++ rest)%list e) ->
    rename_names t names es = (es', None) ->
    forall e, In e es' -> Walk.pending P D t G rest e.
Proof.
  induction names as [|name names IH]; intros rest es es' Hes Hr.
  - injection Hr as <-. exact Hes.
  - simpl in Hr.
    destruct (String.eqb_spec (apply_all t name) name) as [Eq|Ne].
    + apply (IH rest es es'); [|exact Hr].
      intros e He. pose proof (Hes e He) as Hp.
      destruct Hp as [HG [Hb|[Ht [Hin|Hin]]]]; split; auto.
      left. rewrite <- Hin, <- Eq. apply P_settles. now rewrite Hin.
    + destruct (rename_entry name (apply_all t name) es) as [e0|es1] eqn:Er;
        [discriminate|].
      apply (IH rest es1 es'); [|exact Hr].
      intros e1 He1.
      destruct (rename_entry_entries _ _ _ _ Er e1 He1) as (e & He & Hs & Hn).
      pose proof (Hes e He) as Hp. pose proof (pending_settles _ _ Hp) as Ht.
      destruct Hn as [[E1 E2]|[E1 E2]].
      * assert (Hb : D (fst e1)).
        { rewrite E2, <- E1. exact Ht. }
        split; [|now left].
        rewrite Hs, (D_fixed _ Hb), E2, <- E1.
        apply Hp.
      * destruct Hp as [HG [Hb|[HP [Hin|Hin]]]].
        -- split; [now rewrite Hs, E2|left; now rewrite E2].
        -- congruence.
        -- split; [now rewrite Hs, E2|right; rewrite E2; now split].
Qed.

Lemma rename_names_done names es es' :
  (forall e, In e es -> Walk.pending P D t G names e) ->
  rename_names t names es = (es', None) ->
  forall e, In e es' -> D (fst e) /\ G (fst e) (snd e).
Proof.
  intros Hes Hr e He.
  rewrite <- (List.app_nil_r names) in Hes.
  destruct (rename_names_invariant names [] es es' Hes Hr e He) as [HG [Hb|[_ []]]].
  split; [exact Hb|].
  now rewrite (D_fixed _ Hb) in HG.
Qed.

End Loop.

End Renamer.

Section RenamerTree.

Import Fs Subst Walk.

Variable t : table.

Variables P D : string -> Prop.
Hypothesis P_settles : forall s, P s -> D (apply_all t s).
Hypothesis D_fixed : forall s, D s -> apply_all t s = s.

(** What is asked of a file, by the name it ends up with. *)
Variable Q : string -> file -> Prop.


Lemma rename_walk_dir es :
  rename_walk t (Dir es)
  = match rename_children t es with
    | (es1, Some e) => (Dir es1, Some e)
    | (es1, None) =>
        match rename_names t (file_names es) es1 with
        | (es2, Some e) => (Dir es2, Some e)
        | (es2, None) =>
            let (es3, e) := rename_names t (dir_names es) es2 in (Dir es3, e)
        end
    end.
Proof. reflexivity. Qed.

Lemma rename_walk_keeps_kind d n r :
  rename_walk t (Dir d) = (n, r) -> exists d', n = Dir d'.
Proof.
  rewrite rename_walk_dir.
  destruct (rename_children t d) as [es1 [e|]]; [intros [= <- _]; eauto|].
  destruct (rename_names t (file_names d) es1) as [es2 [e|]]; [intros [= <- _]; eauto|].
  destruct (rename_names t (dir_names d) es2) as [es3 e]. intros [= <- _]. eauto.
Qed.

Lemma rename_children_entries es :
  forall es1,
    rename_children t es = (es1, None) ->
    forall e1, In e1 es1 ->
      exists e, In e es /\ fst e1 = fst e
                /\ match snd e with
                   | File f => snd e1 = File f
                   | Dir d => rename_walk t (Dir d) = (snd e1, None)
                   end.
Proof.
  induction es as [|[name c] es IH]; intros es1 H e1 He1.
  - injection H as <-. contradiction.
  - destruct c as [f|d].
    + change (rename_children t ((name, File f) :: es))
        with (let (l, e) := rename_children t es in ((name, File f) :: l, e)) in H.
      destruct (rename_children t es) as [l e] eqn:E. injection H as <- ->.
      destruct He1 as [<-|He1].
      * exists (name, File f). simpl. auto.
      * destruct (IH l eq_refl e1 He1) as (e & He & Hn). exists e. simpl. auto.
    + change (rename_children t ((name, Dir d) :: es))
        with (match rename_walk t (Dir d) with
              | (c', Some e) => ((name, c') :: es, Some e)
              | (c', None) =>
                  let (l, e) := rename_children t es in ((name, c') :: l, e)
              end) in H.
      destruct (rename_walk t (Dir d)) as [c' [e|]] eqn:Ew; [discriminate|].
      destruct (rename_children t es) as [l e] eqn:E. injection H as <- ->.
      destruct He1 as [<-|He1].
      * exists (name, Dir d). simpl. auto.
      * destruct (IH l eq_refl e1 He1) as (e & He & Hn). exists e. simpl. auto.
Qed.

Lemma in_listing (e : entry) es :
  In e es -> In (fst e) (file_names es ++ dir_names es)%list.
Proof.
  intros H. apply in_or_app. unfold file_names, dir_names.
  destruct (is_dir (snd e)) eqn:E; [right|left];
    apply in_map, filter_In; rewrite E; auto.
Qed.

(** After a renaming that ran to its end, every name below the directory
    satisfies [D], and every file is what its final name asks. *)
Lemma rename_walk_post n :
  forall n1,
    entries_below (before_rename P t Q) n ->
    rename_walk t n = (n1, None) ->
    entries_below (after_rename D Q) n1.
Proof.
  induction n as [f|es IH] using node_induction; intros n1 Hpre Hw.
  - injection Hw as <-. exact I.
  - rewrite rename_walk_dir in Hw.
    destruct (rename_children t es) as [es1 [e|]] eqn:Ec; [discriminate|].
    destruct (rename_names t (file_names es) es1) as [es2 [e|]] eqn:Ef; [discriminate|].
    destruct (rename_names t (dir_names es) es2) as [es3 e] eqn:Ed.
    injection Hw as <- ->.
    apply entries_below_dir in Hpre. rewrite Forall_forall in Hpre, IH.
    set (G := fun name c => match c with
                            | File f => Q name f
                            | Dir _ => True
                            end /\ entries_below (after_rename D Q) c).
    assert (H1 : forall e1, In e1 es1 ->
               G (apply_all t (fst e1)) (snd e1)
               /\ (D (fst e1)
                   \/ (P (fst e1)
                       /\ In (fst e1) (file_names es ++ dir_names es)%list))).
    { intros e1 He1.
      destruct (rename_children_entries es es1 Ec e1 He1) as (e & He & Hn & Hk).
      destruct (Hpre e He) as [[Ht Hq] Hbelow].
      split.
      - unfold G. destruct (snd e) as [f|d] eqn:Es.
        + rewrite Hk, Hn. split; [exact Hq|exact I].
        + destruct (rename_walk_keeps_kind _ _ _ Hk) as [d' Hd'].
          rewrite Hd'. split; [exact I|]. rewrite <- Hd'.
          apply (IH e He); [|rewrite Es; exact Hk]. rewrite Es. exact Hbelow.
      - right. rewrite Hn. split; [exact Ht|now apply in_listing]. }
    pose proof (rename_names_invariant t P D P_settles D_fixed G
                  (file_names es) (dir_names es) es1 es2 H1 Ef) as H2.
    pose proof (rename_names_done t P D P_settles D_fixed G
                  (dir_names es) es2 es3 H2 Ed) as H3.
    apply entries_below_dir. apply Forall_forall. intros e3 He3.
    destruct (H3 e3 He3) as [Hb [Hq Hbelow]].
    split; [split; assumption|exact Hbelow].
Qed.

End RenamerTree.

Section SubstituterTree.

Import Fs Subst Walk.

Variable t : table.
Hypothesis t_full : full_table t.
Hypothesis t_not_empty : values_not_empty t.

(** A file that is readable and writable after [replace_in_file] was
    rewritten, and holds no token if it held none inside an open pair of
    braces. *)
Lemma replace_in_file_post file_path f :
  text_is unnested f ->
  may_read (fst (replace_in_file t file_path f)) = true ->
  may_write (fst (replace_in_file t file_path f)) = true ->
  text_is token_free (fst (replace_in_file t file_path f)).
Proof.
  intros Ht. unfold replace_in_file, read_text, write_text.
  destruct (may_read f) eqn:Er; simpl; [|congruence].
  destruct (data f) as [s|] eqn:Ed; simpl.
  - destruct (may_write f) eqn:Ew; simpl; [|congruence].
    intros _ _ s' [= <-].
    apply apply_all_unnested; [exact t_full|exact t_not_empty|]. now apply Ht.
  - intros _ _ s'. rewrite Ed. discriminate.
Qed.

Lemma substitute_walk_keeps_kind root d :
  exists d', fst (substitute_walk t root (Dir d)) = Dir d'.
Proof.
  rewrite substitute_walk_dir.
  destruct (walk_subdirs t root d) as [es1 l1].
  destruct (substitute_files t root es1) as [es2 l2]. simpl. eauto.
Qed.

Lemma walk_subdirs_post root es :
  Forall (fun e => ready (fst e) (snd e) /\ entries_below ready (snd e)) es ->
  Forall (fun e => forall root',
              entries_below ready (snd e) ->
              entries_below clean (fst (substitute_walk t root' (snd e)))) es ->
  Forall half_done (fst (walk_subdirs t root es)).
Proof.
  induction es as [|[name c] es IH]; intros Hpre Hrec; [constructor|].
  inversion Hpre as [|? ? [[Hb Hq] Hbelow] Hpre']; subst.
  inversion Hrec as [|? ? Hc Hrec']; subst.
  specialize (IH Hpre' Hrec'). rewrite walk_subdirs_cons.
  destruct c as [f|d].
  - destruct (walk_subdirs t root es) as [l log]. simpl in *.
    constructor; [|exact IH]. split; assumption.
  - pose proof (Hc (root ++ [name])%list Hbelow) as Hclean.
    destruct (substitute_walk_keeps_kind (root ++ [name])%list d) as [d' Hd'].
    simpl snd in Hclean.
    destruct (substitute_walk t (root ++ [name])%list (Dir d)) as [c' log].
    destruct (walk_subdirs t root es) as [l log']. simpl in *. subst c'.
    constructor; [|exact IH]. split; [exact Hb|exact Hclean].
Qed.

Lemma substitute_files_post root es :
  Forall half_done es ->
  Forall (fun e => clean (fst e) (snd e) /\ entries_below clean (snd e))
    (fst (substitute_files t root es)).
Proof.
  induction es as [|[name c] es IH]; intros H; [constructor|].
  inversion H as [|? ? [Hb Hq] H']; subst. specialize (IH H').
  simpl in Hb, Hq. simpl substitute_files.
  destruct (substitute_files t root es) as [es' log].
  pose proof Hb as Htf.
  destruct c as [f|d].
  - destruct (allowed name) eqn:Ea.
    + pose proof (replace_in_file_post (root ++ [name])%list f (Hq Ea)) as Hf.
      destruct (replace_in_file t (root ++ [name])%list f) as [f' w]. simpl in *.
      constructor; [|exact IH]. split; [|exact I]. split; [exact Htf|].
      intros _. exact Hf.
    + simpl. constructor; [|exact IH]. split; [|exact I]. split; [exact Htf|].
      intros Ha. simpl in Ha. congruence.
  - simpl. constructor; [|exact IH]. split; [|exact Hq]. split; [exact Htf|exact I].
Qed.

(** After the substitution of a renamed tree, no token is left in a name
    or in an allow-listed file that could be read and written. *)
Lemma substitute_walk_post n :
  forall root,
    entries_below ready n ->
    entries_below clean (fst (substitute_walk t root n)).
Proof.
  induction n as [f|es IH] using node_induction; intros root Hpre; [exact I|].
  apply entries_below_dir in Hpre.
  assert (Hrec : Forall (fun e => forall root',
                            entries_below ready (snd e) ->
                            entries_below clean
                              (fst (substitute_walk t root' (snd e)))) es).
  { rewrite Forall_forall in *. intros e He root'. now apply IH. }
  pose proof (walk_subdirs_post root es Hpre Hrec) as H1.
  rewrite substitute_walk_dir.
  destruct (walk_subdirs t root es) as [es1 log1]. simpl in H1.
  pose proof (substitute_files_post root es1 H1) as H2.
  destruct (substitute_files t root es1) as [es2 log2]. simpl in *.
  now apply entries_below_dir.
Qed.

End SubstituterTree.

(** ** Round trip *)

Lemma templated_around a k b :
  Subst.brace_free a -> In k Subst.tokens -> Subst.brace_free b ->
  Subst.templated (a ++ k ++ b).
Proof.
  intros Ha Hk Hb. exists (Subst.chars a ++ Subst.Tok k :: Subst.chars b)%list.
  split.
  - apply Forall_app. split; [now apply chars_ok|].
    constructor; [exact Hk|now apply chars_ok].
  - rewrite render_app, render_chars. simpl. now rewrite render_chars.
Qed.

(** The renaming, when it ran to its end, and the substitution leave no
    token in the names and in the allow-listed files they could rewrite. *)
Lemma round_trip_on_trees
    (m : Setup.metadata) (root : Fs.path) (n n1 : Fs.node) :
  Subst.values_brace_free (Setup.replacements_of m) ->
  values_not_empty (Setup.replacements_of m) ->
  Walk.names_below Subst.unnested n ->
  Walk.files_below
    (fun name f =>
       Walk.unnested_text (Subst.apply_all (Setup.replacements_of m) name) f) n ->
  Walk.rename_walk (Setup.replacements_of m) n = (n1, None) ->
  Walk.names_below Subst.token_free
    (fst (Walk.substitute_walk (Setup.replacements_of m) root n1))
  /\ Walk.files_below Walk.token_free_text
       (fst (Walk.substitute_walk (Setup.replacements_of m) root n1)).
Proof.
  intros Hv He Hnames Hfiles Hw.
  pose proof (replacements_full m Hv) as Hfull.
  pose proof (entries_below_and _ _ n Hnames Hfiles) as Hpre.
  pose proof (rename_walk_post _ Subst.unnested Subst.token_free
                (fun s => apply_all_unnested _ s Hfull He)
                (fun s => apply_all_fixes_token_free _ s (proj1 (proj1 Hfull)))
                Walk.unnested_text n n1 Hpre Hw) as Hmid.
  pose proof (substitute_walk_post _ Hfull He n1 root Hmid) as Hpost.
  split; eapply entries_below_impl; try exact Hpost;
    intros name c [H1 H2]; assumption.
Qed.

(** C5, as the code has it.  When no replacement value holds a brace and
    none is empty (the prompts return no empty value), and in every name
    below the target and in the text of every file whose final name is
    allow-listed no placeholder token starts inside an open pair of
    braces, that is after two opening braces and characters that are no
    braces, then after a Path Renamer that ran to its end and the Content
    Substituter no placeholder token occurs in any name below the target,
    nor in the content of any allow-listed file that can be read and
    written.  Braces that belong to no token may stand anywhere in the
    names and the texts. *)
Theorem no_placeholder_left_in_template_trees
    (m : Setup.metadata) (root : Fs.path) (n n1 : Fs.node) :
  Subst.values_brace_free (Setup.replacements_of m) ->
  values_not_empty (Setup.replacements_of m) ->
  Walk.names_below Subst.unnested n ->
  Walk.files_below
    (fun name f =>
       Walk.unnested_text (Subst.apply_all (Setup.replacements_of m) name) f) n ->
  Walk.rename_walk (Setup.replacements_of m) n = (n1, None) ->
  Walk.names_below Subst.token_free
    (fst (Walk.substitute_walk (Setup.replacements_of m) root n1))
  /\ Walk.files_below Walk.token_free_text
       (fst (Walk.substitute_walk (Setup.replacements_of m) root n1)).
Proof.
  intros Hv He Hnames Hfiles Hw.
  exact (round_trip_on_trees m root n n1 Hv He Hnames Hfiles Hw).
Qed.

Lemma demo_values_not_empty :
  values_not_empty (Setup.replacements_of Samples.demo_metadata).
Proof. repeat (constructor; [discriminate|]). constructor. Qed.

Lemma no_placeholder_left_in_template_trees_witness :
  Walk.rename_walk (Setup.replacements_of Samples.demo_metadata) Samples.braced_template
  = (Samples.braced_renamed, None)
  /\ fst (Walk.substitute_walk (Setup.replacements_of Samples.demo_metadata) ["p"]
            Samples.braced_renamed)
     = Samples.braced_project
  /\ Walk.names_below Subst.token_free Samples.braced_project
  /\ Walk.files_below Walk.token_free_text Samples.braced_project.
Proof.
  assert (Hw : Walk.rename_walk (Setup.replacements_of Samples.demo_metadata)
                 Samples.braced_template = (Samples.braced_renamed, None))
    by (vm_compute; reflexivity).
  assert (Hs : fst (Walk.substitute_walk (Setup.replacements_of Samples.demo_metadata)
                      ["p"] Samples.braced_renamed) = Samples.braced_project)
    by (vm_compute; reflexivity).
  split; [exact Hw|]. split; [exact Hs|].
  rewrite <- Hs.
  apply (no_placeholder_left_in_template_trees Samples.demo_metadata ["p"]
           Samples.braced_template Samples.braced_renamed).
  - exact demo_values_brace_free.
  - exact demo_values_not_empty.
  - simpl. repeat split; reflexivity.
  - simpl. repeat split.
    + intros _ s [= <-]. reflexivity.
    + intros _ s [= <-]. reflexivity.
    + intros _ s H. discriminate H.
  - exact Hw.
Defined.

(** C5 as stated fails: with the description "{{PROJECT_NAME}}", which the
    prompt accepts, a whole run of the script leaves that token in the
    content of an allow-listed file of the new project. *)
Lemma placeholder_left_by_a_token_description :
  exists w,
    Setup.setup_project Samples.work Samples.tpl EmailUtils.parseaddr
      (Samples.start (Samples.answers_token_description ++ ["y"; ""])%list)
    = Setup.Ok tt w
    /\ Fs.lookup ["work"; "demo-app"; "src"; "demo_app"; "__init__.py"] (Setup.fs w)
       = Some (Samples.text_file "# demo-app - {{PROJECT_NAME}}")
    /\ Walk.allowed "__init__.py" = true
    /\ Subst.occurs "{{PROJECT_NAME}}" "# demo-app - {{PROJECT_NAME}}" = true.
Proof.
  eexists. split; [vm_compute; reflexivity|].
  split; [vm_compute; reflexivity|]. split; reflexivity.
Qed.

(** Why the texts are asked to hold no token inside an open pair of
    braces: with the author "NAME" the loop assembles the token of the
    project name, whose turn has passed. *)
Lemma token_inside_open_braces_is_assembled :
  let m := {| Setup.project_name := "demo-app";
              Setup.module_name := "demo_app";
              Setup.project_description := "A Python project: demo-app";
              Setup.author_name := "NAME";
              Setup.author_email := "your.email@example.com";
              Setup.github_username := "yourusername";
              Setup.main_class := "DemoApp" |} in
  Subst.values_brace_free (Setup.replacements_of m)
  /\ values_not_empty (Setup.replacements_of m)
  /\ Subst.scan Subst.NoBrace "{{PROJECT_{{AUTHOR_NAME}}}}" = false
  /\ Subst.apply_all (Setup.replacements_of m) "{{PROJECT_{{AUTHOR_NAME}}}}"
     = "{{PROJECT_NAME}}".
Proof.
  split; [repeat (constructor; [reflexivity|]); constructor|].
  split; [repeat (constructor; [discriminate|]); constructor|].
  split; reflexivity.
Qed.

(** Why no value may be empty: an empty value lets the braces on its two
    sides meet. *)
Lemma empty_value_joins_braces :
  let t := [("{{PROJECT_NAME}}", "demo-app"); ("{{AUTHOR_NAME}}", "")] in
  Subst.values_brace_free t
  /\ Subst.unnested "{{{AUTHOR_NAME}}{PROJECT_NAME}}"
  /\ Subst.apply_all t "{{{AUTHOR_NAME}}{PROJECT_NAME}}" = "{{PROJECT_NAME}}".
Proof.
  split; [repeat (constructor; [reflexivity|]); constructor|].
  split; reflexivity.
Qed.

(** ** The round trip inside a run *)

Section RoundTripRun.

Import Fs Subst Walk Setup.

Lemma alter_put p n' :
  forall cur,
    (exists n, match cur with Some c => lookup p c | None => None end = Some n) ->
    exists r, alter (fun _ => inr (Some n')) p cur = inr (Some r)
              /\ lookup p r = Some n'.
Proof.
  induction p as [|x p IH]; intros cur [n Hn].
  - exists n'. now split.
  - destruct cur as [[f|es]|]; try discriminate. simpl in Hn.
    destruct (find_entry x es) as [c|] eqn:Ex; [|discriminate].
    destruct (IH (Some c) (ex_intro _ n Hn)) as (r & Hr & Hl).
    exists (Dir (put_entry x r es)). simpl. rewrite Ex, Hr. split; [reflexivity|].
    now rewrite find_put_same.
Qed.

Lemma alter_root_put p n' root n :
  lookup p root = Some n ->
  exists root', alter_root (fun _ => inr (Some n')) p root = inr root'
                /\ lookup p root' = Some n'.
Proof.
  intros H. destruct (alter_put p n' (Some root) (ex_intro _ n H)) as (r & Hr & Hl).
  exists r. unfold alter_root. now rewrite Hr.
Qed.

Variable cwd template_dir : path.

(** [rename_paths] and the substitution loop, run one after the other on
    a target directory with no token inside an open pair of braces, leave
    no token below it. *)
Lemma round_trip_in_a_run m target w w1 w2 es :
  values_brace_free (replacements_of m) ->
  values_not_empty (replacements_of m) ->
  lookup target (fs w) = Some (Dir es) ->
  names_below unnested (Dir es) ->
  files_below (fun name f => unnested_text (apply_all (replacements_of m) name) f)
    (Dir es) ->
  rename_paths target (replacements_of m) w = Ok tt w1 ->
  substitute_contents target (replacements_of m) w1 = Ok tt w2 ->
  exists n2,
    lookup target (fs w2) = Some n2
    /\ names_below token_free n2
    /\ files_below token_free_text n2.
Proof.
  intros Hv He Hl Hn Hf Hr Hs.
  unfold rename_paths, bind, get_fs, set_fs, raise, ret in Hr. rewrite Hl in Hr.
  destruct (rename_walk (replacements_of m) (Dir es)) as [n1 err] eqn:Ew.
  destruct (alter_root_put target n1 (fs w) _ Hl) as (root1 & Ha1 & Hl1).
  rewrite Ha1 in Hr. destruct err as [e|]; [discriminate|].
  injection Hr as <-.
  destruct (rename_walk_keeps_kind _ _ _ _ Ew) as [es1 ->].
  unfold substitute_contents, bind, get_fs, set_fs, print_all in Hs.
  cbn [fs stdin stdout] in Hs. rewrite Hl1 in Hs.
  pose proof (round_trip_on_trees m target (Dir es) (Dir es1) Hv He Hn Hf Ew)
    as [Hnames Hfiles].
  destruct (substitute_walk (replacements_of m) target (Dir es1)) as [n2 log].
  destruct (alter_root_put target n2 root1 _ Hl1) as (root2 & Ha2 & Hl2).
  rewrite Ha2 in Hs. injection Hs as <-.
  exists n2. simpl in *. auto.
Qed.

End RoundTripRun.

(** * Further properties *)

(** ** The prompt loops *)

Section PromptLoops.

Import Setup.

(** The project-name loop returns the first answer that is a valid name
    once stripped; every answer before it is rejected with one message,
    and the lines after it are left to be read. *)
Lemma project_name_loop_first_valid lines :
  forall log name rest,
    project_name_loop lines = (log, Some (name, rest)) ->
    exists skipped l,
      lines = (skipped ++ l :: rest)%list
      /\ name = Str.strip l
      /\ Ident.valid_project_name name = true
      /\ Forall (fun l' => Ident.valid_project_name (Str.strip l') = false) skipped
      /\ log = List.map Accept.name_rejection skipped.
Proof.
  induction lines as [|l lines IH]; intros log name rest H; [discriminate|].
  simpl in H.
  destruct (String.eqb_spec (Str.strip l) "") as [E|E].
  - destruct (project_name_loop lines) as [log' r] eqn:El.
    injection H as <- ->.
    destruct (IH _ _ _ eq_refl) as (skipped & l0 & -> & Hn & Hv & Hs & Hlog).
    exists (l :: skipped), l0. repeat split; auto.
    + constructor; [now rewrite E|exact Hs].
    + simpl. unfold Accept.name_rejection at 1. rewrite E. simpl. now rewrite Hlog.
  - destruct (Ident.valid_project_name (Str.strip l)) eqn:Ev; simpl in H.
    + injection H as <- <- <-. exists [], l. repeat split; auto.
    + destruct (project_name_loop lines) as [log' r] eqn:El.
      injection H as <- ->.
      destruct (IH _ _ _ eq_refl) as (skipped & l0 & -> & Hn & Hv & Hs & Hlog).
      exists (l :: skipped), l0. repeat split; auto.
      simpl. unfold Accept.name_rejection at 1.
      destruct (String.eqb_spec (Str.strip l) ""); [contradiction|]. now rewrite Hlog.
Qed.

(** When no answer is a valid name the loop ends with the input, having
    rejected every line. *)
Lemma project_name_loop_end_of_input lines log :
  project_name_loop lines = (log, None) ->
  Forall (fun l' => Ident.valid_project_name (Str.strip l') = false) lines
  /\ log = List.map Accept.name_rejection lines.
Proof.
  revert log. induction lines as [|l lines IH]; intros log H.
  - injection H as <-. split; constructor.
  - simpl in H. unfold Accept.name_rejection. simpl List.map.
    destruct (String.eqb_spec (Str.strip l) "") as [E|E].
    + destruct (project_name_loop lines) as [log' r] eqn:El.
      injection H as <- ->. destruct (IH _ eq_refl) as [Hs Hlog].
      split; [constructor; [now rewrite E|exact Hs]|now rewrite Hlog].
    + destruct (Ident.valid_project_name (Str.strip l)) eqn:Ev; simpl in H;
        [discriminate|].
      destruct (project_name_loop lines) as [log' r] eqn:El.
      injection H as <- ->. destruct (IH _ eq_refl) as [Hs Hlog].
      split; [constructor; [exact Ev|exact Hs]|now rewrite Hlog].
Qed.

End PromptLoops.

Section EmailLoopFacts.

Import Setup.

Variable check : string -> bool + Parseaddr.perror.

(** The e-mail loop returns the default for the first blank answer, or
    the first answer the check accepts; every answer before it was refused
    by the check, with one message each. *)
Lemma author_email_loop_first_accepted lines :
  forall log e rest,
    author_email_loop check lines = (log, EmailAccepted e rest) ->
    exists skipped l,
      lines = (skipped ++ l :: rest)%list
      /\ Forall (fun l' => Str.strip l' <> "" /\ check (Str.strip l') = inl false)
           skipped
      /\ log = List.map (fun _ => Walk.MsgEmailInvalid) skipped
      /\ ((Str.strip l = "" /\ e = "your.email@example.com")
          \/ (Str.strip l <> "" /\ check (Str.strip l) = inl true /\ e = Str.strip l)).
Proof.
  induction lines as [|l lines IH]; intros log e rest H; [discriminate|].
  simpl in H.
  destruct (String.eqb_spec (Str.strip l) "") as [E|E].
  - injection H as <- <- <-. exists [], l. repeat split; auto.
  - destruct (check (Str.strip l)) as [[|]|err] eqn:Ec.
    + injection H as <- <- <-. exists [], l. repeat split; auto.
    + destruct (author_email_loop check lines) as [log' r] eqn:El.
      injection H as <- ->.
      destruct (IH _ _ _ eq_refl) as (skipped & l0 & -> & Hs & Hlog & Hl).
      exists (l :: skipped), l0. repeat split; auto.
      simpl. now rewrite Hlog.
    + discriminate.
Qed.

End EmailLoopFacts.

(** ** The matcher and the language of a pattern *)

Section Matcher.

Import Re Accept.

Lemma append_is_empty (a b : string) : (a ++ b)%string = "" -> a = "" /\ b = "".
Proof. destruct a; simpl; [auto|discriminate]. Qed.

Lemma nullable_lang r : nullable r = true <-> lang r "".
Proof.
  split.
  - induction r; simpl; intros H; try discriminate.
    + constructor.
    + apply andb_true_iff in H as [H1 H2].
      change "" with ("" ++ "")%string. constructor; auto.
    + apply orb_true_iff in H as [H|H]; [apply lang_alt_l|apply lang_alt_r]; auto.
    + constructor.
  - intros H. remember "" as s eqn:Es.
    induction H; simpl; try reflexivity; try discriminate.
    + apply append_is_empty in Es as [-> ->]. now rewrite IHlang1, IHlang2.
    + now rewrite IHlang.
    + rewrite IHlang; [apply orb_true_r|exact Es].
Qed.

Lemma deriv_sound c r : forall s, lang (deriv c r) s -> lang r (String c s).
Proof.
  induction r; simpl; intros s H.
  - inversion H.
  - inversion H.
  - destruct (p c) eqn:E; inversion H; subst. now constructor.
  - assert (Hcat : forall s, lang (Cat (deriv c r1) r2) s -> lang (Cat r1 r2) (String c s)).
    { intros s0 H0. inversion H0; subst.
      change (String c (s1 ++ s2)) with (String c s1 ++ s2)%string.
      constructor; auto. }
    destruct (nullable r1) eqn:En; [|now apply Hcat].
    inversion H; subst; [now apply Hcat|].
    change (String c s) with ("" ++ String c s)%string.
    constructor; [now apply nullable_lang|auto].
  - inversion H; subst; [apply lang_alt_l|apply lang_alt_r]; auto.
  - inversion H; subst.
    change (String c (s1 ++ s2)) with (String c s1 ++ s2)%string.
    constructor; auto.
Qed.

Lemma deriv_complete c r s0 :
  lang r s0 -> forall s, s0 = String c s -> lang (deriv c r) s.
Proof.
  induction 1 as [|p d Hp|r1 r2 s1 s2 H1 IH1 H2 IH2|r1 r2 s0 H IH|r1 r2 s0 H IH
                  |r|r s1 s2 H1 IH1 H2 IH2]; intros s E; simpl.
  - discriminate.
  - injection E as -> <-. rewrite Hp. constructor.
  - destruct s1 as [|d s1'].
    + simpl in E. apply nullable_lang in H1. rewrite H1.
      apply lang_alt_r. now apply IH2.
    + simpl in E. injection E as -> <-.
      assert (lang (Cat (deriv c r1) r2) (s1' ++ s2)) by (constructor; auto).
      destruct (nullable r1); [now apply lang_alt_l|assumption].
  - apply lang_alt_l. auto.
  - apply lang_alt_r. auto.
  - discriminate.
  - destruct s1 as [|d s1'].
    + simpl in E. now apply IH2.
    + simpl in E. injection E as -> <-. constructor; auto.
Qed.

(** The derivative matcher decides membership in the language. *)
Lemma full_match_lang s : forall r, full_match r s = true <-> lang r s.
Proof.
  induction s as [|c s IH]; intros r; simpl.
  - apply nullable_lang.
  - rewrite IH. split; [apply deriv_sound|].
    intros H. now apply (deriv_complete c r (String c s)).
Qed.

End Matcher.

(** ** Accepted project names *)

Section AcceptedNames.

Import Chars Re Accept Ident.

Lemma forallb_append p a b :
  Str.forallb p (a ++ b) = Str.forallb p a && Str.forallb p b.
Proof.
  induction a as [|c a IH]; simpl; [reflexivity|]. now rewrite IH, andb_assoc.
Qed.

Lemma last_cons c s : s <> "" -> Str.last (String c s) = Str.last s.
Proof. destruct s; [congruence|reflexivity]. Qed.

Lemma last_snoc a d : Str.last (a ++ String d "") = Some d.
Proof.
  induction a as [|c a IH]; [reflexivity|].
  change ((String c a) ++ String d "")%string with (String c (a ++ String d "")).
  rewrite last_cons; [exact IH|]. destruct a; discriminate.
Qed.

Lemma drop_last_snoc s d :
  Str.last s = Some d -> s = (Str.drop_last s ++ String d "")%string.
Proof.
  induction s as [|c s IH]; [discriminate|].
  destruct s as [|c' s'].
  - simpl. now intros [= ->].
  - intros H. rewrite last_cons in H by discriminate.
    change (String c (String c' s')
            = String c (Str.drop_last (String c' s') ++ String d "")).
    f_equal. exact (IH H).
Qed.

Lemma lang_class_inv p s :
  lang (Class p) s -> exists c, s = String c "" /\ p c = true.
Proof. intros H. inversion H; subst. eauto. Qed.

Lemma lang_cat_inv r1 r2 s :
  lang (Cat r1 r2) s ->
  exists s1 s2, s = (s1 ++ s2)%string /\ lang r1 s1 /\ lang r2 s2.
Proof. intros H. inversion H; subst. eauto. Qed.

Lemma lang_alt_inv r1 r2 s : lang (Alt r1 r2) s -> lang r1 s \/ lang r2 s.
Proof. intros H. inversion H; subst; auto. Qed.

Lemma star_class_forallb p s : lang (Star (Class p)) s <-> Str.forallb p s = true.
Proof.
  split.
  - intros H. remember (Star (Class p)) as r eqn:Er.
    induction H as [| | | | | |r0 s1 s2 H1 _ H2 IH2]; try discriminate; [reflexivity|].
    injection Er as ->. apply lang_class_inv in H1 as (c & -> & Hc). simpl.
    now rewrite Hc, IH2.
  - induction s as [|c s IH]; simpl; intros H; [constructor|].
    apply andb_true_iff in H as [Hc Hs].
    change (String c s) with (String c "" ++ s)%string.
    constructor; [now constructor|auto].
Qed.

Lemma alnum_is_name_char c : is_alnum c = true -> is_name_char c = true.
Proof. unfold is_name_char. now intros ->. Qed.

Lemma lang_project_name s : lang project_name_pattern s <-> name_shape s = true.
Proof.
  unfold project_name_pattern, name_shape. split.
  - intros H. apply lang_alt_inv in H as [H|H].
    + apply lang_cat_inv in H as (s1 & s2 & -> & Ha & Hb).
      apply lang_class_inv in Ha as (c & -> & Hc).
      apply lang_cat_inv in Hb as (m & s3 & -> & Hm & Hd).
      apply lang_class_inv in Hd as (d & -> & Hd).
      apply star_class_forallb in Hm.
      change (String c "" ++ (m ++ String d ""))%string
        with (String c (m ++ String d "")).
      rewrite last_cons by (destruct m; discriminate).
      rewrite last_snoc. simpl Str.first. simpl Str.forallb.
      rewrite forallb_append. simpl.
      rewrite (alnum_is_name_char _ Hc), (alnum_is_name_char _ Hd), Hm, Hc, Hd.
      reflexivity.
    + apply lang_class_inv in H as (c & -> & Hc). simpl.
      now rewrite (alnum_is_name_char _ Hc), Hc.
  - intros H. apply andb_true_iff in H as [H Hl]. apply andb_true_iff in H as [Hall Hf].
    destruct s as [|c s']; [discriminate|]. simpl in Hf.
    destruct s' as [|c' s''].
    + apply lang_alt_r. now constructor.
    + apply lang_alt_l. rewrite last_cons in Hl by discriminate.
      destruct (Str.last (String c' s'')) as [d|] eqn:El; [|discriminate].
      simpl in Hl.
      change (is_name_char c && Str.forallb is_name_char (String c' s'') = true) in Hall.
      apply andb_true_iff in Hall as [_ Hall].
      rewrite (drop_last_snoc _ _ El) in Hall |- *.
      rewrite forallb_append in Hall. apply andb_true_iff in Hall as [Hm _].
      change (String c (Str.drop_last (String c' s'') ++ String d ""))
        with (String c "" ++ (Str.drop_last (String c' s'') ++ String d ""))%string.
      constructor; [now constructor|].
      constructor; [now apply star_class_forallb|now constructor].
Qed.

Lemma full_match_project_name s :
  full_match project_name_pattern s = name_shape s.
Proof.
  apply eq_true_iff_eq. rewrite full_match_lang. apply lang_project_name.
Qed.

Lemma strip_no_trailing_newline l : ends_with_newline (Str.strip l) = false.
Proof.
  unfold ends_with_newline, Str.strip, Str.strip_with.
  destruct (Str.last (Str.rstrip is_space (Str.lstrip is_space l))) as [c|] eqn:E;
    [|reflexivity].
  apply last_rstrip in E.
  destruct (Ascii.eqb_spec c newline) as [->|]; [discriminate E|reflexivity].
Qed.

End AcceptedNames.

Lemma valid_project_name_shape s :
  Ident.valid_project_name s
  = Accept.name_shape s
    || (Accept.ends_with_newline s && Accept.name_shape (Str.drop_last s)).
Proof.
  unfold Ident.valid_project_name, Re.match_anchored, Accept.ends_with_newline.
  rewrite !full_match_project_name. destruct (Str.last s); reflexivity.
Qed.

(** X1. The project-name check accepts exactly the strings of alphanumerics,
    dots, underscores and hyphens that begin and end with an alphanumeric,
    and, since [$] also matches before a final newline, such a string
    followed by one newline; a stripped answer never has that newline. *)
Theorem project_name_check_accepts_the_grammar :
  (forall s,
      Ident.valid_project_name s
      = Accept.name_shape s
        || (Accept.ends_with_newline s && Accept.name_shape (Str.drop_last s)))
  /\ (forall l, Ident.valid_project_name (Str.strip l) = Accept.name_shape (Str.strip l)).
Proof.
  split; [exact valid_project_name_shape|].
  intros l. rewrite valid_project_name_shape, strip_no_trailing_newline.
  apply orb_false_r.
Qed.

(** ** Derived identifiers *)

Section Derived.

Import Chars Ident.

Lemma module_char_fixed c :
  is_module_char c = true ->
  Chars.lower c = c /\ (if is_alnum c then c else underscore) = c.
Proof.
  destruct c as [[] [] [] [] [] [] [] []]; vm_compute; intros H;
    first [split; reflexivity | discriminate H].
Qed.

Lemma sub_non_alnum_fixed m :
  Str.forallb is_module_char m = true -> Str.lower (sub_non_alnum m) = m.
Proof.
  unfold Str.lower, sub_non_alnum.
  induction m as [|c m IH]; simpl; intros H; [reflexivity|].
  apply andb_true_iff in H as [Hc Hm].
  destruct (module_char_fixed c Hc) as [H1 H2]. now rewrite H2, H1, IH.
Qed.

Lemma sub_underscores_fixed m :
  Str.has_double underscore m = false -> sub_underscores m = m.
Proof.
  induction m as [|c m IH]; [reflexivity|].
  destruct m as [|d m']; [reflexivity|].
  intros H.
  change ((Ascii.eqb c underscore && Ascii.eqb d underscore)
          || Str.has_double underscore (String d m') = false) in H.
  apply orb_false_iff in H as [H1 H2].
  change (sub_underscores (String c (String d m')))
    with (if Ascii.eqb c underscore && Ascii.eqb d underscore
          then sub_underscores (String d m')
          else String c (sub_underscores (String d m'))).
  now rewrite H1, (IH H2).
Qed.

Lemma lstrip_fixed p s :
  (forall c, Str.first s = Some c -> p c = false) -> Str.lstrip p s = s.
Proof.
  destruct s as [|c s]; [reflexivity|]. simpl. intros H. now rewrite (H c eq_refl).
Qed.

Lemma rstrip_fixed p s :
  (forall c, Str.last s = Some c -> p c = false) -> Str.rstrip p s = s.
Proof.
  induction s as [|c s IH]; [reflexivity|]. intros H.
  destruct s as [|d s'].
  - simpl. now rewrite (H c eq_refl).
  - rewrite last_cons in H by discriminate.
    change (Str.rstrip p (String c (String d s')))
      with (match Str.rstrip p (String d s') with
            | EmptyString => if p c then EmptyString else String c EmptyString
            | r => String c r
            end).
    now rewrite (IH H).
Qed.

(** An identifier of the derived shape is its own derivation. *)
Lemma module_name_of_shape m :
  only_lower_alnum_or_underscore m -> single_underscores m ->
  no_leading_underscore m -> no_trailing_underscore m ->
  module_name_of m = m.
Proof.
  intros H1 H2 H3 H4. unfold module_name_of, Str.strip_with.
  rewrite (sub_non_alnum_fixed m H1), (sub_underscores_fixed m H2).
  rewrite (lstrip_fixed (Ascii.eqb underscore) m).
  - apply rstrip_fixed. intros c Hc.
    destruct (Ascii.eqb_spec underscore c) as [<-|]; [contradiction|reflexivity].
  - intros c Hc.
    destruct (Ascii.eqb_spec underscore c) as [<-|]; [contradiction|reflexivity].
Qed.

End Derived.

(** X2. Deriving the module identifier is idempotent: a derived identifier
    derives to itself. *)
Theorem module_name_derivation_idempotent (name : string) :
  Ident.module_name_of (Ident.module_name_of name) = Ident.module_name_of name.
Proof.
  destruct (module_name_shape name) as (H1 & H2 & H3 & H4).
  now apply module_name_of_shape.
Qed.

Section ClassIdentifier.

Import Chars Ident.

Lemma name_shape_head s :
  Accept.name_shape s = true ->
  exists c s', s = String c s' /\ is_alnum c = true.
Proof.
  unfold Accept.name_shape. intros H.
  apply andb_true_iff in H as [H _]. apply andb_true_iff in H as [_ H].
  destruct s as [|c s']; [discriminate|]. eauto.
Qed.

Lemma drop_last_head s c s' :
  Str.drop_last s = String c s' -> exists s'', s = String c s''.
Proof.
  destruct s as [|d [|e s0]]; simpl; try discriminate.
  intros [= -> _]. eauto.
Qed.

Lemma valid_project_name_head s :
  valid_project_name s = true ->
  exists c s', s = String c s' /\ is_alnum c = true.
Proof.
  rewrite valid_project_name_shape. intros H.
  apply orb_true_iff in H as [H|H]; [now apply name_shape_head|].
  apply andb_true_iff in H as [_ H].
  apply name_shape_head in H as (c & s' & E & Hc).
  apply drop_last_head in E as [s'' ->]. eauto.
Qed.

Lemma lower_alnum_head c :
  is_alnum c = true ->
  is_lower_alnum (Chars.lower c) = true
  /\ Ascii.eqb (Chars.lower c) underscore = false
  /\ Ascii.eqb underscore (Chars.lower c) = false.
Proof.
  destruct c as [[] [] [] [] [] [] [] []]; vm_compute; intros H;
    first [repeat split; reflexivity | discriminate H].
Qed.

Lemma sub_underscores_head c s :
  Ascii.eqb c underscore = false ->
  sub_underscores (String c s) = String c (sub_underscores s).
Proof.
  intros H. destruct s as [|d s']; [reflexivity|].
  change (sub_underscores (String c (String d s')))
    with (if Ascii.eqb c underscore && Ascii.eqb d underscore
          then sub_underscores (String d s')
          else String c (sub_underscores (String d s'))).
  now rewrite H.
Qed.

Lemma rstrip_head p c s :
  p c = false -> exists r, Str.rstrip p (String c s) = String c r.
Proof.
  intros H. simpl. destruct (Str.rstrip p s); [rewrite H|]; eauto.
Qed.

(** The identifier derived from a name that begins with an alphanumeric
    begins with that character, lower-cased. *)
Lemma module_name_head c s :
  is_alnum c = true ->
  exists r, module_name_of (String c s) = String (Chars.lower c) r.
Proof.
  intros Hc. destruct (lower_alnum_head c Hc) as (_ & H1 & H2).
  unfold module_name_of, Str.strip_with, sub_non_alnum, Str.lower.
  simpl Str.map. rewrite Hc.
  rewrite (sub_underscores_head _ _ H1).
  rewrite lstrip_fixed by (intros d [= <-]; exact H2). now apply rstrip_head.
Qed.

Lemma split_not_empty sep s : Str.split sep s <> [].
Proof.
  destruct s as [|c s]; simpl; [discriminate|].
  destruct (Ascii.eqb c sep); [discriminate|]. destruct (Str.split sep s); discriminate.
Qed.

Lemma class_derivation_head c r :
  Ascii.eqb c underscore = false ->
  exists r', class_derivation (String c r) = String (Chars.upper c) r'.
Proof.
  intros H. unfold class_derivation. simpl Str.split. rewrite H.
  destruct (Str.split underscore r) as [|w ws] eqn:E.
  - now apply split_not_empty in E.
  - simpl. eauto.
Qed.

Lemma split_segments m :
  Str.forallb is_module_char m = true ->
  Forall (fun w => Str.forallb is_lower_alnum w = true) (Str.split underscore m).
Proof.
  induction m as [|c m IH]; simpl; intros H; [repeat constructor|].
  apply andb_true_iff in H as [Hc Hm]. specialize (IH Hm).
  destruct (Ascii.eqb c underscore) eqn:E.
  - constructor; [reflexivity|exact IH].
  - destruct (Str.split underscore m) as [|w ws]; [repeat constructor|].
    + simpl. unfold is_module_char in Hc. rewrite E, orb_false_r in Hc. now rewrite Hc.
    + inversion IH; subst. constructor; [|assumption].
      simpl. unfold is_module_char in Hc. rewrite E, orb_false_r in Hc.
      now rewrite Hc.
Qed.

Lemma case_of_lower_alnum c :
  is_lower_alnum c = true ->
  is_alnum (Chars.upper c) = true /\ is_alnum (Chars.lower c) = true.
Proof.
  destruct c as [[] [] [] [] [] [] [] []]; vm_compute; intros H;
    first [split; reflexivity | discriminate H].
Qed.

Lemma capitalize_alnum w :
  Str.forallb is_lower_alnum w = true ->
  Str.forallb is_alnum (Str.capitalize w) = true.
Proof.
  destruct w as [|c w]; [reflexivity|]. simpl. intros H.
  apply andb_true_iff in H as [Hc Hw].
  rewrite (proj1 (case_of_lower_alnum c Hc)). simpl.
  unfold Str.lower. induction w as [|d w IH]; [reflexivity|].
  simpl in *. apply andb_true_iff in Hw as [Hd Hw].
  now rewrite (proj2 (case_of_lower_alnum d Hd)), IH.
Qed.

Lemma class_derivation_alnum m :
  Str.forallb is_module_char m = true ->
  Str.forallb is_alnum (class_derivation m) = true.
Proof.
  intros H. apply split_segments in H. unfold class_derivation.
  induction H as [|w ws Hw _ IH]; [reflexivity|].
  simpl. rewrite forallb_append, IH, andb_true_r. now apply capitalize_alnum.
Qed.

End ClassIdentifier.

(** X3. For an accepted project name the module identifier is not empty, the
    class identifier is the capitalized concatenation of its segments (the
    "MainClass" fallback is not taken), and it holds alphanumerics only. *)
Theorem accepted_name_gives_proper_identifiers (name : string) :
  Ident.valid_project_name name = true ->
  Ident.module_name_of name <> ""
  /\ Ident.main_class_of (Ident.module_name_of name)
     = Ident.class_derivation (Ident.module_name_of name)
  /\ Ident.class_derivation (Ident.module_name_of name) <> ""
  /\ Str.forallb Chars.is_alnum (Ident.main_class_of (Ident.module_name_of name)) = true.
Proof.
  intros H. apply valid_project_name_head in H as (c & s' & -> & Hc).
  destruct (module_name_head c s' Hc) as [r Hm].
  destruct (lower_alnum_head c Hc) as (_ & Hu & _).
  assert (Hd : Ident.class_derivation (Ident.module_name_of (String c s')) <> "").
  { rewrite Hm. destruct (class_derivation_head _ r Hu) as [r' ->]. discriminate. }
  assert (He : Ident.main_class_of (Ident.module_name_of (String c s'))
               = Ident.class_derivation (Ident.module_name_of (String c s'))).
  { unfold Ident.main_class_of.
    destruct (String.eqb_spec (Ident.class_derivation
                                 (Ident.module_name_of (String c s'))) "");
      [contradiction|reflexivity]. }
  split; [rewrite Hm; discriminate|]. split; [exact He|]. split; [exact Hd|].
  rewrite He. apply class_derivation_alnum. apply (module_name_shape (String c s')).
Qed.

Lemma accepted_name_gives_proper_identifiers_witness :
  Ident.valid_project_name "my.module_2" = true
  /\ Ident.module_name_of "my.module_2" = "my_module_2"
  /\ Ident.main_class_of (Ident.module_name_of "my.module_2") = "MyModule2"
  /\ Ident.class_derivation (Ident.module_name_of "my.module_2") <> "".
Proof.
  split; [reflexivity|]. split; [reflexivity|]. split; [reflexivity|].
  apply (accepted_name_gives_proper_identifiers "my.module_2"). reflexivity.
Defined.

(** ** The collected metadata *)

Section Collected.

Import Setup.

Variable check : string -> bool + Parseaddr.perror.

Lemma ask_or_default_ok d w a w' :
  ask_or_default d w = Ok a w' -> d <> "" -> a <> "".
Proof.
  unfold ask_or_default, bind, input, ret.
  destruct (stdin w) as [|l rest]; [discriminate|].
  intros [= <- _] Hd.
  destruct (String.eqb_spec (Str.strip l) ""); assumption.
Qed.

Lemma ask_project_name_ok w name w' :
  ask_project_name w = Ok name w' -> Ident.valid_project_name name = true.
Proof.
  unfold ask_project_name.
  destruct (project_name_loop (stdin w)) as [log [[n rest]|]] eqn:E; [|discriminate].
  intros [= <- _].
  destruct (project_name_loop_first_valid _ _ _ _ E) as (? & ? & _ & _ & Hv & _).
  exact Hv.
Qed.

Lemma ask_author_email_ok w e w' :
  ask_author_email check w = Ok e w' ->
  e = "your.email@example.com" \/ (e <> "" /\ check e = inl true).
Proof.
  unfold ask_author_email.
  destruct (author_email_loop check (stdin w)) as [log [|err rest|a rest]] eqn:E;
    try discriminate.
  intros [= <- _].
  destruct (author_email_loop_first_accepted check _ _ _ _ E)
    as (? & l & _ & _ & _ & [[_ ->]|(Hne & Hc & ->)]); auto.
Qed.

(** What a returned [collect_metadata] has established. *)
Lemma collect_metadata_ok w m w' :
  collect_metadata check w = Ok m w' ->
  Ident.valid_project_name (project_name m) = true
  /\ module_name m = Ident.module_name_of (project_name m)
  /\ main_class m = Ident.main_class_of (module_name m)
  /\ project_description m <> ""
  /\ author_name m <> ""
  /\ github_username m <> ""
  /\ (author_email m = "your.email@example.com"
      \/ (author_email m <> "" /\ check (author_email m) = inl true)).
Proof.
  unfold collect_metadata. unfold bind at 1.
  destruct (ask_project_name w) as [name w1|? ?|? ?] eqn:E1; try discriminate.
  cbv zeta. unfold bind at 1.
  destruct (ask_or_default _ w1) as [desc w2|? ?|? ?] eqn:E2; try discriminate.
  unfold bind at 1.
  destruct (ask_or_default _ w2) as [author w3|? ?|? ?] eqn:E3; try discriminate.
  unfold bind at 1.
  destruct (ask_author_email check w3) as [email w4|? ?|? ?] eqn:E4; try discriminate.
  unfold bind at 1.
  destruct (ask_or_default _ w4) as [github w5|? ?|? ?] eqn:E5; try discriminate.
  unfold ret. intros [= <- _]. simpl.
  split; [exact (ask_project_name_ok _ _ _ E1)|].
  split; [reflexivity|]. split; [reflexivity|].
  split; [apply (ask_or_default_ok _ _ _ _ E2); discriminate|].
  split; [apply (ask_or_default_ok _ _ _ _ E3); discriminate|].
  split; [apply (ask_or_default_ok _ _ _ _ E5); discriminate|].
  exact (ask_author_email_ok _ _ _ E4).
Qed.

Lemma main_class_never_empty m : Ident.main_class_of m <> "".
Proof.
  unfold Ident.main_class_of.
  destruct (String.eqb_spec (Ident.class_derivation m) ""); [discriminate|assumption].
Qed.

Lemma module_name_not_empty name :
  Ident.valid_project_name name = true -> Ident.module_name_of name <> "".
Proof.
  intros H. apply valid_project_name_head in H as (c & s' & -> & Hc).
  destruct (module_name_head c s' Hc) as [r ->]. discriminate.
Qed.

Lemma valid_project_name_not_empty name :
  Ident.valid_project_name name = true -> name <> "".
Proof. intros H ->. discriminate H. Qed.

Lemma collected_values_not_empty w m w' :
  collect_metadata check w = Ok m w' -> values_not_empty (replacements_of m).
Proof.
  intros H. destruct (collect_metadata_ok _ _ _ H) as (Hv & Hm & Hc & Hd & Ha & Hg & He).
  unfold values_not_empty, replacements_of. repeat constructor; simpl; auto.
  - now apply valid_project_name_not_empty.
  - rewrite Hm. now apply module_name_not_empty.
  - destruct He as [->|[He _]]; [discriminate|exact He].
  - rewrite Hc. apply main_class_never_empty.
Qed.

End Collected.

(** X4. Every value of the Replacement Table that a run builds from the
    answers is a non-empty string, whatever was typed. *)
Theorem replacement_values_never_empty
    (check : string -> bool + Parseaddr.perror) (w w' : Setup.world) (m : Setup.metadata) :
  Setup.collect_metadata check w = Setup.Ok m w' ->
  values_not_empty (Setup.replacements_of m).
Proof. apply collected_values_not_empty. Qed.

Lemma replacement_values_never_empty_witness :
  exists m w',
    Setup.collect_metadata check_email (Samples.start (Samples.answers [])) = Setup.Ok m w'
    /\ values_not_empty (Setup.replacements_of m).
Proof.
  eexists. eexists. split; [vm_compute; reflexivity|].
  eapply (replacement_values_never_empty check_email (Samples.start (Samples.answers []))).
  vm_compute. reflexivity.
Defined.

(** ** How a run ends *)

Section Exits.

Import Fs Walk Setup.
Local Open Scope run_scope.

Lemma bind_exit_inv A B (c : M A) (k : A -> M B) w code w' :
  bind c k w = Exit code w' ->
  c w = Exit code w' \/ exists a w1, c w = Ok a w1 /\ k a w1 = Exit code w'.
Proof.
  unfold bind. destruct (c w) as [a w1|code1 w1|e w1]; intros H.
  - right. eauto.
  - left. injection H as <- <-. reflexivity.
  - discriminate.
Qed.

Lemma never_exits_ret A (a : A) : never_exits (ret a).
Proof. intros w code w'. discriminate. Qed.

Lemma never_exits_raise A e : never_exits (@raise A e).
Proof. intros w code w'. discriminate. Qed.

Lemma never_exits_print m : never_exits (print m).
Proof. intros w code w'. discriminate. Qed.

Lemma never_exits_print_all ms : never_exits (print_all ms).
Proof. intros w code w'. discriminate. Qed.

Lemma never_exits_get_fs : never_exits get_fs.
Proof. intros w code w'. discriminate. Qed.

Lemma never_exits_set_fs n : never_exits (set_fs n).
Proof. intros w code w'. discriminate. Qed.

Lemma never_exits_exists p : never_exits (exists_ p).
Proof. intros w code w'. discriminate. Qed.

Lemma never_exits_input : never_exits input.
Proof. intros w code w'. unfold input. destruct (stdin w); discriminate. Qed.

Lemma never_exits_fs_call op : never_exits (fs_call op).
Proof. intros w code w'. unfold fs_call. destruct (op (fs w)); discriminate. Qed.

Lemma never_exits_bind A B (c : M A) (k : A -> M B) :
  never_exits c -> (forall a, never_exits (k a)) -> never_exits (bind c k).
Proof.
  intros Hc Hk w code w' H.
  apply bind_exit_inv in H as [H|(a & w1 & _ & H)]; [exact (Hc _ _ _ H)|exact (Hk _ _ _ _ H)].
Qed.

Lemma never_exits_try_except A (c : M A) (h : exn -> M A) :
  never_exits c -> (forall e, never_exits (h e)) -> never_exits (try_except c h).
Proof.
  intros Hc Hh w code w'. unfold try_except.
  destruct (c w) as [a w1|code1 w1|e w1] eqn:E;
    [discriminate|destruct (Hc _ _ _ E)|apply Hh].
Qed.

Lemma never_exits_copy2 src dst : never_exits (copy2 src dst).
Proof.
  unfold copy2. apply never_exits_bind; [apply never_exits_get_fs|]. intros root.
  cbv zeta. destruct (lookup src root) as [[f|es]|]; try apply never_exits_raise.
  destruct (path_eqb _ _); [apply never_exits_raise|].
  destruct (may_read f); [apply never_exits_fs_call|apply never_exits_raise].
Qed.

Lemma never_exits_copy_entries depth' ignore dirs_exist_ok src dst :
  (forall s d, never_exits (copytree depth' ignore dirs_exist_ok s d)) ->
  forall l errors,
    never_exits (copy_entries depth' ignore dirs_exist_ok src dst l errors).
Proof.
  intros IH. induction l as [|[name isdir] l IHl]; intros errors.
  - apply never_exits_ret.
  - simpl. destruct (ignore name); [apply IHl|].
    apply never_exits_bind; [|intros noted; apply IHl].
    apply never_exits_try_except.
    + apply never_exits_bind; [|intros; apply never_exits_ret].
      destruct isdir; [apply IH|apply never_exits_copy2].
    + intros e. destruct e; first [apply never_exits_ret|apply never_exits_raise].
Qed.

Lemma never_exits_copytree depth ignore dirs_exist_ok :
  forall src dst, never_exits (copytree depth ignore dirs_exist_ok src dst).
Proof.
  induction depth as [|depth IH]; intros src dst; [apply never_exits_raise|].
  rewrite copytree_step.
  apply never_exits_bind; [apply never_exits_get_fs|]. intros root.
  destruct (scandir src root); [apply never_exits_raise|].
  apply never_exits_bind; [apply never_exits_fs_call|]. intros _.
  apply never_exits_bind; [now apply never_exits_copy_entries|].
  intros [|]; [apply never_exits_ret|apply never_exits_raise].
Qed.

Variable cwd template_dir : path.

Lemma never_exits_fix_src_layout target m :
  never_exits (fix_src_layout template_dir target m).
Proof.
  unfold fix_src_layout. cbv zeta.
  apply never_exits_bind; [apply never_exits_exists|]. intros ex.
  destruct (negb ex); [|apply never_exits_ret].
  apply never_exits_bind; [apply never_exits_fs_call|]. intros _.
  apply never_exits_bind; [apply never_exits_copytree|]. intros _.
  apply never_exits_bind; [apply never_exits_exists|]. intros ex_old.
  destruct ex_old; [apply never_exits_fs_call|apply never_exits_ret].
Qed.

Lemma never_exits_rename_paths base t : never_exits (rename_paths base t).
Proof.
  unfold rename_paths. apply never_exits_bind; [apply never_exits_get_fs|]. intros root.
  destruct (lookup base root) as [[f|es]|]; try apply never_exits_ret.
  destruct (rename_walk t (Dir es)) as [n' err].
  destruct (alter_root _ base root); [apply never_exits_raise|].
  apply never_exits_bind; [apply never_exits_set_fs|]. intros _.
  destruct err; [apply never_exits_raise|apply never_exits_ret].
Qed.

Lemma never_exits_substitute_contents target t :
  never_exits (substitute_contents target t).
Proof.
  intros w code w' H.
  destruct (substitute_contents_returns target t w) as [w1 E]. congruence.
Qed.

(** Nothing after the target checks calls [sys.exit]. *)
Lemma never_exits_materialize m target : never_exits (materialize template_dir m target).
Proof.
  unfold materialize. cbv zeta.
  apply never_exits_bind.
  { destruct (negb _); [|apply never_exits_print].
    apply never_exits_bind; [apply never_exits_print|]. intros _.
    apply never_exits_copytree. }
  intros _. apply never_exits_bind; [apply never_exits_fix_src_layout|]. intros _.
  apply never_exits_bind; [apply never_exits_print|]. intros _.
  apply never_exits_bind; [apply never_exits_rename_paths|]. intros _.
  apply never_exits_bind; [apply never_exits_print|]. intros _.
  apply never_exits_bind; [apply never_exits_substitute_contents|]. intros _.
  apply never_exits_bind; [apply never_exits_print|]. intros _.
  apply never_exits_print.
Qed.

Lemma never_exits_collect_metadata check : never_exits (collect_metadata check).
Proof.
  assert (Hd : forall d, never_exits (ask_or_default d)).
  { intros d. apply never_exits_bind; [apply never_exits_input|].
    intros l. apply never_exits_ret. }
  unfold collect_metadata.
  apply never_exits_bind.
  { intros w code w'. unfold ask_project_name.
    destruct (project_name_loop (stdin w)) as [log [[n rest]|]]; discriminate. }
  intros name. cbv zeta.
  apply never_exits_bind; [apply Hd|]. intros desc.
  apply never_exits_bind; [apply Hd|]. intros author.
  apply never_exits_bind.
  { intros w code w'. unfold ask_author_email.
    destruct (author_email_loop check (stdin w)) as [log [|e rest|e rest]]; discriminate. }
  intros email.
  apply never_exits_bind; [apply Hd|]. intros github. apply never_exits_ret.
Qed.

(** The three ways out of the target checks (lines 168-204). *)
Lemma resolve_target_exit m w code w' :
  resolve_target cwd m w = Exit code w' ->
  fs w' = fs w
  /\ ((code = 0 /\ exists l rest, stdin w = l :: rest /\ confirmed l = false)
      \/ (code = 1
          /\ exists l1 l2 rest,
               stdin w = l1 :: l2 :: rest /\ confirmed l1 = true
               /\ ((path_eqb (target_dir_of cwd m l2) cwd = true
                    /\ exists l3 rest', rest = l3 :: rest'
                                        /\ Str.lower (Str.strip l3) <> "yes")
                   \/ exists e es,
                        lookup (target_dir_of cwd m l2) (fs w) = Some (Dir (e :: es))))).
Proof.
  unfold resolve_target, bind, input, print, sys_exit, ret, get_fs, set_fs, raise.
  destruct (stdin w) as [|l1 rest0] eqn:Ein; [discriminate|].
  destruct (confirmed l1) eqn:Ec; simpl.
  - destruct rest0 as [|l2 rest]; [discriminate|].
    destruct (path_eqb (target_dir_of cwd m l2) cwd) eqn:Ep; simpl.
    + destruct rest as [|l3 rest']; simpl; [discriminate|].
      destruct (String.eqb_spec (Str.lower (Str.strip l3)) "yes") as [Ey|Ey]; simpl.
      * destruct (target_node cwd m l2 (fs w)) as [e0|[f|[|e es]]] eqn:El;
          simpl; try discriminate.
        -- destruct (make_target cwd m l2 (fs w)) as [n1 [e1|]]; discriminate.
        -- intros [= <- <-]. split; [reflexivity|]. right. split; [reflexivity|].
           exists l1, l2, (l3 :: rest'). repeat split; auto. right.
           exists e, es. exact (target_node_lookup _ _ _ _ _ El).
      * intros [= <- <-]. split; [reflexivity|]. right. split; [reflexivity|].
        exists l1, l2, (l3 :: rest'). repeat split; auto. left. split; [exact Ep|]. eauto.
    + destruct (target_node cwd m l2 (fs w)) as [e0|[f|[|e es]]] eqn:El;
        simpl; try discriminate.
      * destruct (make_target cwd m l2 (fs w)) as [n1 [e1|]]; discriminate.
      * intros [= <- <-]. split; [reflexivity|]. right. split; [reflexivity|].
        exists l1, l2, rest. repeat split; auto. right.
        exists e, es. exact (target_node_lookup _ _ _ _ _ El).
  - intros [= <- <-]. split; [reflexivity|]. left. split; [reflexivity|]. eauto.
Qed.

Variable parseaddr : string -> (string * string) + Parseaddr.perror.

(** A run that ends through [sys.exit] ended in the target checks, after
    the prompts returned. *)
Lemma setup_project_exit w code w' :
  setup_project cwd template_dir parseaddr w = Exit code w' ->
  exists m w1 w2,
    bind (print MsgBanner)
      (fun _ => collect_metadata (Email.is_valid_email parseaddr)) w = Ok m w1
    /\ fs w1 = fs w
    /\ fs w2 = fs w1 /\ stdin w2 = stdin w1
    /\ resolve_target cwd m w2 = Exit code w'.
Proof.
  unfold setup_project. intros H.
  apply bind_exit_inv in H as [H|([] & w0 & E0 & H)]; [discriminate|].
  apply bind_exit_inv in H as [H|(m & w1 & E1 & H)];
    [now apply never_exits_collect_metadata in H|].
  apply bind_exit_inv in H as [H|([] & w2 & E2 & H)]; [discriminate|].
  apply bind_exit_inv in H as [H|(t & w3 & E3 & H)];
    [|now apply never_exits_materialize in H].
  exists m, w1, w2. injection E0 as <-. injection E2 as <-.
  repeat split; try reflexivity.
  - unfold bind. simpl. exact E1.
  - pose proof (keeps_fs_collect_metadata (Email.is_valid_email parseaddr)
                  {| fs := fs w; stdin := stdin w; stdout := (stdout w ++ [MsgBanner])%list |})
      as K.
    rewrite E1 in K. exact K.
  - exact H.
Qed.

End Exits.

(** X5. Every [sys.exit] of a run happens in the target checks, before
    anything is written: the file tree is the one the run started with.
    Status 0 means the summary was not confirmed; status 1 means it was,
    and either the run in the working directory was declined or the target
    is a directory that already holds an entry. *)
Theorem every_exit_comes_before_any_write
    (cwd template_dir : Fs.path)
    (parseaddr : string -> (string * string) + Parseaddr.perror)
    (w w' : Setup.world) (code : nat) :
  Setup.setup_project cwd template_dir parseaddr w = Setup.Exit code w' ->
  Setup.fs w' = Setup.fs w
  /\ exists m w1 l rest,
       Setup.bind (Setup.print Walk.MsgBanner)
         (fun _ => Setup.collect_metadata (Email.is_valid_email parseaddr)) w
       = Setup.Ok m w1
       /\ Setup.stdin w1 = l :: rest
       /\ ((code = 0 /\ Setup.confirmed l = false)
           \/ (code = 1 /\ Setup.confirmed l = true
               /\ exists l2 rest2,
                    rest = l2 :: rest2
                    /\ ((Setup.path_eqb (Setup.target_dir_of cwd m l2) cwd = true
                         /\ exists l3 rest3,
                              rest2 = l3 :: rest3
                              /\ Str.lower (Str.strip l3) <> "yes")
                        \/ exists e es,
                             Fs.lookup (Setup.target_dir_of cwd m l2) (Setup.fs w)
                             = Some (Fs.Dir (e :: es))))).
Proof.
  intros H.
  destruct (setup_project_exit _ _ _ _ _ _ H) as (m & w1 & w2 & Hc & F1 & F2 & S2 & Hr).
  destruct (resolve_target_exit _ _ _ _ _ Hr) as [F3 Hwhy].
  split; [congruence|].
  destruct Hwhy as [(-> & l & rest & Hin & Hno)
                   |(-> & l1 & l2 & rest & Hin & Hyes & Hwhy)].
  - exists m, w1, l, rest. repeat split; [exact Hc|congruence|]. left. now split.
  - exists m, w1, l1, (l2 :: rest). repeat split; [exact Hc|congruence|].
    right. repeat split; auto. exists l2, rest. split; [reflexivity|].
    destruct Hwhy as [Hp|(e & es & Hl)]; [now left|].
    right. exists e, es. congruence.
Qed.

Lemma every_exit_comes_before_any_write_witness :
  exists w',
    Setup.setup_project Samples.work Samples.tpl EmailUtils.parseaddr
      (Samples.start ["demo-app"; ""; ""; ""; ""; "no"]) = Setup.Exit 0 w'
    /\ Setup.fs w' = Samples.disk.
Proof.
  eexists. split; [vm_compute; reflexivity|].
  eapply (every_exit_comes_before_any_write Samples.work Samples.tpl
            EmailUtils.parseaddr (Samples.start ["demo-app"; ""; ""; ""; ""; "no"])).
  vm_compute. reflexivity.
Defined.

(** X6. An answer other than y or yes to the summary ends the run with
    status 0: the cancellation is printed, nothing is written, and no
    further line is read. *)
Theorem declined_summary_cancels_the_run
    (cwd template_dir : Fs.path)
    (parseaddr : string -> (string * string) + Parseaddr.perror)
    (w w1 : Setup.world) (m : Setup.metadata) (l : string) (rest : list string) :
  Setup.bind (Setup.print Walk.MsgBanner)
    (fun _ => Setup.collect_metadata (Email.is_valid_email parseaddr)) w
  = Setup.Ok m w1 ->
  Setup.stdin w1 = l :: rest ->
  Setup.confirmed l = false ->
  Setup.setup_project cwd template_dir parseaddr w
  = Setup.Exit 0
      {| Setup.fs := Setup.fs w;
         Setup.stdin := rest;
         Setup.stdout :=
           (Setup.stdout w1
            ++ [Walk.MsgSummary (Setup.project_name m) (Setup.module_name m)
                  (Setup.main_class m) (Setup.project_description m)
                  (Setup.author_name m) (Setup.author_email m)
                  (Setup.github_username m);
                Walk.MsgCancelled])%list |}.
Proof.
  intros Hcollect Hin Hc.
  assert (Hfs : Setup.fs w1 = Setup.fs w).
  { pose proof (keeps_fs_bind _ _ (Setup.print Walk.MsgBanner)
                  (fun _ => Setup.collect_metadata (Email.is_valid_email parseaddr))
                  (keeps_fs_print _)
                  (fun _ => keeps_fs_collect_metadata _) w) as K.
    rewrite Hcollect in K. exact K. }
  unfold Setup.setup_project.
  rewrite <- bind_assoc. rewrite (bind_ok _ _ _ _ _ _ _ Hcollect).
  rewrite (bind_ok _ _ _ _ _ _ _ (eq_refl : Setup.print _ w1 = Setup.Ok tt _)).
  unfold Setup.bind at 1. unfold Setup.resolve_target, Setup.bind, Setup.input.
  cbn [Setup.stdin Setup.fs Setup.stdout]. rewrite Hin, Hc. simpl.
  unfold Setup.sys_exit. rewrite Hfs, <- app_assoc. reflexivity.
Qed.

Lemma declined_summary_cancels_the_run_witness :
  exists w',
    Setup.setup_project Samples.work Samples.tpl EmailUtils.parseaddr
      (Samples.start ["demo-app"; ""; ""; ""; ""; ""; "kept"]) = Setup.Exit 0 w'
    /\ Setup.fs w' = Samples.disk /\ Setup.stdin w' = ["kept"].
Proof.
  eexists. split.
  - eapply (declined_summary_cancels_the_run Samples.work Samples.tpl
              EmailUtils.parseaddr
              (Samples.start ["demo-app"; ""; ""; ""; ""; ""; "kept"]));
      vm_compute; reflexivity.
  - split; reflexivity.
Defined.

(** X7. When the target resolves to the working directory and the answer to
    the second confirmation is not yes, the run ends with status 1 and
    the file tree untouched. *)
Theorem declined_run_in_working_directory_exits
    (cwd template_dir : Fs.path)
    (parseaddr : string -> (string * string) + Parseaddr.perror)
    (w w1 : Setup.world) (m : Setup.metadata) (l1 l2 l3 : string) (rest : list string) :
  Setup.bind (Setup.print Walk.MsgBanner)
    (fun _ => Setup.collect_metadata (Email.is_valid_email parseaddr)) w
  = Setup.Ok m w1 ->
  Setup.stdin w1 = l1 :: l2 :: l3 :: rest ->
  Setup.confirmed l1 = true ->
  Setup.path_eqb (Setup.target_dir_of cwd m l2) cwd = true ->
  Str.lower (Str.strip l3) <> "yes" ->
  exists w',
    Setup.setup_project cwd template_dir parseaddr w = Setup.Exit 1 w'
    /\ Setup.fs w' = Setup.fs w
    /\ Setup.stdin w' = rest
    /\ List.last (Setup.stdout w') Walk.MsgBanner = Walk.MsgInPlaceDeclined.
Proof.
  intros Hcollect Hin Hc Hp Hno.
  assert (Hfs : Setup.fs w1 = Setup.fs w).
  { pose proof (keeps_fs_bind _ _ (Setup.print Walk.MsgBanner)
                  (fun _ => Setup.collect_metadata (Email.is_valid_email parseaddr))
                  (keeps_fs_print _)
                  (fun _ => keeps_fs_collect_metadata _) w) as K.
    rewrite Hcollect in K. exact K. }
  unfold Setup.setup_project.
  rewrite <- bind_assoc. rewrite (bind_ok _ _ _ _ _ _ _ Hcollect).
  rewrite (bind_ok _ _ _ _ _ _ _ (eq_refl : Setup.print _ w1 = Setup.Ok tt _)).
  unfold Setup.bind at 1. unfold Setup.resolve_target, Setup.bind, Setup.input.
  cbn [Setup.stdin Setup.fs Setup.stdout]. rewrite Hin, Hc. simpl.
  rewrite Hp. simpl.
  destruct (String.eqb_spec (Str.lower (Str.strip l3)) "yes") as [E|E];
    [contradiction|].
  simpl. unfold Setup.sys_exit. eexists. split; [reflexivity|].
  cbn [Setup.stdin Setup.fs Setup.stdout].
  repeat split; [exact Hfs|]. now rewrite last_last.
Qed.

Lemma declined_run_in_working_directory_exits_witness :
  exists w',
    Setup.setup_project Samples.tpl Samples.tpl EmailUtils.parseaddr
      (Samples.start (Samples.answers ["."; "no"])) = Setup.Exit 1 w'
    /\ Setup.fs w' = Samples.disk
    /\ Setup.stdin w' = []
    /\ List.last (Setup.stdout w') Walk.MsgBanner = Walk.MsgInPlaceDeclined.
Proof.
  eapply (declined_run_in_working_directory_exits Samples.tpl Samples.tpl
            EmailUtils.parseaddr (Samples.start (Samples.answers ["."; "no"])));
    try (vm_compute; reflexivity).
  vm_compute. discriminate.
Defined.

(** X8. With the script in the template directory, the target checks never
    let the template directory through as the target, whatever is
    answered: the branch that would use it in place is never taken. *)
Theorem target_checks_never_return_the_template_directory
    (cwd template_dir : Fs.path) (m : Setup.metadata)
    (w w' : Setup.world) (t : Fs.path) :
  Fs.lookup (template_dir ++ ["setup_project.py"])%list (Setup.fs w) <> None ->
  Setup.resolve_target cwd m w = Setup.Ok t w' ->
  Setup.path_eqb t template_dir = false.
Proof.
  intros Hs Hok.
  destruct (Setup.path_eqb t template_dir) eqn:E; [|reflexivity].
  exfalso. apply (in_place_branch_unreachable cwd template_dir m w t w' Hs Hok).
  unfold Setup.path_eqb in E.
  destruct (list_eq_dec string_dec t template_dir) as [->|]; [reflexivity|discriminate].
Qed.

Lemma target_checks_never_return_the_template_directory_witness :
  exists t w',
    Setup.resolve_target Samples.work Samples.demo_metadata (Samples.start ["y"; ""])
    = Setup.Ok t w'
    /\ Setup.path_eqb t Samples.tpl = false.
Proof.
  eexists. eexists. split; [vm_compute; reflexivity|].
  eapply (target_checks_never_return_the_template_directory Samples.work Samples.tpl
            Samples.demo_metadata (Samples.start ["y"; ""]));
    [vm_compute; discriminate|vm_compute; reflexivity].
Defined.

(** ** The prompts, answer by answer *)

Section PromptRuns.

Import Setup.

Lemma project_name_loop_run skipped l rest :
  Forall (fun l' => Ident.valid_project_name (Str.strip l') = false) skipped ->
  Ident.valid_project_name (Str.strip l) = true ->
  project_name_loop (skipped ++ l :: rest)%list
  = (List.map Accept.name_rejection skipped, Some (Str.strip l, rest)).
Proof.
  intros Hs Hv. induction Hs as [|l' skipped Hl' Hs IH].
  - simpl. destruct (String.eqb_spec (Str.strip l) "") as [E|E].
    + rewrite E in Hv. discriminate Hv.
    + rewrite Hv. reflexivity.
  - cbn [app project_name_loop List.map]. rewrite IH.
    change (Accept.name_rejection l')
      with (if String.eqb (Str.strip l') "" then Walk.MsgNameRequired
            else Walk.MsgNameInvalid).
    destruct (String.eqb_spec (Str.strip l') "") as [E|E]; [reflexivity|].
    rewrite Hl'. reflexivity.
Qed.

Lemma project_name_loop_exhausted lines :
  Forall (fun l' => Ident.valid_project_name (Str.strip l') = false) lines ->
  project_name_loop lines = (List.map Accept.name_rejection lines, None).
Proof.
  intros Hs. induction Hs as [|l' lines Hl' Hs IH]; [reflexivity|].
  cbn [project_name_loop List.map]. rewrite IH.
  change (Accept.name_rejection l')
    with (if String.eqb (Str.strip l') "" then Walk.MsgNameRequired
          else Walk.MsgNameInvalid).
  destruct (String.eqb_spec (Str.strip l') "") as [E|E]; [reflexivity|].
  rewrite Hl'. reflexivity.
Qed.

Variable check : string -> bool + Parseaddr.perror.

Lemma author_email_loop_run skipped l rest :
  Forall (fun l' => Str.strip l' <> "" /\ check (Str.strip l') = inl false) skipped ->
  Str.strip l = "" \/ check (Str.strip l) = inl true ->
  author_email_loop check (skipped ++ l :: rest)%list
  = (List.map (fun _ => Walk.MsgEmailInvalid) skipped,
     EmailAccepted
       (if String.eqb (Str.strip l) "" then "your.email@example.com" else Str.strip l)
       rest).
Proof.
  intros Hs Hl. induction Hs as [|l' skipped [Hne Hc] Hs IH].
  - simpl. destruct (String.eqb_spec (Str.strip l) "") as [E|E]; [reflexivity|].
    destruct Hl as [Hl|Hl]; [contradiction|]. rewrite Hl. reflexivity.
  - cbn [app author_email_loop List.map]. rewrite IH.
    destruct (String.eqb_spec (Str.strip l') "") as [E|E]; [contradiction|].
    rewrite Hc. reflexivity.
Qed.

End PromptRuns.

(** X9. The project-name prompt asks again after every answer that is blank
    or not a valid name, printing one rejection for each, and returns the
    first valid answer, stripped; the lines after it are left unread. *)
Theorem project_name_prompt_returns_first_valid_answer
    (w : Setup.world) (skipped : list string) (l : string) (rest : list string) :
  Setup.stdin w = (skipped ++ l :: rest)%list ->
  Forall (fun l' => Ident.valid_project_name (Str.strip l') = false) skipped ->
  Ident.valid_project_name (Str.strip l) = true ->
  Setup.ask_project_name w
  = Setup.Ok (Str.strip l)
      {| Setup.fs := Setup.fs w;
         Setup.stdin := rest;
         Setup.stdout :=
           (Setup.stdout w ++ List.map Accept.name_rejection skipped)%list |}.
Proof.
  intros Hin Hs Hv. unfold Setup.ask_project_name.
  rewrite Hin, (project_name_loop_run _ _ _ Hs Hv). reflexivity.
Qed.

Lemma project_name_prompt_returns_first_valid_answer_witness :
  Setup.ask_project_name (Samples.start [""; "-bad"; " my.lib "; "next"])
  = Setup.Ok "my.lib"
      {| Setup.fs := Samples.disk;
         Setup.stdin := ["next"];
         Setup.stdout := [Walk.MsgNameRequired; Walk.MsgNameInvalid] |}.
Proof.
  apply (project_name_prompt_returns_first_valid_answer
           (Samples.start [""; "-bad"; " my.lib "; "next"]) [""; "-bad"] " my.lib " ["next"]).
  - reflexivity.
  - repeat constructor.
  - vm_compute. reflexivity.
Defined.

(** X10. When no remaining answer is a valid name, the prompt rejects each of
    them and the read at the end of the input raises; the run has no
    default project name. *)
Theorem project_name_prompt_has_no_default (w : Setup.world) :
  Forall (fun l' => Ident.valid_project_name (Str.strip l') = false) (Setup.stdin w) ->
  Setup.ask_project_name w
  = Setup.Raise Fs.EOFError
      {| Setup.fs := Setup.fs w;
         Setup.stdin := [];
         Setup.stdout :=
           (Setup.stdout w ++ List.map Accept.name_rejection (Setup.stdin w))%list |}.
Proof.
  intros Hs. unfold Setup.ask_project_name.
  rewrite (project_name_loop_exhausted _ Hs). reflexivity.
Qed.

Lemma project_name_prompt_has_no_default_witness :
  Setup.ask_project_name (Samples.start [""; "my project"])
  = Setup.Raise Fs.EOFError
      {| Setup.fs := Samples.disk;
         Setup.stdin := [];
         Setup.stdout := [Walk.MsgNameRequired; Walk.MsgNameInvalid] |}.
Proof.
  apply (project_name_prompt_has_no_default (Samples.start [""; "my project"])).
  repeat constructor.
Defined.

(** X11. The e-mail prompt asks again after every non-blank answer the check
    refuses, printing one message for each; a blank answer ends it with
    the default address, an accepted answer with that answer, stripped. *)
Theorem email_prompt_returns_default_or_first_accepted_answer
    (check : string -> bool + Parseaddr.perror)
    (w : Setup.world) (skipped : list string) (l : string) (rest : list string) :
  Setup.stdin w = (skipped ++ l :: rest)%list ->
  Forall (fun l' => Str.strip l' <> "" /\ check (Str.strip l') = inl false) skipped ->
  Str.strip l = "" \/ check (Str.strip l) = inl true ->
  Setup.ask_author_email check w
  = Setup.Ok
      (if String.eqb (Str.strip l) "" then "your.email@example.com" else Str.strip l)
      {| Setup.fs := Setup.fs w;
         Setup.stdin := rest;
         Setup.stdout :=
           (Setup.stdout w ++ List.map (fun _ => Walk.MsgEmailInvalid) skipped)%list |}.
Proof.
  intros Hin Hs Hl. unfold Setup.ask_author_email.
  rewrite Hin, (author_email_loop_run check _ _ _ Hs Hl). reflexivity.
Qed.

Lemma email_prompt_returns_default_or_first_accepted_answer_witness :
  Setup.ask_author_email check_email
    (Samples.start ["nobody"; "a@b"; " user@example.com "; "next"])
  = Setup.Ok "user@example.com"
      {| Setup.fs := Samples.disk;
         Setup.stdin := ["next"];
         Setup.stdout := [Walk.MsgEmailInvalid; Walk.MsgEmailInvalid] |}.
Proof.
  apply (email_prompt_returns_default_or_first_accepted_answer check_email
           (Samples.start ["nobody"; "a@b"; " user@example.com "; "next"])
           ["nobody"; "a@b"] " user@example.com " ["next"]).
  - reflexivity.
  - repeat constructor; try (vm_compute; reflexivity); vm_compute; discriminate.
  - right. vm_compute. reflexivity.
Defined.

(** ** Text and names without placeholders *)

Section NoOccurrence.

Import Fs Subst Walk.

Variable t : table.

Lemma rename_names_absent names es :
  Forall (no_key_occurs t) names -> rename_names t names es = (es, None).
Proof.
  intros H. induction H as [|name names Hn Hs IH]; [reflexivity|].
  simpl. rewrite (apply_all_absent _ _ Hn), String.eqb_refl. exact IH.
Qed.

Lemma names_of_listing (P : string -> Prop) es :
  Forall (fun e : entry => P (fst e)) es ->
  Forall P (file_names es) /\ Forall P (dir_names es).
Proof.
  intros H. unfold file_names, dir_names. split;
    apply Forall_map; apply Forall_forall; intros e He;
    apply filter_In in He as [He _]; rewrite Forall_forall in H; exact (H e He).
Qed.

(** Where no name holds a key, the renaming walk calls no rename at
    all. *)
Lemma rename_walk_absent n :
  names_below (no_key_occurs t) n -> rename_walk t n = (n, None).
Proof.
  induction n as [f|es IH] using node_induction; intros H; [reflexivity|].
  apply entries_below_dir in H.
  assert (Hc : rename_children t es = (es, None)).
  { clear - IH H. induction es as [|[name c] es IHes]; [reflexivity|].
    inversion IH as [|? ? IH1 IH2]; subst. inversion H as [|? ? [H1 H1'] H2]; subst.
    simpl in IH1, H1'.
    destruct c as [f|d].
    - change (rename_children t ((name, File f) :: es))
        with (let (l, e) := rename_children t es in ((name, File f) :: l, e)).
      now rewrite (IHes IH2 H2).
    - change (rename_children t ((name, Dir d) :: es))
        with (match rename_walk t (Dir d) with
              | (c', Some e) => ((name, c') :: es, Some e)
              | (c', None) =>
                  let (l, e) := rename_children t es in ((name, c') :: l, e)
              end).
      rewrite (IH1 H1'). now rewrite (IHes IH2 H2). }
  rewrite rename_walk_dir, Hc.
  assert (Hn : Forall (fun e : entry => no_key_occurs t (fst e)) es).
  { eapply Forall_impl; [|exact H]. intros e [He _]. exact He. }
  destruct (names_of_listing _ _ Hn) as [Hf Hd].
  now rewrite (rename_names_absent _ _ Hf), (rename_names_absent _ _ Hd).
Qed.

End NoOccurrence.

(** X12. A text file that can be read and written and in which no key of the
    table occurs is written back with the text it had: [replace_in_file]
    returns it as it was and prints no warning. *)
Theorem file_without_keys_is_written_back_unchanged
    (t : Subst.table) (file_path : Fs.path) (f : Fs.file) (s : string) :
  Fs.may_read f = true ->
  Fs.may_write f = true ->
  Fs.data f = Fs.Text s ->
  no_key_occurs t s ->
  Walk.replace_in_file t file_path f = (f, []).
Proof.
  intros Hr Hw Hd Hs. destruct f as [r wr d]. simpl in *. subst.
  unfold Walk.replace_in_file, Fs.read_text, Fs.write_text. simpl.
  now rewrite (apply_all_absent _ _ Hs).
Qed.

Lemma file_without_keys_is_written_back_unchanged_witness :
  Walk.replace_in_file Samples.demo_table ["p"; "notes.md"]
    {| Fs.may_read := true; Fs.may_write := true; Fs.data := Fs.Text "{MAIN_CLASS} {{}}" |}
  = ({| Fs.may_read := true; Fs.may_write := true; Fs.data := Fs.Text "{MAIN_CLASS} {{}}" |},
     []).
Proof.
  apply (file_without_keys_is_written_back_unchanged Samples.demo_table
           ["p"; "notes.md"] _ "{MAIN_CLASS} {{}}"); try reflexivity.
  repeat constructor.
Defined.

(** X13. Where no name below a directory holds a key of the table, the renaming
    walk renames nothing: the tree comes back as it was, and no error can
    arise since no rename is attempted. *)
Theorem renaming_leaves_names_without_keys
    (t : Subst.table) (n : Fs.node) :
  Walk.names_below (no_key_occurs t) n ->
  Walk.rename_walk t n = (n, None).
Proof. apply rename_walk_absent. Qed.

Lemma renaming_leaves_names_without_keys_witness :
  Walk.rename_walk Samples.demo_table Samples.small_project
  = (Samples.small_project, None).
Proof.
  apply (renaming_leaves_names_without_keys Samples.demo_table Samples.small_project).
  simpl. repeat split; repeat constructor.
Defined.

(** X14. Renaming is idempotent on template trees: after a renaming that ran
    to its end, with brace-free values for every token, a second renaming
    of the result changes nothing and raises nothing. *)
Theorem renaming_twice_is_renaming_once
    (t : Subst.table) (n n1 : Fs.node) :
  Subst.full_table t ->
  Walk.names_below Subst.templated n ->
  Walk.rename_walk t n = (n1, None) ->
  Walk.rename_walk t n1 = (n1, None).
Proof.
  intros Ht Hn Hw. apply rename_walk_absent.
  assert (Hpre : Walk.entries_below
                   (Walk.before_rename Subst.templated t (fun _ _ => True)) n).
  { eapply entries_below_impl; [|exact Hn].
    intros name c H. split; [exact H|]. destruct c; exact I. }
  pose proof (rename_walk_post t Subst.templated Subst.brace_free
                (fun s => apply_all_brace_free t s Ht)
                (fun s => apply_all_fixes_brace_free t s (proj1 Ht))
                (fun _ _ => True) n n1 Hpre Hw) as Hpost.
  eapply entries_below_impl; [|exact Hpost].
  intros name c [Hb _]. unfold no_key_occurs.
  destruct Ht as [[Hk _] _]. unfold Subst.keys in Hk.
  rewrite Forall_map in Hk. eapply Forall_impl; [|exact Hk].
  intros kv Hin. now apply brace_free_no_occurrence.
Qed.

Lemma renaming_twice_is_renaming_once_witness :
  Walk.rename_walk (Setup.replacements_of Samples.demo_metadata) Samples.small_template
  = (Samples.small_renamed, None)
  /\ Walk.rename_walk (Setup.replacements_of Samples.demo_metadata) Samples.small_renamed
     = (Samples.small_renamed, None).
Proof.
  assert (Hw : Walk.rename_walk (Setup.replacements_of Samples.demo_metadata)
                 Samples.small_template = (Samples.small_renamed, None))
    by (vm_compute; reflexivity).
  split; [exact Hw|].
  apply (renaming_twice_is_renaming_once (Setup.replacements_of Samples.demo_metadata)
           Samples.small_template Samples.small_renamed).
  - apply replacements_full. exact demo_values_brace_free.
  - simpl. repeat split.
    + apply brace_free_templated. reflexivity.
    + apply (templated_around "" "{{MODULE_NAME}}" ""); simpl; auto 10; reflexivity.
    + apply (templated_around "" "{{MODULE_NAME}}" "_config.py");
        simpl; auto 10; reflexivity.
    + apply brace_free_templated. reflexivity.
  - exact Hw.
Defined.

(** ** The substitution walk as a map over the files *)

Section Rewrite.

Import Fs Subst Walk.

Variable t : table.

Lemma replace_in_file_path_irrelevant p q f :
  fst (replace_in_file t p f) = fst (replace_in_file t q f).
Proof.
  unfold replace_in_file. destruct (read_text f) as [e|s]; [reflexivity|].
  destruct (write_text f (apply_all t s)); reflexivity.
Qed.

Lemma replace_in_file_permissions p f :
  may_read (fst (replace_in_file t p f)) = may_read f
  /\ may_write (fst (replace_in_file t p f)) = may_write f.
Proof.
  unfold replace_in_file, read_text, write_text.
  destruct f as [r w d]. simpl. destruct r; [|auto]. destruct d; [|auto].
  destruct w; simpl; auto.
Qed.

Lemma substitute_files_rewrite root es :
  fst (substitute_files t root es)
  = List.map (fun e : entry =>
                let (name, c) := e in
                (name, match c with
                       | File f => File (rewritten t name f)
                       | Dir _ => c
                       end)) es.
Proof.
  induction es as [|[name [f|d]] es IH]; [reflexivity| |].
  - simpl. destruct (substitute_files t root es) as [es' log]. simpl in IH.
    unfold rewritten. destruct (allowed name).
    + rewrite (replace_in_file_path_irrelevant [name] (root ++ [name])%list).
      destruct (replace_in_file t (root ++ [name])%list f). simpl. now rewrite IH.
    + simpl. now rewrite IH.
  - simpl. destruct (substitute_files t root es) as [es' log]. simpl in *.
    now rewrite IH.
Qed.

Lemma walk_subdirs_rewrite root es :
  Forall (fun e : entry =>
            forall root', fst (substitute_walk t root' (snd e))
                          = rewrite_files (rewritten t) (snd e)) es ->
  fst (walk_subdirs t root es)
  = List.map (fun e : entry =>
                let (name, c) := e in
                (name, match c with
                       | File _ => c
                       | Dir _ => rewrite_files (rewritten t) c
                       end)) es.
Proof.
  intros H. induction H as [|[name c] es Hc Hes IH]; [reflexivity|].
  rewrite walk_subdirs_cons. simpl in Hc. destruct c as [f|d].
  - destruct (walk_subdirs t root es) as [l' log]. simpl in *. now rewrite IH.
  - specialize (Hc (root ++ [name])%list).
    destruct (substitute_walk t (root ++ [name])%list (Dir d)) as [c' log].
    destruct (walk_subdirs t root es) as [l' log']. simpl in *. now rewrite IH, Hc.
Qed.

(** The walk returns the tree it was given with the allow-listed files
    rewritten, each by [replace_in_file], and everything else in place. *)
Lemma substitute_walk_rewrite n :
  forall root, fst (substitute_walk t root n) = rewrite_files (rewritten t) n.
Proof.
  induction n as [f|es IH] using node_induction; intros root; [reflexivity|].
  rewrite substitute_walk_dir.
  pose proof (walk_subdirs_rewrite root es IH) as H1.
  destruct (walk_subdirs t root es) as [es1 log_dirs]. simpl in H1.
  pose proof (substitute_files_rewrite root es1) as H2.
  destruct (substitute_files t root es1) as [es2 log_files]. simpl in H2.
  simpl fst. rewrite H2, H1, List.map_map.
  change (rewrite_files (rewritten t) (Dir es))
    with (Dir (List.map (fun e : entry =>
                           let (name, c) := e in
                           (name, match c with
                                  | File f => File (rewritten t name f)
                                  | Dir _ => rewrite_files (rewritten t) c
                                  end)) es)).
  f_equal. apply List.map_ext. intros [name [f|d]]; [reflexivity|].
  change (rewrite_files (rewritten t) (Dir d))
    with (Dir (List.map (fun e : entry =>
                           let (name, c) := e in
                           (name, match c with
                                  | File f => File (rewritten t name f)
                                  | Dir _ => rewrite_files (rewritten t) c
                                  end)) d)).
  reflexivity.
Qed.

Variable g : string -> file -> file.

Lemma rewrite_files_dir es :
  rewrite_files g (Dir es)
  = Dir (List.map (fun e : entry =>
                     let (name, c) := e in
                     (name, match c with
                            | File f => File (g name f)
                            | Dir _ => rewrite_files g c
                            end)) es).
Proof. reflexivity. Qed.

Lemma find_entry_map (h : string -> node -> node) x es :
  find_entry x (List.map (fun e : entry => let (name, c) := e in (name, h name c)) es)
  = option_map (h x) (find_entry x es).
Proof.
  induction es as [|[y c] es IH]; [reflexivity|].
  simpl. destruct (String.eqb_spec x y) as [->|_]; [reflexivity|exact IH].
Qed.

Lemma lookup_rewrite_files q :
  forall es,
    lookup q (rewrite_files g (Dir es))
    = match lookup q (Dir es) with
      | None => None
      | Some (Dir d) => Some (rewrite_files g (Dir d))
      | Some (File f) => Some (File (g (List.last q "") f))
      end.
Proof.
  induction q as [|x q IH]; intros es; [reflexivity|].
  rewrite rewrite_files_dir.
  change (lookup (x :: q) (Dir es))
    with (match find_entry x es with
          | Some c => lookup q c
          | None => None
          end).
  match goal with
  | |- lookup (x :: q) (Dir (List.map ?F es)) = _ =>
      change (lookup (x :: q) (Dir (List.map F es)))
        with (match find_entry x (List.map F es) with
              | Some c => lookup q c
              | None => None
              end)
  end.
  rewrite (find_entry_map (fun name c => match c with
                                         | File f => File (g name f)
                                         | Dir _ => rewrite_files g c
                                         end)).
  destruct (find_entry x es) as [[f|d]|]; unfold option_map; [| |reflexivity].
  - destruct q; reflexivity.
  - cbv beta iota. rewrite IH. destruct q as [|y q']; [reflexivity|].
    change (List.last (x :: y :: q') "") with (List.last (y :: q') ""). reflexivity.
Qed.

Lemma rewrite_files_fixed n :
  files_below (fun name f => g name f = f) n -> rewrite_files g n = n.
Proof.
  induction n as [f|es IH] using node_induction; intros H; [reflexivity|].
  rewrite rewrite_files_dir. f_equal.
  apply entries_below_dir in H.
  induction es as [|[name c] es IHes]; [reflexivity|].
  inversion IH as [|? ? IH1 IH2]; subst. inversion H as [|? ? [H1 H1'] H2]; subst.
  simpl in *. rewrite (IHes IH2 H2). destruct c as [f|d].
  - now rewrite H1.
  - now rewrite (IH1 H1').
Qed.

Lemma files_below_rewrite_files (Q : string -> file -> Prop) n :
  files_below (fun name f => Q name (g name f)) n ->
  files_below Q (rewrite_files g n).
Proof.
  induction n as [f|es IH] using node_induction; intros H; [exact I|].
  rewrite rewrite_files_dir. unfold files_below in *.
  apply entries_below_dir in H. apply entries_below_dir.
  induction es as [|[name c] es IHes]; [constructor|].
  inversion IH as [|? ? IH1 IH2]; subst. inversion H as [|? ? [H1 H1'] H2]; subst.
  simpl in *. constructor; [|exact (IHes IH2 H2)].
  simpl. destruct c as [f|d]; [split; [exact H1|exact I]|].
  split; [exact I|]. exact (IH1 H1').
Qed.

End Rewrite.

Section RewriteTwice.

Import Fs Subst Walk.

Variable t : table.
Hypothesis t_full : full_table t.

(** A file the substitution has been over is left alone by a second
    substitution, when its text was template text. *)
Lemma rewritten_twice name f :
  template_text name f -> rewritten t name (rewritten t name f) = rewritten t name f.
Proof.
  intros Hf. unfold rewritten. destruct (allowed name) eqn:Ea; [|reflexivity].
  specialize (Hf Ea). unfold text_is in Hf.
  destruct f as [r w d]. simpl in Hf.
  unfold replace_in_file, read_text, write_text. simpl.
  destruct r; [|reflexivity]. destruct d as [s|]; [|reflexivity].
  destruct w; [|reflexivity]. simpl.
  rewrite (apply_all_fixes_brace_free t (apply_all t s)); [reflexivity|apply t_full|].
  apply apply_all_brace_free; [exact t_full|]. exact (Hf s eq_refl).
Qed.

Lemma substitute_walk_twice root root' n :
  files_below template_text n ->
  fst (substitute_walk t root' (fst (substitute_walk t root n)))
  = fst (substitute_walk t root n).
Proof.
  intros H. rewrite !substitute_walk_rewrite.
  apply rewrite_files_fixed. apply files_below_rewrite_files.
  unfold files_below in *. eapply entries_below_impl; [|exact H].
  intros name [f|d]; [|auto]. apply rewritten_twice.
Qed.

End RewriteTwice.

(** X15. The substitution changes the contents of files and nothing else: below
    the walked directory no path appears or disappears, a directory stays
    a directory, a file whose suffix is not allow-listed is the file it
    was, and an allow-listed file is what [replace_in_file] leaves of it,
    with its permissions as they were. *)
Theorem substitution_changes_file_contents_only
    (t : Subst.table) (root : Fs.path) (es : list Fs.entry) :
  (forall q,
      match Fs.lookup q (Fs.Dir es) with
      | None =>
          Fs.lookup q (fst (Walk.substitute_walk t root (Fs.Dir es))) = None
      | Some (Fs.Dir _) =>
          exists d', Fs.lookup q (fst (Walk.substitute_walk t root (Fs.Dir es)))
                     = Some (Fs.Dir d')
      | Some (Fs.File f) =>
          Fs.lookup q (fst (Walk.substitute_walk t root (Fs.Dir es)))
          = Some (Fs.File (if Walk.allowed (List.last q "")
                           then fst (Walk.replace_in_file t (root ++ q)%list f)
                           else f))
      end)
  /\ (forall file_path f,
        Fs.may_read (fst (Walk.replace_in_file t file_path f)) = Fs.may_read f
        /\ Fs.may_write (fst (Walk.replace_in_file t file_path f)) = Fs.may_write f).
Proof.
  split; [|intros; apply replace_in_file_permissions].
  intros q. rewrite substitute_walk_rewrite, lookup_rewrite_files.
  destruct (Fs.lookup q (Fs.Dir es)) as [[f|d]|]; [| |reflexivity].
  - unfold rewritten. destruct (Walk.allowed (List.last q "")); [|reflexivity].
    now rewrite (replace_in_file_path_irrelevant t [List.last q ""] (root ++ q)%list).
  - rewrite rewrite_files_dir. eauto.
Qed.

(** X16. Substituting twice is substituting once: when the values of the table
    hold no brace and the allow-listed files hold template text, a second
    walk over the result of the first leaves every file as the first walk
    left it. *)
Theorem substitution_twice_is_substitution_once
    (t : Subst.table) (root root' : Fs.path) (n : Fs.node) :
  Subst.full_table t ->
  Walk.files_below Walk.template_text n ->
  fst (Walk.substitute_walk t root' (fst (Walk.substitute_walk t root n)))
  = fst (Walk.substitute_walk t root n).
Proof. intros Ht H. now apply substitute_walk_twice. Qed.

Lemma substitution_twice_is_substitution_once_witness :
  fst (Walk.substitute_walk (Setup.replacements_of Samples.demo_metadata) ["p"]
         Samples.small_renamed) = Samples.small_project
  /\ fst (Walk.substitute_walk (Setup.replacements_of Samples.demo_metadata) ["p"]
            Samples.small_project) = Samples.small_project.
Proof.
  assert (Hs : fst (Walk.substitute_walk (Setup.replacements_of Samples.demo_metadata)
                      ["p"] Samples.small_renamed) = Samples.small_project)
    by (vm_compute; reflexivity).
  split; [exact Hs|].
  rewrite <- Hs at 1 2.
  apply (substitution_twice_is_substitution_once
           (Setup.replacements_of Samples.demo_metadata) ["p"] ["p"] Samples.small_renamed).
  - apply replacements_full. exact demo_values_brace_free.
  - simpl. repeat split.
    + intros _ s [= <-].
      apply (templated_around "# " "{{PROJECT_NAME}}" ""); simpl; auto 10; reflexivity.
    + intros _ s [= <-].
      apply (templated_around "name = '" "{{MODULE_NAME}}" "'");
        simpl; auto 10; reflexivity.
    + intros _ s H. discriminate H.
Defined.

(** ** Which files the substitution rewrites *)

Section Suffix.

Import Fs Walk.

Lemma substring_all s : String.substring 0 (String.length s) s = s.
Proof. induction s as [|c s IH]; simpl; [reflexivity|now rewrite IH]. Qed.

Lemma substring_tail a b :
  String.substring (String.length a) (String.length b) (a ++ b) = b.
Proof. induction a as [|c a IH]; simpl; [apply substring_all|exact IH]. Qed.

Lemma split_at i :
  forall s, i <= String.length s ->
    exists a b, s = (a ++ b)%string /\ String.length a = i
                /\ String.substring i (String.length s - i) s = b.
Proof.
  induction i as [|i IH]; intros s Hi.
  - exists "", s. rewrite Nat.sub_0_r, substring_all. auto.
  - destruct s as [|c s]; [simpl in Hi; lia|]. simpl in Hi.
    destruct (IH s) as (a & b & -> & Ha & Hb); [lia|].
    exists (String c a), b. simpl. rewrite Ha. auto.
Qed.

Lemma rfind_dot_range s :
  forall i j, rfind_dot s i = Some j -> i <= j < i + String.length s.
Proof.
  induction s as [|c s IH]; intros i j H; [discriminate|].
  simpl in H. destruct (rfind_dot s (S i)) as [j'|] eqn:E.
  - injection H as <-. apply IH in E. simpl. lia.
  - destruct (Ascii.eqb c "."); [|discriminate]. injection H as <-. simpl. lia.
Qed.

Lemma rfind_dot_last rest :
  (forall k, rfind_dot rest k = None) ->
  forall stem i,
    rfind_dot (stem ++ String "." rest) i = Some (i + String.length stem).
Proof.
  intros Hrest. induction stem as [|c stem IH]; intros i.
  - simpl. rewrite Hrest, Nat.add_0_r. reflexivity.
  - simpl. rewrite IH. f_equal. lia.
Qed.

Lemma listed_extension ext :
  In ext allow_list ->
  exists rest, ext = String "." rest /\ (forall k, rfind_dot rest k = None)
               /\ 1 <= String.length rest.
Proof.
  intros H. simpl in H.
  repeat (destruct H as [<-|H];
          [eexists; split; [reflexivity|split; [intros k; reflexivity|simpl; lia]]|]).
  contradiction.
Qed.

Lemma suffix_of_listed stem ext :
  In ext allow_list -> stem <> "" -> suffix (stem ++ ext) = ext.
Proof.
  intros He Hs. destruct (listed_extension ext He) as (rest & -> & Hrest & Hlen).
  unfold suffix. rewrite (rfind_dot_last rest Hrest stem 0). simpl Nat.add.
  rewrite length_append.
  assert (Hl : 1 <= String.length stem) by (destruct stem; [contradiction|simpl; lia]).
  replace (0 <? String.length stem) with true by (symmetry; apply Nat.ltb_lt; lia).
  replace (String.length stem <? String.length stem + String.length (String "." rest) - 1)
    with true by (symmetry; apply Nat.ltb_lt; simpl; lia).
  simpl andb. cbv iota.
  replace (String.length stem + String.length (String "." rest) - String.length stem)
    with (String.length (String "." rest)) by lia.
  apply substring_tail.
Qed.

Lemma suffix_splits name ext :
  suffix name = ext -> ext <> "" ->
  exists stem, stem <> "" /\ name = (stem ++ ext)%string.
Proof.
  unfold suffix. intros H Hne.
  destruct (rfind_dot name 0) as [i|] eqn:Ei; [|congruence].
  destruct (0 <? i) eqn:E0; [|simpl in H; congruence].
  destruct (i <? String.length name - 1) eqn:E1; [|simpl in H; congruence].
  simpl in H. apply Nat.ltb_lt in E0, E1.
  destruct (split_at i name) as (a & b & Hn & Ha & Hb); [lia|].
  exists a. split; [intros ->; simpl in Ha; lia|]. congruence.
Qed.

Lemma allowed_listed name :
  allowed name = true
  <-> exists stem ext, In ext allow_list /\ stem <> "" /\ name = (stem ++ ext)%string.
Proof.
  unfold allowed. rewrite existsb_exists. split.
  - intros (ext & Hin & He). apply String.eqb_eq in He.
    destruct (listed_extension ext Hin) as (rest & Hr & _).
    destruct (suffix_splits name ext He) as (stem & Hs & Hn); [rewrite Hr; discriminate|].
    now exists stem, ext.
  - intros (stem & ext & Hin & Hs & ->). exists ext. split; [exact Hin|].
    apply String.eqb_eq. now apply suffix_of_listed.
Qed.

End Suffix.

(** X17. A file is rewritten exactly when its name is a non-empty stem followed
    by one of the six listed extensions, in that spelling: a name that is
    only an extension, such as a file called .yml, has no suffix and is
    skipped, and so is any other ending. *)
Theorem rewritten_files_have_a_stem_and_a_listed_extension (name : string) :
  Walk.allowed name = true
  <-> exists stem ext,
        In ext Walk.allow_list /\ stem <> "" /\ name = (stem ++ ext)%string.
Proof. apply allowed_listed. Qed.

(** ** Addresses the e-mail check accepts *)

Section AcceptedAddresses.

Import Chars Re Accept Email.

Lemma lang_cat_iff r1 r2 s :
  lang (Cat r1 r2) s
  <-> exists s1 s2, s = (s1 ++ s2)%string /\ lang r1 s1 /\ lang r2 s2.
Proof.
  split; [apply lang_cat_inv|]. intros (s1 & s2 & -> & H1 & H2). now constructor.
Qed.

Lemma lang_lit c s : lang (Lit c) s <-> s = String c "".
Proof.
  unfold Lit. split.
  - intros H. apply lang_class_inv in H as (d & -> & Hd).
    apply Ascii.eqb_eq in Hd. now subst.
  - intros ->. constructor. apply Ascii.eqb_refl.
Qed.

Lemma lang_plus_class p s :
  lang (Plus (Class p)) s <-> s <> "" /\ Str.forallb p s = true.
Proof.
  unfold Plus. rewrite lang_cat_iff. split.
  - intros (s1 & s2 & -> & H1 & H2).
    apply lang_class_inv in H1 as (c & -> & Hc). apply star_class_forallb in H2.
    split; [discriminate|]. simpl. now rewrite Hc, H2.
  - intros [Hne H]. destruct s as [|c s]; [contradiction|].
    simpl in H. apply andb_true_iff in H as [Hc Hs].
    exists (String c ""), s. split; [reflexivity|].
    split; [now constructor|now apply star_class_forallb].
Qed.

Lemma lang_at_least_2_class p s :
  lang (AtLeast2 (Class p)) s <-> 2 <= String.length s /\ Str.forallb p s = true.
Proof.
  unfold AtLeast2. rewrite lang_cat_iff. split.
  - intros (s1 & s2 & -> & H1 & H2).
    apply lang_class_inv in H1 as (c & -> & Hc).
    apply (lang_plus_class p s2) in H2 as [Hne H2].
    split; [destruct s2; [contradiction|simpl; lia]|]. simpl. now rewrite Hc, H2.
  - intros [Hlen H]. destruct s as [|c s]; [simpl in Hlen; lia|].
    simpl in H. apply andb_true_iff in H as [Hc Hs].
    exists (String c ""), s. split; [reflexivity|]. split; [now constructor|].
    apply (lang_plus_class p s). split; [|exact Hs].
    destruct s; [simpl in Hlen; lia|discriminate].
Qed.

(** The pattern of line 32 reads user@domain.tld. *)
Lemma lang_email_pattern s : lang email_pattern s <-> address_shape s.
Proof.
  unfold email_pattern, address_shape. split.
  - intros H.
    apply lang_cat_iff in H as (user & s1 & -> & Hu & H).
    apply lang_cat_iff in H as (at_ & s2 & -> & Hat & H).
    apply lang_cat_iff in H as (domain & s3 & -> & Hd & H).
    apply lang_cat_iff in H as (dot & tld & -> & Hdot & Ht).
    apply lang_lit in Hat as ->. apply lang_lit in Hdot as ->.
    apply lang_plus_class in Hu as [Hu1 Hu2]. apply lang_plus_class in Hd as [Hd1 Hd2].
    apply lang_at_least_2_class in Ht as [Ht1 Ht2].
    exists user, domain, tld. repeat split; assumption.
  - intros (user & domain & tld & -> & Hu1 & Hu2 & Hd1 & Hd2 & Ht1 & Ht2).
    apply lang_cat_iff. exists user, ("@" ++ domain ++ "." ++ tld)%string.
    split; [reflexivity|]. split; [now apply lang_plus_class|].
    apply lang_cat_iff. exists "@"%string, (domain ++ "." ++ tld)%string.
    split; [reflexivity|]. split; [now apply lang_lit|].
    apply lang_cat_iff. exists domain, ("." ++ tld)%string.
    split; [reflexivity|]. split; [now apply lang_plus_class|].
    apply lang_cat_iff. exists "."%string, tld.
    split; [reflexivity|]. split; [now apply lang_lit|].
    now apply lang_at_least_2_class.
Qed.

Lemma match_anchored_email s :
  match_anchored email_pattern s = true
  <-> address_shape s
      \/ (ends_with_newline s = true /\ address_shape (Str.drop_last s)).
Proof.
  unfold match_anchored, ends_with_newline.
  rewrite orb_true_iff, full_match_lang, lang_email_pattern.
  destruct (Str.last s) as [c|].
  - rewrite andb_true_iff, full_match_lang, lang_email_pattern. reflexivity.
  - split; [intros [H|H]; [now left|discriminate]|intros [H|[H _]]; [now left|discriminate]].
Qed.

Lemma mem_append c a b : Chars.mem c (a ++ b) = Chars.mem c a || Chars.mem c b.
Proof.
  induction a as [|d a IH]; [reflexivity|]. simpl. now rewrite IH, orb_assoc.
Qed.

Lemma address_shape_has_at s : address_shape s -> Str.has_char "@" s = true.
Proof.
  intros (user & domain & tld & -> & _). unfold Str.has_char.
  rewrite mem_append. simpl. apply orb_true_r.
Qed.

Lemma anchored_address_has_at s :
  address_shape s \/ (ends_with_newline s = true /\ address_shape (Str.drop_last s)) ->
  s <> "" /\ Str.has_char "@" s = true.
Proof.
  intros H.
  assert (Hat : Str.has_char "@" s = true).
  { destruct H as [H|[Hn H]]; [now apply address_shape_has_at|].
    unfold ends_with_newline in Hn.
    destruct (Str.last s) as [c|] eqn:El; [|discriminate].
    rewrite (drop_last_snoc s c El). unfold Str.has_char. rewrite mem_append.
    apply address_shape_has_at in H. unfold Str.has_char in H. now rewrite H. }
  split; [intros ->; discriminate Hat|exact Hat].
Qed.

Variable parseaddr : string -> (string * string) + Parseaddr.perror.

Lemma is_valid_email_accepts email :
  is_valid_email parseaddr email = inl true
  <-> Str.has_char "@" email = true
      /\ exists parsed_name parsed_email,
           parseaddr email = inl (parsed_name, parsed_email)
           /\ (address_shape parsed_email
               \/ (ends_with_newline parsed_email = true
                   /\ address_shape (Str.drop_last parsed_email))).
Proof.
  unfold is_valid_email. split.
  - destruct (String.eqb email "" || negb (Str.has_char "@" email)) eqn:E1;
      [discriminate|].
    apply orb_false_iff in E1 as [_ E1]. apply negb_false_iff in E1.
    destruct (parseaddr email) as [[pn pe]|err]; [|discriminate].
    destruct (String.eqb pe "" || negb (Str.has_char "@" pe)); [discriminate|].
    intros [= H]. apply match_anchored_email in H.
    split; [exact E1|]. now exists pn, pe.
  - intros (Hat & pn & pe & -> & H).
    assert (E : String.eqb email "" = false).
    { destruct email; [discriminate Hat|reflexivity]. }
    rewrite E, Hat. simpl.
    destruct (anchored_address_has_at pe H) as [Hne Hat'].
    assert (E' : String.eqb pe "" = false) by (destruct pe; [contradiction|reflexivity]).
    rewrite E', Hat'. simpl. f_equal. now apply match_anchored_email.
Qed.

End AcceptedAddresses.

(** X18. [is_valid_email] accepts an answer exactly when the answer holds an
    at sign and the address the parser extracts from it reads
    user@domain.tld: a non-empty user part over letters, digits and the
    characters . _ % + -, a non-empty domain over letters, digits, dot and
    hyphen, and a last label of two letters or more; since [$] also
    matches before a final newline, such an address followed by one
    newline passes too. *)
Theorem accepted_email_reads_user_at_domain_tld
    (parseaddr : string -> (string * string) + Parseaddr.perror) (email : string) :
  Email.is_valid_email parseaddr email = inl true
  <-> Str.has_char "@" email = true
      /\ exists parsed_name parsed_email,
           parseaddr email = inl (parsed_name, parsed_email)
           /\ (address_shape parsed_email
               \/ (Accept.ends_with_newline parsed_email = true
                   /\ address_shape (Str.drop_last parsed_email))).
Proof. apply is_valid_email_accepts. Qed.

Lemma accepted_email_reads_user_at_domain_tld_witness :
  check_email "Name <user@example.com>" = inl true.
Proof.
  apply (accepted_email_reads_user_at_domain_tld EmailUtils.parseaddr
           "Name <user@example.com>").
  split; [reflexivity|].
  exists "Name", "user@example.com". split; [vm_compute; reflexivity|].
  left. exists "user", "example", "com". repeat split; try discriminate; simpl; lia.
Defined.

Lemma rewritten_files_have_a_stem_and_a_listed_extension_witness :
  Walk.allowed "conf.d.yaml" = true.
Proof.
  apply (rewritten_files_have_a_stem_and_a_listed_extension "conf.d.yaml").
  exists "conf.d", ".yaml". split; [simpl; auto 10|]. split; [discriminate|reflexivity].
Defined.

(** ** The default target and the placeholder directory *)

Section DefaultTarget.

Import Chars Fs Setup.

Lemma forallb_impl (p q : ascii -> bool) s :
  (forall c, p c = true -> q c = true) ->
  Str.forallb p s = true -> Str.forallb q s = true.
Proof.
  intros Hpq. induction s as [|c s IH]; [reflexivity|]. simpl. intros H.
  apply andb_true_iff in H as [Hc Hs]. now rewrite (Hpq c Hc), (IH Hs).
Qed.

Lemma name_char_is_no_separator c :
  Ident.is_name_char c = true -> negb (Ascii.eqb c "/") = true.
Proof.
  destruct (Ascii.eqb_spec c "/") as [->|]; [discriminate|reflexivity].
Qed.

Lemma name_shape_no_separator s :
  Accept.name_shape s = true ->
  Str.forallb (fun c => negb (Ascii.eqb c "/")) s = true.
Proof.
  unfold Accept.name_shape. intros H.
  apply andb_true_iff in H as [H _]. apply andb_true_iff in H as [H _].
  exact (forallb_impl _ _ s name_char_is_no_separator H).
Qed.

Lemma valid_project_name_no_separator s :
  Ident.valid_project_name s = true ->
  Str.forallb (fun c => negb (Ascii.eqb c "/")) s = true.
Proof.
  rewrite valid_project_name_shape. intros H.
  apply orb_true_iff in H as [H|H]; [now apply name_shape_no_separator|].
  apply andb_true_iff in H as [Hn H]. unfold Accept.ends_with_newline in Hn.
  destruct (Str.last s) as [c|] eqn:El; [|discriminate].
  rewrite (drop_last_snoc s c El), forallb_append.
  rewrite (name_shape_no_separator _ H). simpl.
  apply Ascii.eqb_eq in Hn as ->. reflexivity.
Qed.

(** A valid project name is one path component. *)
Lemma join_project_name base name :
  Ident.valid_project_name name = true ->
  join base ("./" ++ name) = (base ++ [name])%list.
Proof.
  intros H. pose proof (valid_project_name_no_separator name H) as Hsep.
  apply valid_project_name_head in H as (c & s' & -> & Hc).
  unfold join.
  change (Str.split "/" ("./" ++ String c s'))
    with ("." :: Str.split "/" (String c s')).
  rewrite (split_without_separator (fun c => negb (Ascii.eqb c "/")) "/" _ Hsep eq_refl).
  change (join_from base ("./" ++ String c s')) with base.
  simpl fold_left. unfold step.
  change (String.eqb "." "" || String.eqb "." ".") with true. cbv iota.
  assert (Hdot : Ascii.eqb c "." = false).
  { destruct (Ascii.eqb_spec c ".") as [->|]; [discriminate Hc|reflexivity]. }
  replace (String.eqb (String c s') "") with false by reflexivity.
  assert (E1 : String.eqb (String c s') "." = false) by (simpl; now rewrite Hdot).
  assert (E2 : String.eqb (String c s') ".." = false) by (simpl; now rewrite Hdot).
  rewrite E1, E2. reflexivity.
Qed.

Lemma path_eqb_child (base : path) name : path_eqb (base ++ [name])%list base = false.
Proof.
  unfold path_eqb.
  destruct (list_eq_dec string_dec (base ++ [name])%list base) as [E|]; [|reflexivity].
  apply (f_equal (@List.length string)) in E. rewrite List.length_app in E.
  simpl in E. lia.
Qed.

End DefaultTarget.

Section Removal.

Import Fs.

(** Where the change at [p] is a removal, nothing is at [p] afterwards. *)
Lemma alter_removes f p :
  (forall cur r, f cur = inr r -> r = None) ->
  forall cur r,
    alter f p cur = inr r ->
    match r with
    | Some n => lookup p n = None
    | None => True
    end.
Proof.
  intros Hf. induction p as [|x p IH]; intros cur r H.
  - simpl in H. now rewrite (Hf _ _ H).
  - simpl in H. destruct cur as [[g|es]|]; try discriminate.
    destruct (alter f p (find_entry x es)) as [e|r'] eqn:E; [discriminate|].
    injection H as <-. specialize (IH _ _ E).
    simpl lookup. destruct r' as [c|]; simpl set_entry.
    + now rewrite find_put_same.
    + now rewrite find_remove_same.
Qed.

Lemma rmtree_removes p root root' : rmtree p root = inr root' -> lookup p root' = None.
Proof.
  unfold rmtree. intros H. apply alter_root_some in H.
  apply (alter_removes _ p) in H; [exact H|].
  intros [[g|es]|] r; [discriminate| |discriminate]. now intros [= <-].
Qed.

End Removal.

(** X19. With a blank answer to the target prompt the target is the directory
    named after the project directly below the working directory; it is
    never the working directory itself, so the second confirmation is not
    asked for. *)
Theorem blank_target_answer_selects_project_directory
    (cwd : Fs.path) (m : Setup.metadata) (l : string) :
  Ident.valid_project_name (Setup.project_name m) = true ->
  Str.strip l = "" ->
  Setup.target_dir_of cwd m l = (cwd ++ [Setup.project_name m])%list
  /\ Setup.path_eqb (Setup.target_dir_of cwd m l) cwd = false.
Proof.
  intros Hv Hl. unfold Setup.target_dir_of. rewrite Hl. simpl String.eqb. cbv iota.
  rewrite (join_project_name cwd _ Hv). split; [reflexivity|apply path_eqb_child].
Qed.

Lemma blank_target_answer_selects_project_directory_witness :
  Setup.target_dir_of Samples.work Samples.demo_metadata "  "
  = ["work"; "demo-app"]
  /\ Setup.path_eqb (Setup.target_dir_of Samples.work Samples.demo_metadata "  ")
       Samples.work = false.
Proof.
  apply (blank_target_answer_selects_project_directory Samples.work
           Samples.demo_metadata "  "); reflexivity.
Defined.

(** X20. When the module directory was missing and the fix returned, no
    directory named after the placeholder is left under the source
    directory of the target. *)
Theorem module_directory_fix_removes_the_placeholder_directory
    (template_dir target : Fs.path) (m : string) (w w1 : Setup.world) :
  Fs.lookup (Setup.join (Setup.join target "src") m) (Setup.fs w) = None ->
  Setup.fix_src_layout template_dir target m w = Setup.Ok tt w1 ->
  Fs.lookup (Setup.join (Setup.join target "src") "{{MODULE_NAME}}") (Setup.fs w1)
  = None.
Proof.
  intros Hnew. unfold Setup.fix_src_layout.
  set (new := Setup.join (Setup.join target "src") m) in *.
  set (old := Setup.join (Setup.join target "src") "{{MODULE_NAME}}") in *.
  unfold Setup.bind, Setup.exists_, Setup.fs_call, Setup.ret.
  rewrite Hnew. cbv [negb]. cbv beta iota.
  destruct (Fs.makedirs true (removelast new) (Setup.fs w)) as [e|n2]; [discriminate|].
  match goal with
  | |- context [Setup.copytree ?d ?i ?o ?s new ?w2] =>
      destruct (Setup.copytree d i o s new w2) as [[] w3|c w3|e w3] eqn:Ec;
        try discriminate
  end.
  destruct (Fs.lookup old (Setup.fs w3)) eqn:Eo.
  - destruct (Fs.rmtree old (Setup.fs w3)) as [e|n'] eqn:Er; [discriminate|].
    intros [= <-]. simpl. exact (rmtree_removes _ _ _ Er).
  - intros [= <-]. exact Eo.
Qed.

Lemma module_directory_fix_removes_the_placeholder_directory_witness :
  exists w1,
    Setup.fix_src_layout Samples.tpl Samples.tpl "demo_app" (Samples.start [])
    = Setup.Ok tt w1
    /\ Fs.lookup ["work"; "tpl"; "src"; "{{MODULE_NAME}}"] Samples.disk <> None
    /\ Fs.lookup ["work"; "tpl"; "src"; "{{MODULE_NAME}}"] (Setup.fs w1) = None.
Proof.
  eexists. split; [vm_compute; reflexivity|]. split; [vm_compute; discriminate|].
  apply (module_directory_fix_removes_the_placeholder_directory Samples.tpl Samples.tpl
           "demo_app" (Samples.start [])); vm_compute; reflexivity.
Defined.

(** ** Where a run writes *)

Section Frame.

Import Fs Walk Setup.
Local Open Scope run_scope.

Lemma apart_cons x p q : apart (x :: p) (x :: q) -> apart p q.
Proof.
  intros [H1 H2]. split; intros [t ->]; [apply H1|apply H2]; now exists t.
Qed.

Lemma apart_below p p' q : apart p q -> below p p' -> apart p' q.
Proof.
  intros [H1 H2] [t ->]. split.
  - intros [t' ->]. apply H1. exists (t ++ t')%list. now rewrite List.app_assoc.
  - intros [t' E]. apply List.app_eq_app in E as [l [[-> _]|[-> _]]].
    + apply H2. now exists l.
    + apply H1. now exists l.
Qed.

Lemma apart_not_root q : ~ apart [] q.
Proof. intros [H _]. apply H. now exists q. Qed.

Lemma not_apart_root p : ~ apart p [].
Proof. intros [_ H]. apply H. now exists p. Qed.

Lemma lookup_cons y q es : lookup (y :: q) (Dir es) = at_path q (find_entry y es).
Proof. reflexivity. Qed.

(** A change at [p] leaves what is apart from [p]. *)
Lemma alter_frame f p :
  forall cur r q, alter f p cur = inr r -> apart p q -> at_path q r = at_path q cur.
Proof.
  induction p as [|x p IH]; intros cur r q Ha Hq; [now apply apart_not_root in Hq|].
  destruct q as [|y q]; [now apply not_apart_root in Hq|].
  simpl in Ha. destruct cur as [[g|es]|]; try discriminate.
  destruct (alter f p (find_entry x es)) as [e|r'] eqn:E; [discriminate|].
  injection Ha as <-. unfold at_path at 1 2. rewrite !lookup_cons.
  destruct (String.eqb y x) eqn:Eyx.
  - apply String.eqb_eq in Eyx as ->. apply apart_cons in Hq.
    rewrite <- (IH _ _ _ E Hq).
    destruct r' as [c|]; simpl set_entry;
      [now rewrite find_put_same|now rewrite find_remove_same].
  - now rewrite find_set_other.
Qed.

Lemma alter_root_frame f p root root' q :
  alter_root f p root = inr root' -> apart p q -> lookup q root' = lookup q root.
Proof.
  intros H Hq. apply alter_root_some in H. exact (alter_frame f p _ _ q H Hq).
Qed.

Lemma makedirs_at_frame exist_ok p :
  forall cur n q,
    makedirs_at exist_ok p cur = inr n -> apart p q -> lookup q n = at_path q cur.
Proof.
  induction p as [|x p IH]; intros cur n q Hm Hq; [now apply apart_not_root in Hq|].
  destruct q as [|y q]; [now apply not_apart_root in Hq|].
  simpl in Hm. destruct cur as [[g|es]|]; try discriminate.
  - destruct (makedirs_at exist_ok p (find_entry x es)) as [e|c] eqn:E; [discriminate|].
    injection Hm as <-. unfold at_path. rewrite !lookup_cons.
    destruct (String.eqb y x) eqn:Eyx.
    + apply String.eqb_eq in Eyx as ->. apply apart_cons in Hq.
      rewrite find_put_same. exact (IH _ _ _ E Hq).
    + now rewrite find_put_other.
  - destruct (makedirs_at exist_ok p None) as [e|c] eqn:E; [discriminate|].
    injection Hm as <-. rewrite lookup_cons. simpl find_entry.
    destruct (String.eqb y x) eqn:Eyx; [|reflexivity].
    apply String.eqb_eq in Eyx as ->. apply apart_cons in Hq.
    exact (IH _ _ _ E Hq).
Qed.

Variable p : path.

Lemma writes_below_ret A (a : A) : writes_below p (ret a).
Proof. intros w q H. reflexivity. Qed.

Lemma writes_below_raise A e : writes_below p (@raise A e).
Proof. intros w q H. reflexivity. Qed.

Lemma writes_below_get_fs : writes_below p get_fs.
Proof. intros w q H. reflexivity. Qed.

Lemma writes_below_exists p' : writes_below p (exists_ p').
Proof. intros w q H. reflexivity. Qed.

Lemma writes_below_print m : writes_below p (print m).
Proof. intros w q H. reflexivity. Qed.

Lemma writes_below_print_all ms : writes_below p (print_all ms).
Proof. intros w q H. reflexivity. Qed.

Lemma writes_below_bind A B (c : M A) (k : A -> M B) :
  writes_below p c -> (forall a, writes_below p (k a)) -> writes_below p (bind c k).
Proof.
  intros Hc Hk w q H. unfold bind. specialize (Hc w q H).
  destruct (c w) as [a w'|code w'|e w']; simpl in *; [|assumption..].
  rewrite <- Hc. now apply Hk.
Qed.

Lemma writes_below_try_except A (c : M A) (h : exn -> M A) :
  writes_below p c -> (forall e, writes_below p (h e)) ->
  writes_below p (try_except c h).
Proof.
  intros Hc Hh w q H. unfold try_except. specialize (Hc w q H).
  destruct (c w) as [a w'|code w'|e w']; simpl in *; [assumption..|].
  rewrite <- Hc. now apply Hh.
Qed.

Lemma writes_below_fs_call op :
  (forall root root' q,
      op root = inr root' -> apart p q -> lookup q root' = lookup q root) ->
  writes_below p (fs_call op).
Proof.
  intros Hop w q H. unfold fs_call.
  destruct (op (fs w)) as [e|n] eqn:E; simpl; [reflexivity|].
  exact (Hop _ _ _ E H).
Qed.

Lemma writes_below_makedirs exist_ok p' :
  below p p' -> writes_below p (fs_call (makedirs exist_ok p')).
Proof.
  intros Hp. apply writes_below_fs_call. intros root root' q H Hq.
  exact (makedirs_at_frame _ _ _ _ _ H (apart_below _ _ _ Hq Hp)).
Qed.

Lemma writes_below_rmtree p' : below p p' -> writes_below p (fs_call (rmtree p')).
Proof.
  intros Hp. apply writes_below_fs_call. intros root root' q H Hq.
  exact (alter_root_frame _ _ _ _ _ H (apart_below _ _ _ Hq Hp)).
Qed.

Lemma below_child p' name : below p p' -> below p (p' ++ [name])%list.
Proof. intros [t ->]. exists (t ++ [name])%list. now rewrite List.app_assoc. Qed.

Lemma writes_below_copy2 src dst : below p dst -> writes_below p (copy2 src dst).
Proof.
  intros Hp. unfold copy2. apply writes_below_bind; [apply writes_below_get_fs|].
  intros root. cbv zeta.
  destruct (lookup src root) as [[f|es]|]; try apply writes_below_raise.
  destruct (path_eqb _ _); [apply writes_below_raise|].
  destruct (may_read f); [|apply writes_below_raise].
  apply writes_below_fs_call. intros r r' q H Hq.
  apply (alter_root_frame _ _ _ _ _ H). apply (apart_below _ _ _ Hq).
  destruct (lookup dst root) as [[g|d]|]; [exact Hp|now apply below_child|exact Hp].
Qed.

Lemma writes_below_copy_entries depth' ignore dirs_exist_ok src dst :
  (forall s d, below p d -> writes_below p (copytree depth' ignore dirs_exist_ok s d)) ->
  below p dst ->
  forall l errors,
    writes_below p (copy_entries depth' ignore dirs_exist_ok src dst l errors).
Proof.
  intros IH Hp. induction l as [|[name isdir] l IHl]; intros errors.
  - apply writes_below_ret.
  - simpl. destruct (ignore name); [apply IHl|].
    apply writes_below_bind; [|intros noted; apply IHl].
    apply writes_below_try_except.
    + apply writes_below_bind; [|intros; apply writes_below_ret].
      destruct isdir; [apply IH|apply writes_below_copy2]; now apply below_child.
    + intros e. destruct e; first [apply writes_below_ret|apply writes_below_raise].
Qed.

(** A copy writes at and below its destination only. *)
Lemma writes_below_copytree depth ignore dirs_exist_ok :
  forall src dst,
    below p dst -> writes_below p (copytree depth ignore dirs_exist_ok src dst).
Proof.
  induction depth as [|depth IH]; intros src dst Hp; [apply writes_below_raise|].
  rewrite copytree_step.
  apply writes_below_bind; [apply writes_below_get_fs|]. intros root.
  destruct (scandir src root); [apply writes_below_raise|].
  apply writes_below_bind; [now apply writes_below_makedirs|]. intros _.
  apply writes_below_bind; [now apply writes_below_copy_entries|].
  intros [|]; [apply writes_below_ret|apply writes_below_raise].
Qed.

Lemma below_refl (p' : path) : below p' p'.
Proof. exists []. now rewrite List.app_nil_r. Qed.

End Frame.

Section FrameRun.

Import Fs Walk Setup.
Local Open Scope run_scope.

Variable cwd template_dir : path.

Lemma writes_below_rename_paths target t :
  writes_below target (rename_paths target t).
Proof.
  intros w q Hq. unfold rename_paths, bind, get_fs.
  destruct (lookup target (fs w)) as [[f|es]|]; try reflexivity.
  destruct (rename_walk t (Dir es)) as [n' err].
  destruct (alter_root _ target (fs w)) as [e|root'] eqn:E; [reflexivity|].
  unfold set_fs. destruct err; simpl; exact (alter_root_frame _ _ _ _ _ E Hq).
Qed.

Lemma writes_below_substitute_contents target t :
  writes_below target (substitute_contents target t).
Proof.
  intros w q Hq. unfold substitute_contents, bind, get_fs.
  destruct (lookup target (fs w)) as [[f|es]|]; try reflexivity.
  destruct (substitute_walk t target (Dir es)) as [n' log].
  destruct (alter_root _ target (fs w)) as [e|root'] eqn:E; [reflexivity|].
  simpl. exact (alter_root_frame _ _ _ _ _ E Hq).
Qed.

Lemma writes_below_fix_src_layout target m :
  Str.forallb Ident.is_module_char m = true ->
  writes_below target (fix_src_layout template_dir target m).
Proof.
  intros Hm. unfold fix_src_layout. cbv zeta.
  change (join target "src") with (target ++ ["src"])%list.
  change (join (target ++ ["src"])%list "{{MODULE_NAME}}")
    with ((target ++ ["src"]) ++ ["{{MODULE_NAME}}"])%list.
  rewrite (join_module_name _ _ Hm).
  assert (Hsrc : below target (target ++ ["src"])%list) by now exists ["src"].
  assert (Hnew : below target (if String.eqb m "" then (target ++ ["src"])%list
                               else ((target ++ ["src"]) ++ [m])%list)).
  { destruct (String.eqb m ""); [exact Hsrc|now apply below_child]. }
  assert (Hparent : below target
                      (removelast (if String.eqb m "" then (target ++ ["src"])%list
                                   else ((target ++ ["src"]) ++ [m])%list))).
  { destruct (String.eqb m ""); rewrite List.removelast_last;
      [apply below_refl|exact Hsrc]. }
  apply writes_below_bind; [apply writes_below_exists|]. intros ex.
  destruct (negb ex); [|apply writes_below_ret].
  apply writes_below_bind; [now apply writes_below_makedirs|]. intros _.
  apply writes_below_bind; [now apply writes_below_copytree|]. intros _.
  apply writes_below_bind; [apply writes_below_exists|]. intros ex_old.
  destruct ex_old; [|apply writes_below_ret].
  apply writes_below_rmtree. now apply below_child.
Qed.

(** Copy, module directory, renaming and substitution all stay at and
    below the target. *)
Lemma writes_below_materialize m target :
  Str.forallb Ident.is_module_char (module_name m) = true ->
  writes_below target (materialize template_dir m target).
Proof.
  intros Hm. unfold materialize. cbv zeta.
  apply writes_below_bind.
  { destruct (negb _); [|apply writes_below_print].
    apply writes_below_bind; [apply writes_below_print|]. intros _.
    apply writes_below_copytree. apply below_refl. }
  intros _. apply writes_below_bind; [now apply writes_below_fix_src_layout|]. intros _.
  apply writes_below_bind; [apply writes_below_print|]. intros _.
  apply writes_below_bind; [apply writes_below_rename_paths|]. intros _.
  apply writes_below_bind; [apply writes_below_print|]. intros _.
  apply writes_below_bind; [apply writes_below_substitute_contents|]. intros _.
  apply writes_below_bind; [apply writes_below_print|]. intros _.
  apply writes_below_print.
Qed.

(** The target checks write nothing but the target directory and the
    directories on the way to it, when the path that was typed has no
    [..]; and the target they return is the one the answer names. *)
Lemma resolve_target_frame m w l1 l2 rest :
  stdin w = l1 :: l2 :: rest ->
  ~ In ".." (parts (target_path_of m l2)) ->
  (forall q, apart (target_dir_of cwd m l2) q ->
             lookup q (fs (final (resolve_target cwd m w))) = lookup q (fs w))
  /\ (forall t w', resolve_target cwd m w = Ok t w' -> t = target_dir_of cwd m l2).
Proof.
  intros Hin Hd.
  unfold resolve_target, bind, input, print, sys_exit, ret, get_fs, set_fs, raise.
  rewrite Hin. destruct (confirmed l1); simpl; [|split; [reflexivity|discriminate]].
  destruct (path_eqb (target_dir_of cwd m l2) cwd); simpl;
    [destruct rest as [|l3 rest']; simpl; [split; [reflexivity|discriminate]|];
     destruct (String.eqb (Str.lower (Str.strip l3)) "yes"); simpl;
       [|split; [reflexivity|discriminate]]|].
  all: destruct (target_node cwd m l2 (fs w)) as [e0|[f|[|e es]]]; simpl;
    [
    |split; [reflexivity|discriminate]
    |split; [reflexivity|now intros t w' [= <- _]]
    |split; [reflexivity|discriminate]].
  all: destruct (make_target cwd m l2 (fs w)) as [n [e1|]] eqn:Em; simpl.
  all: split; [|first [discriminate|now intros t w' [= <- _]]].
  all: intros q [_ Hq]; exact (make_target_frame _ _ _ _ _ _ q Hd Em Hq).
Qed.

End FrameRun.

(** X21. A run writes at and below its target directory, and on the way
    down to it, and nowhere else, when the path that was typed for the
    target has no [..] part and no rename of the run leaves its directory
    (a run with such a rename is the one this model ends with
    [OutsideModel]): once the prompts have returned, what sits at any path
    apart from the target is, however the run ends, what sat there before
    the run. *)
Theorem a_run_writes_only_at_and_below_its_target
    (cwd template_dir : Fs.path)
    (parseaddr : string -> (string * string) + Parseaddr.perror)
    (w w1 : Setup.world) (m : Setup.metadata) (l1 l2 : string) (rest : list string)
    (q : Fs.path) :
  Setup.bind (Setup.print Walk.MsgBanner)
    (fun _ => Setup.collect_metadata (Email.is_valid_email parseaddr)) w
  = Setup.Ok m w1 ->
  Setup.stdin w1 = l1 :: l2 :: rest ->
  ~ In ".." (Setup.parts (Setup.target_path_of m l2)) ->
  (forall w', Setup.setup_project cwd template_dir parseaddr w
              <> Setup.Raise Fs.OutsideModel w') ->
  apart (Setup.target_dir_of cwd m l2) q ->
  Fs.lookup q (Setup.fs (Setup.final (Setup.setup_project cwd template_dir parseaddr w)))
  = Fs.lookup q (Setup.fs w).
Proof.
  intros Hcollect Hin Hplain _ Hq.
  assert (Hfs : Setup.fs w1 = Setup.fs w).
  { pose proof (keeps_fs_bind _ _ (Setup.print Walk.MsgBanner)
                  (fun _ => Setup.collect_metadata (Email.is_valid_email parseaddr))
                  (keeps_fs_print _)
                  (fun _ => keeps_fs_collect_metadata _) w) as K.
    rewrite Hcollect in K. exact K. }
  assert (Hm : Str.forallb Ident.is_module_char (Setup.module_name m) = true).
  { unfold Setup.bind, Setup.print in Hcollect.
    destruct (collect_metadata_ok _ _ _ _ Hcollect) as (_ & -> & _).
    apply (module_name_shape (Setup.project_name m)). }
  unfold Setup.setup_project.
  rewrite <- bind_assoc. rewrite (bind_ok _ _ _ _ _ _ _ Hcollect).
  rewrite (bind_ok _ _ _ _ _ _ _ (eq_refl : Setup.print _ w1 = Setup.Ok tt _)).
  match goal with
  | |- context [Setup.bind (Setup.resolve_target cwd m) ?k ?w0] =>
      destruct (resolve_target_frame cwd m w0 l1 l2 rest Hin Hplain) as [Hf Ht];
      specialize (Hf q Hq); unfold Setup.bind at 1;
      destruct (Setup.resolve_target cwd m w0) as [t w3|code w3|e w3] eqn:Er
  end.
  - rewrite (Ht t w3 eq_refl).
    rewrite (writes_below_materialize template_dir m _ Hm w3 q Hq).
    simpl in Hf. rewrite Hf. simpl. now rewrite Hfs.
  - simpl in *. rewrite Hf. now rewrite Hfs.
  - simpl in *. rewrite Hf. now rewrite Hfs.
Qed.

Lemma a_run_writes_only_at_and_below_its_target_witness :
  Fs.lookup ["work"; "fresh"; "src"; "demo_app"; "demo_app_config.py"]
    (Setup.fs (Setup.final
                 (Setup.setup_project Samples.work Samples.tpl EmailUtils.parseaddr
                    (Samples.start (Samples.answers ["fresh"])))))
  <> None
  /\ Fs.lookup ["work"; "tpl"]
       (Setup.fs (Setup.final
                    (Setup.setup_project Samples.work Samples.tpl EmailUtils.parseaddr
                       (Samples.start (Samples.answers ["fresh"])))))
     = Fs.lookup ["work"; "tpl"] Samples.disk.
Proof.
  split; [vm_compute; discriminate|].
  eapply (a_run_writes_only_at_and_below_its_target Samples.work Samples.tpl
            EmailUtils.parseaddr (Samples.start (Samples.answers ["fresh"]))).
  - vm_compute. reflexivity.
  - reflexivity.
  - vm_compute. intros [H|[]]. discriminate H.
  - intros w' H. vm_compute in H. discriminate H.
  - split; intros [t H]; vm_compute in H; discriminate H.
Defined.

(** ** What the template copy leaves out *)

Section Ignored.

Import Fs Walk Setup.
Local Open Scope run_scope.

Variable ignore : string -> bool.

Lemma unmatched_dir es :
  unmatched ignore (Some (Dir es))
  <-> Forall (fun e : entry => ignore (fst e) = false /\ unmatched ignore (Some (snd e))) es.
Proof. unfold unmatched, names_below. apply entries_below_dir. Qed.

Lemma unmatched_find x es :
  unmatched ignore (Some (Dir es)) -> unmatched ignore (find_entry x es).
Proof.
  rewrite unmatched_dir. intros H. induction H as [|[y c] es [_ Hc] Hes IH]; [exact I|].
  simpl. destruct (String.eqb x y); [exact Hc|exact IH].
Qed.

Lemma unmatched_put x n es :
  ignore x = false -> unmatched ignore (Some n) ->
  unmatched ignore (Some (Dir es)) -> unmatched ignore (Some (Dir (put_entry x n es))).
Proof.
  intros Hx Hn. rewrite !unmatched_dir. intros H.
  induction H as [|[y c] es Hy Hes IH]; simpl.
  - constructor; [now split|constructor].
  - destruct (String.eqb x y); constructor; auto.
Qed.

Lemma unmatched_remove x es :
  unmatched ignore (Some (Dir es)) -> unmatched ignore (Some (Dir (remove_entry x es))).
Proof.
  rewrite !unmatched_dir. intros H.
  induction H as [|[y c] es Hy Hes IH]; simpl; [constructor|].
  destruct (String.eqb x y); [exact IH|now constructor].
Qed.

(** A change below a directory, at a path of names that are not matched,
    to something that holds no matched name, brings none in. *)
Lemma alter_unmatched f t :
  (forall cur r, unmatched ignore cur -> f cur = inr r -> unmatched ignore r) ->
  Forall (fun name => ignore name = false) t ->
  forall cur r,
    alter f t cur = inr r -> unmatched ignore cur -> unmatched ignore r.
Proof.
  intros Hf Ht. induction Ht as [|x t Hx Ht IH]; intros cur r Ha Hc.
  - exact (Hf _ _ Hc Ha).
  - simpl in Ha. destruct cur as [[g|es]|]; try discriminate.
    destruct (alter f t (find_entry x es)) as [e|r'] eqn:E; [discriminate|].
    injection Ha as <-. specialize (IH _ _ E (unmatched_find x es Hc)).
    destruct r' as [c|]; simpl set_entry;
      [now apply unmatched_put|now apply unmatched_remove].
Qed.

Lemma alter_app f d t : forall cur, alter f (d ++ t)%list cur = alter (alter f t) d cur.
Proof.
  induction d as [|x d IH]; intros cur; [reflexivity|].
  simpl. destruct cur as [[g|es]|]; try reflexivity. now rewrite IH.
Qed.

Lemma alter_at g d :
  forall cur r0,
    alter g d cur = inr r0 ->
    exists r, g (at_path d cur) = inr r /\ (d <> [] -> at_path d r0 = r).
Proof.
  induction d as [|x d IH]; intros cur r0 H.
  - exists r0. split; [destruct cur; exact H|congruence].
  - simpl in H. destruct cur as [[f|es]|]; try discriminate.
    destruct (alter g d (find_entry x es)) as [e|r'] eqn:E; [discriminate|].
    injection H as <-. destruct (IH _ _ E) as (r & Hr & Hat).
    exists r. split; [exact Hr|]. intros _.
    change (at_path (x :: d) (Some (Dir (set_entry x r' es))))
      with (at_path d (find_entry x (set_entry x r' es))).
    destruct d as [|y d'].
    + simpl in E. destruct (find_entry x es); simpl in Hr; rewrite Hr in E;
        injection E as <-;
        (destruct r as [c|]; simpl set_entry;
         [now rewrite find_put_same|now rewrite find_remove_same]).
    + destruct r' as [c|]; simpl set_entry.
      * rewrite find_put_same. apply Hat. discriminate.
      * rewrite find_remove_same. rewrite <- Hat by discriminate. reflexivity.
Qed.

Lemma makedirs_at_unmatched exist_ok t :
  Forall (fun name => ignore name = false) t ->
  forall cur n,
    makedirs_at exist_ok t cur = inr n -> unmatched ignore cur ->
    unmatched ignore (Some n).
Proof.
  intros Ht. induction Ht as [|x t Hx Ht IH]; intros cur n Hm Hc.
  - simpl in Hm. destruct cur as [[g|es]|]; try discriminate.
    + destruct exist_ok; [|discriminate]. now injection Hm as <-.
    + injection Hm as <-. exact I.
  - simpl in Hm. destruct cur as [[g|es]|]; try discriminate.
    + destruct (makedirs_at exist_ok t (find_entry x es)) as [e|c] eqn:E; [discriminate|].
      injection Hm as <-. apply unmatched_put; auto.
      exact (IH _ _ E (unmatched_find x es Hc)).
    + destruct (makedirs_at exist_ok t None) as [e|c] eqn:E; [discriminate|].
      injection Hm as <-. apply unmatched_dir. constructor; [|constructor].
      split; [exact Hx|exact (IH _ _ E I)].
Qed.

Lemma makedirs_at_app exist_ok d t :
  forall cur n,
    makedirs_at exist_ok (d ++ t)%list cur = inr n ->
    exists n', makedirs_at exist_ok t (at_path d cur) = inr n' /\ lookup d n = Some n'.
Proof.
  induction d as [|x d IH]; intros cur n Hm.
  - exists n. split; [destruct cur; exact Hm|reflexivity].
  - simpl in Hm. destruct cur as [[g|es]|]; try discriminate.
    + destruct (makedirs_at exist_ok (d ++ t)%list (find_entry x es)) as [e|c] eqn:E;
        [discriminate|].
      injection Hm as <-. destruct (IH _ _ E) as (n' & Hn' & Hl).
      exists n'. split; [exact Hn'|]. simpl. now rewrite find_put_same.
    + destruct (makedirs_at exist_ok (d ++ t)%list None) as [e|c] eqn:E; [discriminate|].
      injection Hm as <-. destruct (IH _ _ E) as (n' & Hn' & Hl).
      exists n'. split; [exact Hn'|]. simpl. now rewrite String.eqb_refl.
Qed.

Variable d : path.

Lemma free_of_makedirs exist_ok t root root' :
  Forall (fun name => ignore name = false) t ->
  makedirs exist_ok (d ++ t)%list root = inr root' ->
  free_of ignore d root -> free_of ignore d root'.
Proof.
  intros Ht Hm Hfree. unfold free_of in *.
  destruct (makedirs_at_app _ _ _ _ _ Hm) as (n' & Hn' & ->).
  exact (makedirs_at_unmatched _ _ Ht _ _ Hn' Hfree).
Qed.

Lemma free_of_write_file t f root root' :
  Forall (fun name => ignore name = false) t ->
  write_file (d ++ t)%list f root = inr root' ->
  free_of ignore d root -> free_of ignore d root'.
Proof.
  intros Ht Hw Hfree. unfold free_of in *. unfold write_file in Hw.
  apply alter_root_some in Hw. rewrite alter_app in Hw.
  destruct (alter_at _ _ _ _ Hw) as (r & Hr & Hat).
  assert (Hu : unmatched ignore r).
  { refine (alter_unmatched _ t _ Ht _ _ Hr Hfree).
    intros cur r1 _ H. destruct cur as [[g|es]|]; try discriminate.
    - destruct (may_write g); [|discriminate]. now injection H as <-.
    - now injection H as <-. }
  destruct d as [|x d'].
  - simpl in Hw. simpl in Hr. rewrite Hr in Hw. injection Hw as ->. exact Hu.
  - change (lookup (x :: d') root') with (at_path (x :: d') (Some root')).
    rewrite Hat by discriminate. exact Hu.
Qed.

Lemma preserves_ret I A (a : A) : preserves I (ret a).
Proof. intros w H. exact H. Qed.

Lemma preserves_raise I A e : preserves I (@raise A e).
Proof. intros w H. exact H. Qed.

Lemma preserves_get_fs I : preserves I get_fs.
Proof. intros w H. exact H. Qed.

Lemma preserves_bind I A B (c : M A) (k : A -> M B) :
  preserves I c -> (forall a, preserves I (k a)) -> preserves I (bind c k).
Proof.
  intros Hc Hk w H. unfold bind. specialize (Hc w H).
  destruct (c w) as [a w'|code w'|e w']; simpl in *; [|assumption..].
  now apply Hk.
Qed.

Lemma preserves_try_except I A (c : M A) (h : exn -> M A) :
  preserves I c -> (forall e, preserves I (h e)) -> preserves I (try_except c h).
Proof.
  intros Hc Hh w H. unfold try_except. specialize (Hc w H).
  destruct (c w) as [a w'|code w'|e w']; simpl in *; [assumption..|].
  now apply Hh.
Qed.

Lemma preserves_fs_call (I : node -> Prop) op :
  (forall root root', op root = inr root' -> I root -> I root') ->
  preserves I (fs_call op).
Proof.
  intros Hop w H. unfold fs_call.
  destruct (op (fs w)) as [e|n] eqn:E; simpl; [exact H|]. exact (Hop _ _ E H).
Qed.

Lemma free_of_copy2 src t :
  Forall (fun name => ignore name = false) t ->
  ignore (List.last src "") = false ->
  preserves (free_of ignore d) (copy2 src (d ++ t)%list).
Proof.
  intros Ht Hs. unfold copy2. apply preserves_bind; [apply preserves_get_fs|].
  intros root. cbv zeta.
  destruct (lookup src root) as [[f|es]|]; try apply preserves_raise.
  destruct (path_eqb _ _); [apply preserves_raise|].
  destruct (may_read f); [|apply preserves_raise].
  apply preserves_fs_call. intros r r'.
  destruct (lookup (d ++ t)%list root) as [[g|es]|].
  - now apply free_of_write_file.
  - rewrite <- List.app_assoc. apply free_of_write_file.
    apply Forall_app. split; [exact Ht|now constructor].
  - now apply free_of_write_file.
Qed.

Lemma free_of_copy_entries depth' dirs_exist_ok src t :
  (forall s t', Forall (fun name => ignore name = false) t' ->
                preserves (free_of ignore d)
                  (copytree depth' ignore dirs_exist_ok s (d ++ t')%list)) ->
  Forall (fun name => ignore name = false) t ->
  forall l errors,
    preserves (free_of ignore d)
      (copy_entries depth' ignore dirs_exist_ok src (d ++ t)%list l errors).
Proof.
  intros IH Ht. induction l as [|[name isdir] l IHl]; intros errors.
  - apply preserves_ret.
  - simpl. destruct (ignore name) eqn:En; [apply IHl|].
    apply preserves_bind; [|intros noted; apply IHl].
    assert (Ht' : Forall (fun name => ignore name = false) (t ++ [name])%list).
    { apply Forall_app. split; [exact Ht|now constructor]. }
    apply preserves_try_except.
    + apply preserves_bind; [|intros; apply preserves_ret].
      rewrite <- List.app_assoc.
      destruct isdir; [now apply IH|].
      apply free_of_copy2; [exact Ht'|]. now rewrite List.last_last.
    + intros e. destruct e; first [apply preserves_ret|apply preserves_raise].
Qed.

(** A copy brings no name its [ignore] matches below a directory its
    destination lies in by unmatched names. *)
Lemma free_of_copytree depth dirs_exist_ok :
  forall src t,
    Forall (fun name => ignore name = false) t ->
    preserves (free_of ignore d) (copytree depth ignore dirs_exist_ok src (d ++ t)%list).
Proof.
  induction depth as [|depth IH]; intros src t Ht; [apply preserves_raise|].
  rewrite copytree_step.
  apply preserves_bind; [apply preserves_get_fs|]. intros root.
  destruct (scandir src root); [apply preserves_raise|].
  apply preserves_bind.
  { apply preserves_fs_call. intros r r'. now apply free_of_makedirs. }
  intros _. apply preserves_bind; [now apply free_of_copy_entries|].
  intros [|]; [apply preserves_ret|apply preserves_raise].
Qed.

End Ignored.

(** X22. The template copy brings neither the script nor a version-control or
    byte-code cache directory into a target that was missing or empty:
    however the copy ends, no entry below the target, at any depth, is
    named setup_project.py, .git or __pycache__. *)
Theorem template_copy_leaves_out_ignored_names
    (template_dir target_dir : Fs.path) (w : Setup.world) :
  Fs.lookup target_dir (Setup.fs w) = None
  \/ Fs.lookup target_dir (Setup.fs w) = Some (Fs.Dir []) ->
  free_of Setup.ignore_patterns target_dir
    (Setup.fs (Setup.final
                 (Setup.copytree Setup.recursion_limit Setup.ignore_patterns true
                    template_dir target_dir w))).
Proof.
  intros H.
  pose proof (free_of_copytree Setup.ignore_patterns target_dir Setup.recursion_limit
                true template_dir [] (Forall_nil _) w) as K.
  rewrite List.app_nil_r in K. apply K.
  unfold free_of. destruct H as [-> | ->]; exact I.
Qed.

Lemma template_copy_leaves_out_ignored_names_witness :
  Fs.lookup ["work"; "fresh"; "README.md"]
    (Setup.fs (Setup.final
                 (Setup.copytree Setup.recursion_limit Setup.ignore_patterns true
                    Samples.tpl ["work"; "fresh"] (Samples.start []))))
  <> None
  /\ free_of Setup.ignore_patterns ["work"; "fresh"]
       (Setup.fs (Setup.final
                    (Setup.copytree Setup.recursion_limit Setup.ignore_patterns true
                       Samples.tpl ["work"; "fresh"] (Samples.start [])))).
Proof.
  split; [vm_compute; discriminate|].
  apply (template_copy_leaves_out_ignored_names Samples.tpl ["work"; "fresh"]
           (Samples.start [])).
  left. reflexivity.
Defined.

(** ** When the renaming succeeds *)

Section RenameAll.

Import Fs Subst Walk.

Variable t : table.
Hypothesis t_full : full_table t.



















End RenameAll.


